(** * go-datastructures: the R-tree spatial index and the Dijkstra search

    A shallow embedding of [rtree/rtree.go], the rectangle algebra, the
    query file (SearchIntersect, KNN), the graph structure (AddNode,
    AddDirectedEdge, Weight, the squared distances) and [Dijkstra] of
    [graph/dijkstra.go].

    Numbers.  The Go code computes with [float64].  Here a [float64] is a
    rational number ([Q]): comparisons, addition, subtraction,
    multiplication, division, min, max and abs are exact, there is no NaN
    and rounding is not modelled.  Nor are overflow to an infinity, the NaN
    that an infinity leads to ([Inf - Inf], [Inf * 0]) and underflow to
    zero: the model and the code part ways on inputs that reach them.  Some
    statements bound their inputs by [float64.big] and [float64.tiny],
    between which products neither overflow nor underflow, to stay true of
    the code; the others are statements about the exact arithmetic.
    [math.MaxFloat64] is the rational [2^1024 - 2^971]; [math.Inf(1)] only
    occurs as a returned distance and has a constructor of its own.

    Pointers.  A [*rTreeNode] (resp. [*Node]) is an address into a store of
    nodes, [nil] is [None].  Dereferencing [nil] or an address that is not
    allocated panics, as does indexing a slice out of range.

    Slices.  Every [[]entry] of the tree is owned by one node: the in-place
    [append(s[:i], s[i+1:]...)] idiom of [split], [assignGroup] and [Delete]
    rewrites a backing array that no other slice header reads afterwards,
    so a slice is an immutable [list]. *)

From Stdlib Require Import QArith Qminmax Qabs Lqa ZArith Lia.
From stdpp Require Import base option list sorting gmap.

(** ** float64 *)

Module float64.

(** [x < y] *)
Definition ltb (x y : Q) : bool := negb (Qle_bool y x).
(** [x > y] *)
Definition gtb (x y : Q) : bool := ltb y x.
(** [x == y] *)
Definition eqb (x y : Q) : bool := Qeq_bool x y.

Definition MaxFloat64 : Q := inject_Z (2 ^ 1024 - 2 ^ 971).

(** [2^500]: sums, differences and products of two numbers that are at
    most this large in absolute value stay below [MaxFloat64], so the
    float64 operations on them give no infinity and no NaN. *)
Definition big : Q := inject_Z (2 ^ 500).

(** [2^-500]: a float64, and its square [2^-1000] is one too, so the square
    of a float64 that is at least this large in absolute value does not
    underflow to zero. *)
Definition tiny : Q := / inject_Z (2 ^ 500).

(** [|x| <= b] *)
Definition within (b x : Q) : Prop := (- b <= x <= b)%Q.

Lemma ltb_lt x y : ltb x y = true <-> (x < y)%Q.
Proof.
  unfold ltb. rewrite negb_true_iff.
  destruct (Qle_bool y x) eqn:E.
  - apply Qle_bool_iff in E. split; [discriminate | intros H; lra].
  - split; [intros _ | reflexivity].
    destruct (Qlt_le_dec x y) as [H|H]; [exact H|].
    apply Qle_bool_iff in H. congruence.
Qed.

Lemma ltb_ge x y : ltb x y = false <-> (y <= x)%Q.
Proof.
  unfold ltb. rewrite negb_false_iff. apply Qle_bool_iff.
Qed.

Lemma eqb_eq x y : eqb x y = true <-> (x == y)%Q.
Proof. apply Qeq_bool_iff. Qed.

Lemma big_pos : (0 < big)%Q.
Proof. reflexivity. Qed.

Lemma tiny_pos : (0 < tiny)%Q.
Proof. reflexivity. Qed.

(** The area of a rectangle with corners within [big] is a finite float64. *)
Lemma big_square_fits : (4 * (big * big) < MaxFloat64)%Q.
Proof. reflexivity. Qed.

End float64.

(** ** Outcomes of a run and the state monad of the tree code *)

Module exec.

(** A Go call returns, panics (nil dereference, index out of range, an
    explicit [panic]) or, in this embedding, exhausts the fuel that bounds
    its recursion and its [for] loops. *)
Inductive outcome (A : Type) : Type :=
  | Done (a : A)
  | Panic
  | OutOfFuel.
Arguments Done {A} a.
Arguments Panic {A}.
Arguments OutOfFuel {A}.

Definition obind {A B} (m : outcome A) (k : A -> outcome B) : outcome B :=
  match m with
  | Done a => k a
  | Panic => Panic
  | OutOfFuel => OutOfFuel
  end.

(** Code that reads and writes a state [S]. *)
Definition M (S A : Type) : Type := S -> outcome (A * S).

Definition ret {S A} (a : A) : M S A := fun s => Done (a, s).

Definition bind {S A B} (m : M S A) (k : A -> M S B) : M S B :=
  fun s => match m s with
           | Done (a, s') => k a s'
           | Panic => Panic
           | OutOfFuel => OutOfFuel
           end.

Definition panic {S A} : M S A := fun _ => Panic.
Definition exhausted {S A} : M S A := fun _ => OutOfFuel.
Definition lift {S A} (o : outcome A) : M S A :=
  fun s => match o with
           | Done a => Done (a, s)
           | Panic => Panic
           | OutOfFuel => OutOfFuel
           end.

(** What [f] shows of the result of a run. *)
Definition observe {A B} (f : A -> B) (o : outcome A) : outcome B :=
  obind o (fun a => Done (f a)).

End exec.

Declare Scope go_scope.
Notation "'let*' x ':=' m 'in' k" := (exec.bind m (fun x => k))
  (at level 10, x pattern, m at level 100, k at level 200) : go_scope.
Notation "m ';;' k" := (exec.bind m (fun _ => k))
  (at level 100, k at level 200, right associativity) : go_scope.

(** ** container/heap

    The two priority queues of the repository are slices handed to Go's
    [container/heap].  That package is not part of the repository; it is
    taken by its contract: on a slice that is a heap, [Push] adds an item,
    [Pop] removes an item that no other item is [Less] than, and both leave
    a heap.  Which of several least items is popped is left open. *)

Module heap.

Class Impl {A : Type} (less : A -> A -> bool) := {
  is_heap : list A -> Prop;
  Init : list A -> list A;
  Push : list A -> A -> list A;
  (** [None]: [heap.Pop] on an empty slice panics (index out of range). *)
  Pop : list A -> option (A * list A);
  is_heap_nil : is_heap [];
  Init_heap q : is_heap (Init q);
  Init_perm q : Init q ≡ₚ q;
  Push_heap q x : is_heap q -> is_heap (Push q x);
  Push_perm q x : is_heap q -> Push q x ≡ₚ x :: q;
  Pop_min q :
    is_heap q -> q <> [] ->
    exists x q', Pop q = Some (x, q') /\ is_heap q' /\ q ≡ₚ x :: q' /\
                 Forall (fun y => less y x = false) q'
}.

(** A reference implementation, used to run the queries on concrete
    inputs, for queues ordered by a [float64] key as both queues of the
    repository are: the slice is kept in insertion order and [Pop] takes
    out the first of the least items. *)
Section Naive.
Context {A : Type} (key : A -> Q).

Definition key_less (a b : A) : bool := float64.ltb (key a) (key b).

(** [extract x q]: the first least item of [x :: q] and the other items. *)
Fixpoint extract (x : A) (q : list A) : A * list A :=
  match q with
  | [] => (x, [])
  | y :: q' =>
      let (m, r) := extract y q' in
      if key_less m x then (m, x :: r) else (x, y :: q')
  end.

Definition naive_pop (q : list A) : option (A * list A) :=
  match q with
  | [] => None
  | x :: q' => Some (extract x q')
  end.

Lemma extract_spec x q :
  x :: q ≡ₚ fst (extract x q) :: snd (extract x q) /\
  Forall (fun y => key_less y (fst (extract x q)) = false) (snd (extract x q)).
Proof.
  revert x. induction q as [|y q IH]; intros x; simpl.
  - split; [reflexivity | constructor].
  - destruct (IH y) as [Hp Hf]. destruct (extract y q) as [m r]. simpl in *.
    destruct (key_less m x) eqn:E; simpl.
    + split.
      * rewrite Hp. apply perm_swap.
      * constructor; [|exact Hf].
        unfold key_less in *. apply float64.ltb_ge.
        apply float64.ltb_lt in E. lra.
    + split; [reflexivity|].
      unfold key_less in *. apply float64.ltb_ge in E.
      assert (Hall : Forall (fun z => float64.ltb (key z) (key x) = false) (m :: r)).
      { constructor.
        - apply float64.ltb_ge. exact E.
        - eapply Forall_impl; [exact Hf|]. intros z Hz; simpl in Hz.
          apply float64.ltb_ge in Hz. apply float64.ltb_ge. lra. }
      rewrite <- Hp in Hall. exact Hall.
Qed.

Definition naive : Impl key_less.
Proof.
  refine {| is_heap := fun _ => True;
            Init := fun q => q;
            Push := fun q x => q ++ [x];
            Pop := naive_pop |}.
  - exact I.
  - intros; exact I.
  - intros; reflexivity.
  - intros; exact I.
  - intros q x _. symmetry. apply Permutation_cons_append.
  - intros [|x q] _ Hne; [congruence|].
    exists (fst (extract x q)), (snd (extract x q)).
    destruct (extract_spec x q) as [Hp Hf].
    simpl. destruct (extract x q); simpl in *. auto.
Defined.
End Naive.

End heap.

(** ** Package rtree *)

Module rtree.

Import float64.
Local Open Scope Q_scope.

(** *** Rectangles and points *)

Record RTreePoint := mkPoint { X : Q; Y : Q }.

Record Rect := mkRect {
  bottomLeft : RTreePoint;
  topRight : RTreePoint;
  size : Q
}.

(** A point whose coordinates are within [big], and a rectangle whose
    corners are and whose cached size is within [big * big]. *)
Definition in_range_point (n : RTreePoint) : Prop :=
  within big (X n) /\ within big (Y n).

Definition in_range (r : Rect) : Prop :=
  in_range_point (bottomLeft r) /\ in_range_point (topRight r) /\
  within (big * big) (size r).

(** The zero value of [Rect] ([var bb Rect]). *)
Definition zeroRect : Rect := mkRect (mkPoint 0 0) (mkPoint 0 0) 0.

(** [func (n *RTreePoint) ToRect() *Rect] *)
Definition RTreePoint_ToRect (n : RTreePoint) : Rect :=
  let bottomLeft := mkPoint (X n - (2 # 100000)) (Y n - (2 # 100000)) in
  let topRight := mkPoint (X n + (2 # 100000)) (Y n + (2 # 100000)) in
  mkRect bottomLeft topRight ((2 # 100000) * (2 # 100000)).

(** [func (n *RTreePoint) SquaredDist(r *Rect) float64].  The squares are
    exact here; those of the code underflow to zero for a distance below
    about [2^-537] along an axis. *)
Definition RTreePoint_SquaredDist (n : RTreePoint) (r : Rect) : Q :=
  let dist_x := Qmax (Qmax (X (bottomLeft r) - X n) (X n - X (topRight r))) 0 in
  let dist_y := Qmax (Qmax (Y (bottomLeft r) - Y n) (Y n - Y (topRight r))) 0 in
  dist_x * dist_x + dist_y * dist_y.

(** [func NewRect(u, v *RTreePoint) *Rect].  The size is the exact product
    here; that of the code is an infinity, or the NaN [Inf * 0], where a
    side overflows. *)
Definition NewRect (u v : RTreePoint) : Rect :=
  let bottomLeft := mkPoint (Qmin (X u) (X v)) (Qmin (Y u) (Y v)) in
  let topRight := mkPoint (Qmax (X u) (X v)) (Qmax (Y u) (Y v)) in
  mkRect bottomLeft topRight
    ((Y topRight - Y bottomLeft) * (X topRight - X bottomLeft)).

(** [func (r1 *Rect) containsRect(r2 *Rect) bool].  The last disjunct
    compares [r1.topRight.X] with itself, as the source does. *)
Definition containsRect (r1 r2 : Rect) : bool :=
  if gtb (Y (bottomLeft r1)) (Y (bottomLeft r2))
     || gtb (X (bottomLeft r1)) (X (bottomLeft r2)) then false
  else if ltb (Y (topRight r1)) (Y (topRight r2))
          || ltb (X (topRight r1)) (X (topRight r1)) then false
  else true.

(** [func (r1 *Rect) enlarge(r2 *Rect)]: the receiver is updated field by
    field; the function returns the receiver after the call. *)
Definition enlarge (r1 r2 : Rect) : Rect :=
  let blx := if gtb (X (bottomLeft r1)) (X (bottomLeft r2))
             then X (bottomLeft r2) else X (bottomLeft r1) in
  let trx := if ltb (X (topRight r1)) (X (topRight r2))
             then X (topRight r2) else X (topRight r1) in
  let bly := if gtb (Y (bottomLeft r1)) (Y (bottomLeft r2))
             then Y (bottomLeft r2) else Y (bottomLeft r1) in
  let try := if ltb (Y (topRight r1)) (Y (topRight r2))
             then Y (topRight r2) else Y (topRight r1) in
  mkRect (mkPoint blx bly) (mkPoint trx try) ((try - bly) * (trx - blx)).

(** [func intersect(r1, r2 *Rect) bool] *)
Definition intersect (r1 r2 : Rect) : bool :=
  if ltb (X (topRight r2)) (X (bottomLeft r1))
     || ltb (X (topRight r1)) (X (bottomLeft r2)) then false
  else if ltb (Y (topRight r2)) (Y (bottomLeft r1))
          || ltb (Y (topRight r1)) (Y (bottomLeft r2)) then false
  else true.

(** [func initBoundingBox(r, r1, r2 *Rect)]: [*r = *r1; r.enlarge(r2)]. *)
Definition initBoundingBox (r1 r2 : Rect) : Rect := enlarge r1 r2.

(** [func boundingBox(r1, r2 *Rect) *Rect] *)
Definition boundingBox (r1 r2 : Rect) : Rect := initBoundingBox r1 r2.

(** The area of a rectangle as its corners give it. *)
Definition area (r : Rect) : Q :=
  (X (topRight r) - X (bottomLeft r)) * (Y (topRight r) - Y (bottomLeft r)).

(** Containment as the four inequalities on the corners. *)
Definition covers (outer inner : Rect) : Prop :=
  X (bottomLeft outer) <= X (bottomLeft inner) /\
  Y (bottomLeft outer) <= Y (bottomLeft inner) /\
  X (topRight outer) >= X (topRight inner) /\
  Y (topRight outer) >= Y (topRight inner).

(** *** The tree: nodes, entries, spatial objects *)

(** The interface [Spatial] with its methods [ToRect] and [SquaredDist].
    An interface value is the object's two methods together with the
    address of the object: [==] on two interface values that hold pointers
    compares the addresses. *)
Record Spatial := mkSpatial {
  addr : nat;
  ToRect : Rect;
  SquaredDist : Rect -> Q
}.

(** A [*RTreePoint] at address [a] as a [Spatial]. *)
Definition pointObj (a : nat) (p : RTreePoint) : Spatial :=
  mkSpatial a (RTreePoint_ToRect p) (RTreePoint_SquaredDist p).

Definition ptr := option nat.

Definition ptr_eqb (p q : ptr) : bool :=
  match p, q with
  | Some a, Some b => Nat.eqb a b
  | None, None => true
  | _, _ => false
  end.

Record entry := mkEntry {
  bb : Rect;
  child : ptr;
  obj : option Spatial
}.

Record rTreeNode := mkNode {
  parent : ptr;
  isLeaf : bool;
  entries : list entry;
  level : Z
}.

Record Rtree := mkTree {
  MinBranch : Z;
  MaxBranch : Z;
  Root : ptr;
  Size : Z;
  Height : Z
}.

(** The memory the tree code runs on: the allocated nodes, by address, and
    the [Rtree] struct the receiver [tree] points to. *)
Record state := mkState {
  heap : list rTreeNode;
  tree : Rtree
}.

(** [e.obj == obj] for an interface value [obj] that is not nil. *)
Definition obj_is (o : option Spatial) (x : Spatial) : bool :=
  match o with
  | Some y => Nat.eqb (addr y) (addr x)
  | None => false
  end.

Definition len {A} (l : list A) : Z := Z.of_nat (length l).

(** *** Memory access *)

Import exec.
Local Close Scope Q_scope.
Local Open Scope Z_scope.
Local Open Scope go_scope.

(** [*p] *)
Definition load (p : ptr) : M state rTreeNode :=
  fun s => match p with
           | Some a => match heap s !! a with
                       | Some n => Done (n, s)
                       | None => Panic
                       end
           | None => Panic
           end.

(** [*p = n] *)
Definition store (p : ptr) (n : rTreeNode) : M state unit :=
  fun s => match p with
           | Some a => if (a <? length (heap s))%nat
                       then Done (tt, mkState (<[a:=n]> (heap s)) (tree s))
                       else Panic
           | None => Panic
           end.

(** [&rTreeNode{...}] *)
Definition alloc (n : rTreeNode) : M state ptr :=
  fun s => Done (Some (length (heap s)), mkState (heap s ++ [n]) (tree s)).

Definition getTree : M state Rtree := fun s => Done (tree s, s).
Definition setTree (t : Rtree) : M state unit :=
  fun s => Done (tt, mkState (heap s) t).

(** [p.entries = es] *)
Definition set_entries (p : ptr) (es : list entry) : M state unit :=
  let* n := load p in store p (mkNode (parent n) (isLeaf n) es (level n)).

(** [p.parent = q] *)
Definition set_parent (p q : ptr) : M state unit :=
  let* n := load p in store p (mkNode q (isLeaf n) (entries n) (level n)).

(** [p.entries[i].bb = r] *)
Definition set_entry_bb (p : ptr) (i : nat) (r : Rect) : M state unit :=
  let* n := load p in
  match entries n !! i with
  | Some e => set_entries p (<[i := mkEntry r (child e) (obj e)]> (entries n))
  | None => panic
  end.

(** [if e.child != nil { e.child.parent = q }] *)
Definition reparent (e : entry) (q : ptr) : M state unit :=
  match child e with
  | Some _ => set_parent (child e) q
  | None => ret tt
  end.

(** *** Insertion *)

(** The loop of [computeBoundingBox] over the entries of a node. *)
Definition boundingBoxOf (es : list entry) : Rect :=
  match es with
  | [] => zeroRect
  | e :: tl => fold_left (fun b e' => enlarge b (bb e')) tl (bb e)
  end.

(** [func (n *rTreeNode) computeBoundingBox() *Rect] *)
Definition computeBoundingBox (n : ptr) : M state Rect :=
  let* nd := load n in ret (boundingBoxOf (entries nd)).

(** The loop of [getEntry]: the first index whose child is [n]. *)
Fixpoint indexOfChild (es : list entry) (n : ptr) (i : nat) : option nat :=
  match es with
  | [] => None
  | e :: tl => if ptr_eqb (child e) n then Some i else indexOfChild tl n (S i)
  end.

(** [func (n *rTreeNode) getEntry() *entry]: the entry is returned as the
    parent's address and the index in the parent's entries. *)
Definition getEntry (n : ptr) : M state (ptr * nat) :=
  let* nd := load n in
  let* pn := load (parent nd) in
  match indexOfChild (entries pn) n 0 with
  | Some i => ret (parent nd, i)
  | None => panic
  end.

(** The inner loop of [pickSeeds]: [e1] is entry [i], [rest] is
    [n.entries[i+1:]] from offset [j] on. *)
Fixpoint pickSeeds_inner (e1 : entry) (i j : nat) (rest : list entry)
    (acc : Q * (nat * nat)) : Q * (nat * nat) :=
  match rest with
  | [] => acc
  | e2 :: tl =>
      let b := initBoundingBox (bb e1) (bb e2) in
      let diff := (size b - size (bb e1) - size (bb e2))%Q in
      pickSeeds_inner e1 i (S j) tl
        (if gtb diff (fst acc) then (diff, (i, (i + 1 + j)%nat)) else acc)
  end.

Fixpoint pickSeeds_outer (i : nat) (es : list entry)
    (acc : Q * (nat * nat)) : Q * (nat * nat) :=
  match es with
  | [] => acc
  | e1 :: tl => pickSeeds_outer (S i) tl (pickSeeds_inner e1 i 0 tl acc)
  end.

(** [func (n *rTreeNode) pickSeeds() (int, int)] on the entries of [n]. *)
Definition pickSeeds (es : list entry) : nat * nat :=
  snd (pickSeeds_outer 0 es ((- (1))%Q, (0%nat, 1%nat))).

(** [func assign(e entry, splitNode *rTreeNode)] *)
Definition assign (e : entry) (splitNode : ptr) : M state unit :=
  reparent e splitNode ;;
  let* sn := load splitNode in
  set_entries splitNode (entries sn ++ [e]).

(** The inner loop of [assignGroup].  The accumulator is
    [(maxDiff, bestLeftDiff, bestRightDiff, nextIdx)].  An absolute value
    is never below zero here, so the first entry is always selected; in the
    code it can be a NaN, where areas have overflowed, and then [diff >
    maxDiff] is false.  The theorems that promise a result of [split] for
    all inputs assume rectangles [in_range], on which no area overflows. *)
Fixpoint assignGroup_scan (leftBB rightBB : Rect) (i : nat)
    (remaining : list entry) (acc : Q * Q * Q * nat) : Q * Q * Q * nat :=
  match remaining with
  | [] => acc
  | e :: tl =>
      let '(maxDiff, _, _, _) := acc in
      let leftDiff := (size (boundingBox leftBB (bb e)) - size leftBB)%Q in
      let rightDiff := (size (boundingBox rightBB (bb e)) - size rightBB)%Q in
      let diff := Qabs (leftDiff - rightDiff)%Q in
      assignGroup_scan leftBB rightBB (S i) tl
        (if gtb diff maxDiff then (diff, leftDiff, rightDiff, i) else acc)
  end.

(** The outer loop of [assignGroup].  [nextIdx], [bestLeftDiff] and
    [bestRightDiff] are declared before the loop and live across its
    iterations; the loop runs once per remaining entry, so its fuel is the
    number of entries. *)
Fixpoint assignGroup_loop (fuel : nat) (remaining : list entry)
    (left right : ptr) (minBranch : Z) (vars : Q * Q * nat) : M state unit :=
  if len remaining >? 0 then
    match fuel with
    | O => exhausted
    | S fuel' =>
        let '(bestLeftDiff0, bestRightDiff0, nextIdx0) := vars in
        let* leftBB := computeBoundingBox left in
        let* rightBB := computeBoundingBox right in
        let '(_, bestLeftDiff, bestRightDiff, nextIdx) :=
          assignGroup_scan leftBB rightBB 0 remaining
            ((- (1))%Q, bestLeftDiff0, bestRightDiff0, nextIdx0) in
        match remaining !! nextIdx with
        | None => panic
        | Some nextE =>
            let* ln := load left in
            let* rn := load right in
            (if len (entries ln) + len remaining <=? minBranch then assign nextE left
             else if len (entries rn) + len remaining <=? minBranch then assign nextE right
             else if ltb bestLeftDiff bestRightDiff then assign nextE left
             else if ltb bestRightDiff bestLeftDiff then assign nextE right
             else if ltb (size leftBB) (size rightBB) then assign nextE left
             else if ltb (size rightBB) (size leftBB) then assign nextE right
             else if len (entries ln) <? len (entries rn) then assign nextE left
             else assign nextE right) ;;
            assignGroup_loop fuel' (delete nextIdx remaining) left right minBranch
              (bestLeftDiff, bestRightDiff, nextIdx)
        end
    end
  else ret tt.

(** [func assignGroup(remaining []entry, left, right *rTreeNode, minBranch int)] *)
Definition assignGroup (remaining : list entry) (left right : ptr)
    (minBranch : Z) : M state unit :=
  assignGroup_loop (length remaining) remaining left right minBranch (0%Q, 0%Q, 0%nat).

(** [func (n *rTreeNode) split(minBranch int) (left, right *rTreeNode)].
    [pickSeeds] returns [l < r], so [n.entries[l+1:r]] is a valid slice
    whenever [n.entries[r]] is. *)
Definition split (n : ptr) (minBranch : Z) : M state (ptr * ptr) :=
  let* nd := load n in
  let '(l, r) := pickSeeds (entries nd) in
  match entries nd !! l, entries nd !! r with
  | Some leftSeed, Some rightSeed =>
      let remaining :=
        take l (entries nd)
        ++ take (r - (l + 1))%nat (drop (l + 1)%nat (entries nd))
        ++ drop (r + 1)%nat (entries nd) in
      let left' := n in
      set_entries left' [leftSeed] ;;
      let* right' := alloc (mkNode (parent nd) (isLeaf nd) [rightSeed] (level nd)) in
      reparent rightSeed right' ;;
      reparent leftSeed left' ;;
      assignGroup remaining left' right' minBranch ;;
      ret (left', right')
  | _, _ => panic
  end.

(** The loop of [chooseNode] over the entries of [n].  [chosen] starts as
    the zero entry, whose [bb] is nil: reading [chosen.bb.size] then
    panics.  [None] stands for that zero entry. *)
Fixpoint chooseNode_scan (e : entry) (es : list entry)
    (leastDiff : Q) (chosen : option entry) : outcome (option entry) :=
  match es with
  | [] => Done chosen
  | e2 :: tl =>
      let b := initBoundingBox (bb e2) (bb e) in
      let diff := (size b - size (bb e2))%Q in
      if ltb diff leastDiff then chooseNode_scan e tl diff (Some e2)
      else if eqb diff leastDiff then
        match chosen with
        | None => Panic
        | Some c =>
            if ltb (size (bb e2)) (size (bb c))
            then chooseNode_scan e tl diff (Some e2)
            else chooseNode_scan e tl leastDiff chosen
        end
      else chooseNode_scan e tl leastDiff chosen
  end.

(** [func (tree *Rtree) chooseNode(n *rTreeNode, e entry, level int) *rTreeNode] *)
Fixpoint chooseNode (fuel : nat) (n : ptr) (e : entry) (lvl : Z) : M state ptr :=
  match fuel with
  | O => exhausted
  | S fuel' =>
      let* nd := load n in
      if isLeaf nd || (level nd =? lvl) then ret n
      else
        let* chosen := lift (chooseNode_scan e (entries nd) MaxFloat64 None) in
        chooseNode fuel' (match chosen with Some c => child c | None => None end) e lvl
  end.

(** [func (tree *Rtree) adjustTree(leaf, split *rTreeNode)], which returns
    two node pointers.  The parameter [split] is [sp] here. *)
Fixpoint adjustTree (fuel : nat) (leaf sp : ptr) : M state (ptr * ptr) :=
  match fuel with
  | O => exhausted
  | S fuel' =>
      let* t := getTree in
      if ptr_eqb leaf (Root t) then
        match sp with
        | Some _ =>
            let h := Height t + 1 in
            let* lbb := computeBoundingBox leaf in
            let* sbb := computeBoundingBox sp in
            let* root := alloc (mkNode None false
                                  [mkEntry lbb leaf None; mkEntry sbb sp None] h) in
            setTree (mkTree (MinBranch t) (MaxBranch t) root (Size t) h) ;;
            set_parent leaf root ;;
            set_parent sp root ;;
            ret (leaf, sp)
        | None => ret (None, None)
        end
      else
        let* (p, i) := getEntry leaf in
        let* lbb := computeBoundingBox leaf in
        set_entry_bb p i lbb ;;
        let* ln := load leaf in
        match sp with
        | None => adjustTree fuel' (parent ln) None
        | Some _ =>
            let* sbb := computeBoundingBox sp in
            let new_entry := mkEntry sbb sp None in
            let* pn := load (parent ln) in
            set_entries (parent ln) (entries pn ++ [new_entry]) ;;
            if len (entries pn ++ [new_entry]) >? MaxBranch t then
              let* (l, r) := split (parent ln) (MinBranch t) in
              adjustTree fuel' l r
            else adjustTree fuel' (parent ln) None
        end
  end.

(** [func (tree *Rtree) insert(e entry, level int)] *)
Definition insert (fuel : nat) (e : entry) (lvl : Z) : M state unit :=
  let* t := getTree in
  let* leaf := chooseNode fuel (Root t) e lvl in
  let* ln := load leaf in
  set_entries leaf (entries ln ++ [e]) ;;
  reparent e leaf ;;
  let* (leaf', sp) :=
    (if len (entries ln ++ [e]) >? MaxBranch t
     then split leaf (MinBranch t)
     else ret (leaf, None)) in
  let* _ := adjustTree fuel leaf' sp in
  ret tt.

(** [func (tree *Rtree) Insert(obj Spatial)] *)
Definition Insert (fuel : nat) (o : Spatial) : M state unit :=
  let e := mkEntry (ToRect o) None (Some o) in
  insert fuel e 1 ;;
  let* t := getTree in
  setTree (mkTree (MinBranch t) (MaxBranch t) (Root t) (Size t + 1) (Height t)).

(** [make([]T, 0, n)]: the runtime's [makeslice] panics (cap out of range)
    when [n] is negative and when [n] elements of [T] take more than
    [maxAlloc] bytes, which is [2^48] on the 64-bit platforms.  [size] is
    the size of [T] in bytes: 16 for an interface value such as [Spatial],
    32 for an [entry] (two pointers and an interface value).  Below that
    limit the allocation is taken to succeed: a machine that runs out of
    memory is not modelled. *)
Definition maxAlloc : Z := 2 ^ 48.

Definition make_panics (size n : Z) : bool :=
  (n <? 0) || (maxAlloc <? size * n).

(** [math.MaxInt], the largest [int] on those platforms. *)
Definition MaxInt : Z := 2 ^ 63 - 1.

(** [func NewTree(MinBranch, MaxBranch int) *Rtree]: the memory holding the
    new tree and its root.  [make([]entry, 0, MaxBranch)] panics for a
    capacity that is negative or above the allocation limit. *)
Definition NewTree (MinBranch MaxBranch : Z) : outcome state :=
  if make_panics 32 MaxBranch then Panic
  else Done (mkState [mkNode None true [] 1]
               (mkTree MinBranch MaxBranch (Some 0%nat) 0 1)).

(** *** Deletion *)

(** [func (tree *Rtree) findLeaf(n *rTreeNode, obj Spatial) *rTreeNode] *)
Fixpoint findLeaf (fuel : nat) (n : ptr) (o : Spatial) : M state ptr :=
  match fuel with
  | O => exhausted
  | S fuel' =>
      let* nd := load n in
      if isLeaf nd then ret n
      else
        (fix loop (es : list entry) : M state ptr :=
           match es with
           | [] => ret None
           | e :: tl =>
               if containsRect (bb e) (ToRect o) then
                 let* leaf := findLeaf fuel' (child e) o in
                 match leaf with
                 | None => loop tl
                 | Some _ =>
                     let* lf := load leaf in
                     if existsb (fun leafEntry => obj_is (obj leafEntry) o) (entries lf)
                     then ret leaf
                     else loop tl
                 end
               else loop tl
           end) (entries nd)
  end.

(** The first loop of [condenseTree], [for n != tree.Root]; it returns
    [deletedNodes]. *)
Fixpoint condenseTree_walk (fuel : nat) (n : ptr) (deletedNodes : list ptr)
    : M state (list ptr) :=
  let* t := getTree in
  if negb (ptr_eqb n (Root t)) then
    match fuel with
    | O => exhausted
    | S fuel' =>
        let* nd := load n in
        let* deletedNodes' :=
          (if len (entries nd) <? MinBranch t then
             let* pn := load (parent nd) in
             let es := List.filter (fun e => negb (ptr_eqb (child e) n)) (entries pn) in
             if len (entries pn) =? len es then panic
             else
               set_entries (parent nd) es ;;
               ret (if len (entries nd) >? 0 then deletedNodes ++ [n] else deletedNodes)
           else
             let* (p, i) := getEntry n in
             let* b := computeBoundingBox n in
             set_entry_bb p i b ;;
             ret deletedNodes) in
        let* nd' := load n in
        condenseTree_walk fuel' (parent nd') deletedNodes'
    end
  else ret deletedNodes.

(** The second loop of [condenseTree]: every deleted node goes back into
    the tree as an entry, at [n.level+1]. *)
Fixpoint condenseTree_reinsert (fuel : nat) (deletedNodes : list ptr) : M state unit :=
  match deletedNodes with
  | [] => ret tt
  | n :: tl =>
      let* b := computeBoundingBox n in
      let* nd := load n in
      insert fuel (mkEntry b n None) (level nd + 1) ;;
      condenseTree_reinsert fuel tl
  end.

(** [func (tree *Rtree) condenseTree(n *rTreeNode)] *)
Definition condenseTree (fuel : nat) (n : ptr) : M state unit :=
  let* deletedNodes := condenseTree_walk fuel n [] in
  condenseTree_reinsert fuel deletedNodes.

(** The loop of [Delete] that looks for [obj] in the leaf: [idx] ends as
    the last index whose object is [obj], or stays [-1]. *)
Fixpoint lastIndexOf (es : list entry) (o : Spatial) (i : Z) (idx : Z) : Z :=
  match es with
  | [] => idx
  | e :: tl => lastIndexOf tl o (i + 1) (if obj_is (obj e) o then i else idx)
  end.

(** [func (tree *Rtree) Delete(obj Spatial) bool] *)
Definition Delete (fuel : nat) (o : Spatial) : M state bool :=
  let* t := getTree in
  let* n := findLeaf fuel (Root t) o in
  match n with
  | None => ret false
  | Some _ =>
      let* nd := load n in
      let idx := lastIndexOf (entries nd) o 0 (-1) in
      if idx =? -1 then ret false
      else
        set_entries n (delete (Z.to_nat idx) (entries nd)) ;;
        condenseTree fuel n ;;
        let* t1 := getTree in
        setTree (mkTree (MinBranch t1) (MaxBranch t1) (Root t1) (Size t1 - 1) (Height t1)) ;;
        let* t2 := getTree in
        let* rn := load (Root t2) in
        (if negb (isLeaf rn) && (len (entries rn) =? 1) then
           match entries rn !! 0%nat with
           | Some e =>
               setTree (mkTree (MinBranch t2) (MaxBranch t2) (child e) (Size t2) (Height t2))
           | None => panic
           end
         else ret tt) ;;
        ret true
  end.

(** *** Queries *)

(** [func (tree *Rtree) searchIntersect(n, bb, results) []Spatial].  The
    results are interface values; an entry without an object contributes
    the nil interface, [None]. *)
Fixpoint searchIntersect (fuel : nat) (n : ptr) (b : Rect)
    (results : list (option Spatial)) : M state (list (option Spatial)) :=
  match fuel with
  | O => exhausted
  | S fuel' =>
      let* nd := load n in
      (fix loop (es : list entry) (results : list (option Spatial))
         : M state (list (option Spatial)) :=
         match es with
         | [] => ret results
         | e :: tl =>
             if intersect (bb e) b then
               if isLeaf nd then loop tl (results ++ [obj e])
               else
                 let* results' := searchIntersect fuel' (child e) b results in
                 loop tl results'
             else loop tl results
         end) (entries nd) results
  end.

(** [func (tree *Rtree) SearchIntersect(bb *Rect) []Spatial] *)
Definition SearchIntersect (fuel : nat) (b : Rect) : M state (list (option Spatial)) :=
  let* t := getTree in
  searchIntersect fuel (Root t) b [].

(** [type distRTreeNode struct { rEntry entry; dist float64 }] *)
Record distRTreeNode := mkDist {
  rEntry : entry;
  dist : Q
}.

(** [func (q priorityRQueue) Less(i, j int) bool] on the two items. *)
Definition Less (a b : distRTreeNode) : bool := ltb (dist a) (dist b).

Section KNN.
Context {H : heap.Impl Less}.

(** [for _, e := range es { heap.Push(&Q, &distRTreeNode{e, point.SquaredDist(e.bb)}) }] *)
Definition pushEntries (point : Spatial) (es : list entry)
    (Q : list distRTreeNode) : list distRTreeNode :=
  fold_left (fun Q e => heap.Push Q (mkDist e (SquaredDist point (bb e)))) es Q.

(** The main loop of [KNN]. *)
Fixpoint KNN_loop (fuel : nat) (k : Z) (point : Spatial)
    (Q : list distRTreeNode) (nearestNeighbours : list Spatial)
    : M state (list Spatial) :=
  if (len Q >? 0) && (len nearestNeighbours <? k) then
    match fuel with
    | O => exhausted
    | S fuel' =>
        match heap.Pop Q with
        | None => panic
        | Some (mid, Q') =>
            match obj (rEntry mid) with
            | Some o => KNN_loop fuel' k point Q' (nearestNeighbours ++ [o])
            | None =>
                let* c := load (child (rEntry mid)) in
                KNN_loop fuel' k point (pushEntries point (entries c) Q')
                  nearestNeighbours
            end
        end
    end
  else ret nearestNeighbours.

(** [func (tree *Rtree) KNN(k int, point Spatial) []Spatial].
    [make([]Spatial, 0, k)] panics for a negative [k] and for a [k] above
    the allocation limit, that is above [2^44]. *)
Definition KNN (fuel : nat) (k : Z) (point : Spatial) : M state (list Spatial) :=
  if make_panics 16 k then panic
  else
    let* t := getTree in
    let* r := load (Root t) in
    KNN_loop fuel k point (pushEntries point (entries r) []) [].
End KNN.

(** *** Runs of the public operations *)

(** One call of [Insert] or [Delete]. *)
Inductive op :=
  | OpInsert (o : Spatial)
  | OpDelete (o : Spatial).

Definition run_op (fuel : nat) (c : op) : M state unit :=
  match c with
  | OpInsert o => Insert fuel o
  | OpDelete o => let* _ := Delete fuel o in ret tt
  end.

Fixpoint run_ops (fuel : nat) (cs : list op) : M state unit :=
  match cs with
  | [] => ret tt
  | c :: tl => run_op fuel c ;; run_ops fuel tl
  end.

(** The memory after [NewTree(MinBranch, MaxBranch)] and the calls [cs]. *)
Definition build (fuel : nat) (MinBranch MaxBranch : Z) (cs : list op)
    : outcome state :=
  obind (NewTree MinBranch MaxBranch)
        (fun s => obind (run_ops fuel cs s) (fun r => Done (snd r))).

(** The node at an address of a memory. *)
Definition node_at (s : state) (p : ptr) : option rTreeNode :=
  match p with Some a => heap s !! a | None => None end.

(** A [*RTreePoint] with integer coordinates at address [a]. *)
Definition pt (a : nat) (x y : Z) : Spatial :=
  pointObj a (mkPoint (inject_Z x) (inject_Z y)).

(** A rectangle object: a [Spatial] whose [ToRect] is [NewRect(u, v)].  Its
    distance to a rectangle is not used by [Insert] and [Delete]. *)
Definition rectObj (a : nat) (u v : RTreePoint) : Spatial :=
  mkSpatial a (NewRect u v) (fun _ => 0%Q).

(** [waste] of a pair of entries, as [pickSeeds] computes it. *)
Definition waste (e1 e2 : entry) : Q :=
  (size (initBoundingBox (bb e1) (bb e2)) - size (bb e1) - size (bb e2))%Q.

(** A node is well formed down to depth [d]: a leaf holds objects only;
    an internal node holds children only, each well formed and each with
    a rectangle that covers the rectangles of the child's entries. *)
Fixpoint wf_node (d : nat) (s : state) (n : rTreeNode) : Prop :=
  if isLeaf n then Forall (fun e => is_Some (obj e)) (entries n)
  else
    match d with
    | O => False
    | S d' =>
        Forall (fun e => exists c, node_at s (child e) = Some c /\
                                   wf_node d' s c /\
                                   Forall (fun e' => covers (bb e) (bb e')) (entries c))
               (entries n)
    end.

(** The leaf entries at and below a node, from left to right. *)
Fixpoint leaf_entries (d : nat) (s : state) (n : rTreeNode) : list entry :=
  if isLeaf n then entries n
  else
    match d with
    | O => []
    | S d' =>
        entries n ≫= (fun e => match node_at s (child e) with
                               | Some c => leaf_entries d' s c
                               | None => []
                               end)
    end.

(** The objects of the entries whose rectangle intersects [b]. *)
Definition hits (b : Rect) (es : list entry) : list (option Spatial) :=
  map obj (List.filter (fun e => intersect (bb e) b) es).

(** The pairs [pickSeeds] looks at, in the order it looks at them, each
    with its waste: for the entry [e1] at index [i], the entries after it;
    then the same for the next index. *)
Fixpoint pairs_with (e1 : entry) (i j : nat) (rest : list entry)
    : list (Q * (nat * nat)) :=
  match rest with
  | [] => []
  | e2 :: tl => (waste e1 e2, (i, (i + 1 + j)%nat)) :: pairs_with e1 i (S j) tl
  end.

Fixpoint pairs_from (i : nat) (es : list entry) : list (Q * (nat * nat)) :=
  match es with
  | [] => []
  | e1 :: tl => pairs_with e1 i 0 tl ++ pairs_from (S i) tl
  end.

(** One comparison of [pickSeeds]: a pair replaces the best pair so far
    when its waste is greater. *)
Definition better (acc p : Q * (nat * nat)) : Q * (nat * nat) :=
  if gtb (fst p) (fst acc) then p else acc.

(** The addresses of the objects of a result list; [None] is a nil
    interface value. *)
Definition addrs (l : list (option Spatial)) : list (option nat) :=
  map (option_map addr) l.

(** What a node looks like from outside: its flag, its level, its parent
    and, per entry, the child and the address of the object. *)
Definition shape (n : rTreeNode) : bool * Z * ptr * list (ptr * option nat) :=
  (isLeaf n, level n, parent n,
   map (fun e => (child e, option_map addr (obj e))) (entries n)).

(** A memory from outside: the [Rtree] struct and the shape of every node,
    by address. *)
Definition view (s : state) :=
  (tree s, map shape (heap s)).

(** The five points of scenario S1. *)
Definition S1 : list op :=
  map OpInsert [pt 1 0 0; pt 2 10 10; pt 3 5 5; pt 4 7 3; pt 5 2 8].

(** Two clusters of points, far apart: two points near the origin and
    three near (100, 100); then two more near the origin. *)
Definition a1 := pt 1 0 0.
Definition b1 := pt 2 100 100.
Definition a2 := pt 3 1 2.
Definition b2 := pt 4 101 103.
Definition b3 := pt 5 104 101.
Definition c1 := pt 6 0 1.
Definition c2 := pt 7 2 0.

Definition clusters : list op := map OpInsert [a1; b1; a2; b2; b3].

(** A rectangle that holds every point above, with room to spare. *)
Definition plane : Rect :=
  NewRect (mkPoint (inject_Z (-1000)) (inject_Z (-1000)))
          (mkPoint (inject_Z 1000) (inject_Z 1000)).

(** Four overlapping rectangle objects: two of 10 by 1 and two of 5 by 1,
    all with the same bottom-left corner. *)
Definition wide1 := rectObj 1 (mkPoint 0 0) (mkPoint (inject_Z 10) (inject_Z 1)).
Definition wide2 := rectObj 2 (mkPoint 0 0) (mkPoint (inject_Z 10) (inject_Z 1)).
Definition short1 := rectObj 3 (mkPoint 0 0) (mkPoint (inject_Z 5) (inject_Z 1)).
Definition short2 := rectObj 4 (mkPoint 0 0) (mkPoint (inject_Z 5) (inject_Z 1)).

Definition leafEntry (o : Spatial) : entry := mkEntry (ToRect o) None (Some o).

(** The insertion-ordered queue as the heap of [KNN]. *)
Definition naiveQueue : heap.Impl Less := heap.naive dist.

(** A tree of height 2 over the five clustered points: the leaf at address
    0 holds a1 and a2, the leaf at address 1 holds b1, b2 and b3, and the
    root at address 2 holds one entry per leaf. *)
Definition leafA : rTreeNode :=
  mkNode (Some 2%nat) true [leafEntry a1; leafEntry a2] 1.
Definition leafB : rTreeNode :=
  mkNode (Some 2%nat) true [leafEntry b1; leafEntry b2; leafEntry b3] 1.
Definition rootAB : rTreeNode :=
  mkNode None false
    [ mkEntry (boundingBoxOf (entries leafA)) (Some 0%nat) None;
      mkEntry (boundingBoxOf (entries leafB)) (Some 1%nat) None ] 2.
Definition twoLeaves : state :=
  mkState [leafA; leafB; rootAB] (mkTree 2 4 (Some 2%nat) 5 2).

(** The memory after [NewTree(2, 4)]. *)
Definition fresh : state :=
  mkState [mkNode None true [] 1] (mkTree 2 4 (Some 0%nat) 0 1).

(** The memory after [NewTree(2, 4)] and [Insert(a1)]. *)
Definition single : state :=
  mkState [mkNode None true [leafEntry a1] 1] (mkTree 2 4 (Some 0%nat) 1 1).

(** *** Definitions for the statements about the tree *)

(** The calls of the run that breaks [SearchIntersect]. *)
Definition lost_object_run : list op :=
  clusters ++ [OpDelete a2; OpDelete a1; OpInsert c1; OpInsert c2; OpDelete c2].

(** Code that ends in the memory it started in. *)
Definition readonly {A} (m : M state A) : Prop :=
  forall s a s', m s = Done (a, s') -> s' = s.

(** An entry is well formed down to depth [d]: a leaf entry carries the
    bounding rectangle of its object; the rectangle of an internal entry
    covers the rectangle of every entry of its child, and these entries are
    well formed.  The flag [isLeaf] and the fields [level] and [parent]
    play no part: [KNN] does not read them. *)
Fixpoint wf_entry (d : nat) (s : state) (e : entry) : Prop :=
  match obj e with
  | Some o => bb e = ToRect o
  | None =>
      match d with
      | O => False
      | S d' =>
          match node_at s (child e) with
          | None => False
          | Some c =>
              Forall (fun e' => covers (bb e) (bb e') /\ wf_entry d' s e') (entries c)
          end
      end
  end.

(** The objects stored below an entry. *)
Fixpoint objects (d : nat) (s : state) (e : entry) : list Spatial :=
  match obj e with
  | Some o => [o]
  | None =>
      match d with
      | O => []
      | S d' =>
          match node_at s (child e) with
          | None => []
          | Some c => entries c ≫= objects d' s
          end
      end
  end.

(** The number of entries at and below an entry: the pops it costs [KNN]. *)
Fixpoint weight (d : nat) (s : state) (e : entry) : nat :=
  match obj e with
  | Some o => 1
  | None =>
      match d with
      | O => 1
      | S d' =>
          match node_at s (child e) with
          | None => 1
          | Some c => S (sum_list_with (weight d' s) (entries c))
          end
      end
  end.

(** The squared distance from the query object to the bounding rectangle
    of an object. *)
Definition dist_to (q o : Spatial) : Q := SquaredDist q (ToRect o).

(** The distance of a query object to a rectangle is a lower bound of its
    distance to any rectangle inside. *)
Definition lower_bound (q : Spatial) : Prop :=
  forall r1 r2, covers r1 r2 -> (SquaredDist q r1 <= SquaredDist q r2)%Q.

(** The item [KNN] pushes for an entry. *)
Definition item (q : Spatial) (e : entry) : distRTreeNode :=
  mkDist e (SquaredDist q (bb e)).

(** What the loop of [KNN] keeps true of a queued item: its key is the
    distance to the rectangle of its entry, and the entry is well formed. *)
Definition item_ok (s : state) (q : Spatial) (D : nat) (x : distRTreeNode) : Prop :=
  dist x = SquaredDist q (bb (rEntry x)) /\ wf_entry D s (rEntry x).

(** The objects below the queued items, and what the items cost to pop. *)
Definition qobjects (s : state) (D : nat) (Q : list distRTreeNode) : list Spatial :=
  Q ≫= (fun x => objects D s (rEntry x)).

Definition qweight (s : state) (D : nat) (Q : list distRTreeNode) : nat :=
  sum_list_with (fun x => weight D s (rEntry x)) Q.

(** [o] is at most as far from the query object as [o']. *)
Definition closer (q o o' : Spatial) : Prop := (dist_to q o <= dist_to q o')%Q.

(** The fields of the [Rtree] struct that only [NewTree], [Insert] and
    [Delete] themselves set. *)
Definition counts (t : Rtree) : Z * Z * Z := (MinBranch t, MaxBranch t, Size t).

(** Code that ends with the counts [c] whenever it starts with them. *)
Definition keeps (c : Z * Z * Z) {A} (m : M state A) : Prop :=
  forall s a s', counts (tree s) = c -> m s = Done (a, s') -> counts (tree s') = c.

(** The pair of indices kept by the loops of [pickSeeds] is in order and
    below [n]. *)
Definition seeds_ok (n : nat) (acc : Q * (nat * nat)) : Prop :=
  (fst (snd acc) < snd (snd acc) < n)%nat.

(** The child of [e] is nil or an allocated node, below address [N], other
    than the nodes [a] and [b]. *)
Definition child_ok (N a b : nat) (e : entry) : Prop :=
  match child e with
  | Some c => (c < N)%nat /\ c <> a /\ c <> b
  | None => True
  end.

(** What [assignGroup] makes of the memory [s] with the entries [L] in the
    node [a], [R] in the node [b] and [rem] to hand out: [a] holds [L] and
    then [L1], [b] holds [R] and then [R1], where [L1] and [R1] together are
    the entries of [rem]; both hold [minB] entries or more if the numbers
    allow it; no node is allocated and only [a], [b] and the children of
    [rem] are written. *)
Definition handed_out (N : nat) (t : Rtree) (a b : nat) (p : ptr) (lf : bool)
    (lvl minB : Z) (s : state) (L R rem L1 R1 : list entry) (s' : state) : Prop :=
  length (heap s') = N /\ tree s' = t /\
  heap s' !! a = Some (mkNode p lf (L ++ L1) lvl) /\
  heap s' !! b = Some (mkNode p lf (R ++ R1) lvl) /\
  L1 ++ R1 ≡ₚ rem /\
  (forall x, x <> a -> x <> b -> Forall (fun e => child e <> Some x) rem ->
             heap s' !! x = heap s !! x) /\
  (minB <= len L + len rem -> minB <= len R + len rem ->
   2 * minB <= len L + len R + len rem ->
   minB <= len (L ++ L1) /\ minB <= len (R ++ R1)).

(** *** Rectangle algebra: facts *)

Local Open Scope Q_scope.

(** What [containsRect] tests: three of the four inequalities. *)
Lemma containsRect_true_iff r1 r2 :
  containsRect r1 r2 = true <->
  X (bottomLeft r1) <= X (bottomLeft r2) /\
  Y (bottomLeft r1) <= Y (bottomLeft r2) /\
  Y (topRight r1) >= Y (topRight r2).
Proof.
  unfold containsRect, gtb.
  destruct (ltb (Y (bottomLeft r2)) (Y (bottomLeft r1))) eqn:E1;
  destruct (ltb (X (bottomLeft r2)) (X (bottomLeft r1))) eqn:E2;
  destruct (ltb (Y (topRight r1)) (Y (topRight r2))) eqn:E3;
  destruct (ltb (X (topRight r1)) (X (topRight r1))) eqn:E4; simpl;
  try apply ltb_lt in E1; try apply ltb_ge in E1;
  try apply ltb_lt in E2; try apply ltb_ge in E2;
  try apply ltb_lt in E3; try apply ltb_ge in E3;
  try apply ltb_lt in E4; try apply ltb_ge in E4;
  split; try discriminate; try (intros (?&?&?); lra); try lra; auto.
Qed.

(** C4 (code defect): on outer = [0,1]x[0,1] and inner = [0,2]x[0,1],
    [containsRect] answers true although outer.xmax < inner.xmax, so the
    four-inequality characterisation does not hold of the code. *)
Theorem containsRect_ignores_xmax :
  containsRect (NewRect (mkPoint 0 0) (mkPoint 1 1))
               (NewRect (mkPoint 0 0) (mkPoint 2 1)) = true /\
  ~ covers (NewRect (mkPoint 0 0) (mkPoint 1 1))
           (NewRect (mkPoint 0 0) (mkPoint 2 1)).
Proof.
  split; [reflexivity|].
  unfold covers; simpl. intros (_ & _ & H & _).
  vm_compute in H. apply H. reflexivity.
Qed.

Lemma NewRect_size_area u v : size (NewRect u v) == area (NewRect u v).
Proof. unfold NewRect, area; simpl. ring. Qed.

Lemma enlarge_size_area r1 r2 : size (enlarge r1 r2) == area (enlarge r1 r2).
Proof. unfold enlarge, area; simpl. ring. Qed.

Lemma boundingBox_size_area r1 r2 : size (boundingBox r1 r2) == area (boundingBox r1 r2).
Proof. apply enlarge_size_area. Qed.

Lemma ToRect_size n : size (RTreePoint_ToRect n) == 4 # 10000000000.
Proof. reflexivity. Qed.

Lemma ToRect_area n : area (RTreePoint_ToRect n) == 16 # 10000000000.
Proof. unfold RTreePoint_ToRect, area; simpl. ring. Qed.

(** C7 (code defect): the rectangle [ToRect] makes of any point has the
    cached size 4e-10, the square of the half-width, while its corners span
    an area of 1.6e-9; [NewRect], [enlarge] and [boundingBox] do cache the
    area of the corners ([NewRect_size_area], [enlarge_size_area],
    [boundingBox_size_area]). *)
Theorem ToRect_size_is_not_area n :
  ~ size (RTreePoint_ToRect n) == area (RTreePoint_ToRect n).
Proof.
  rewrite ToRect_size, ToRect_area. intros H. vm_compute in H. discriminate.
Qed.

(** [pickSeeds] is a left fold of [better] over the pairs. *)
Lemma pickSeeds_inner_fold e1 i : forall rest j acc,
  pickSeeds_inner e1 i j rest acc = fold_left better (pairs_with e1 i j rest) acc.
Proof.
  induction rest as [|e2 tl IH]; intros j acc; [reflexivity|].
  simpl. rewrite IH. reflexivity.
Qed.

Lemma pickSeeds_outer_fold : forall es i acc,
  pickSeeds_outer i es acc = fold_left better (pairs_from i es) acc.
Proof.
  induction es as [|e1 tl IH]; intros i acc; [reflexivity|].
  simpl. rewrite fold_left_app, IH, pickSeeds_inner_fold. reflexivity.
Qed.

(** The pairs are the pairs of indices [i < j] with the waste of their
    entries. *)
Lemma pairs_with_spec e1 i w a b : forall rest j,
  (w, (a, b)) ∈ pairs_with e1 i j rest <->
  a = i /\ exists k e2, rest !! k = Some e2 /\ b = (i + 1 + j + k)%nat /\ w = waste e1 e2.
Proof.
  induction rest as [|e2 tl IH]; intros j; simpl.
  - split; [intros Hin; inversion Hin | intros (_ & k & e & Hk & _); discriminate Hk].
  - rewrite elem_of_cons, IH. split.
    + intros [[= -> -> ->]|(-> & k & e & Hk & -> & ->)].
      * split; [reflexivity|]. exists 0%nat, e2. split; [reflexivity|]. split; [lia|reflexivity].
      * split; [reflexivity|]. exists (S k), e. split; [exact Hk|]. split; [lia|reflexivity].
    + intros (-> & [|k] & e & Hk & -> & ->).
      * left. simpl in Hk. injection Hk as <-. do 2 f_equal. lia.
      * right. split; [reflexivity|]. exists k, e. split; [exact Hk|]. split; [lia|reflexivity].
Qed.

Lemma pairs_from_spec w a b : forall es i,
  (w, (a, b)) ∈ pairs_from i es <->
  exists k l ea eb, (k < l)%nat /\ es !! k = Some ea /\ es !! l = Some eb /\
                    a = (i + k)%nat /\ b = (i + l)%nat /\ w = waste ea eb.
Proof.
  induction es as [|e1 tl IH]; intros i; simpl.
  - split; [intros Hin; inversion Hin | intros (k & l & ? & ? & _ & Hk & _); discriminate Hk].
  - rewrite elem_of_app, pairs_with_spec, IH. split.
    + intros [(-> & k & e2 & Hk & -> & ->)|(k & l & ea & eb & Hlt & Hk & Hl & -> & -> & ->)].
      * exists 0%nat, (S k), e1, e2. repeat split; auto; lia.
      * exists (S k), (S l), ea, eb. repeat split; auto; lia.
    + intros ([|k] & l & ea & eb & Hlt & Hk & Hl & -> & -> & ->).
      * left. simpl in Hk. injection Hk as <-. destruct l as [|l]; [lia|].
        split; [lia|]. exists l, eb. repeat split; auto; lia.
      * right. destruct l as [|l]; [lia|].
        exists k, l, ea, eb. repeat split; auto; lia.
Qed.

Lemma better_gt acc p : fst acc < fst p -> better acc p = p.
Proof.
  intros E. unfold better, gtb. apply ltb_lt in E. rewrite E. reflexivity.
Qed.

Lemma better_le acc p : fst p <= fst acc -> better acc p = acc.
Proof.
  intros E. unfold better, gtb. apply ltb_ge in E. rewrite E. reflexivity.
Qed.

(** A left fold of [better] ends on its start value, when no item is
    greater, or else on the first of the greatest items. *)
Lemma fold_better_first_greatest : forall l acc,
  (fold_left better l acc = acc /\ Forall (fun p => fst p <= fst acc) l) \/
  (exists l1 l2, l = l1 ++ fold_left better l acc :: l2 /\
                 fst acc < fst (fold_left better l acc) /\
                 Forall (fun p => fst p < fst (fold_left better l acc)) l1 /\
                 Forall (fun p => fst p <= fst (fold_left better l acc)) l2).
Proof.
  induction l as [|p l IH]; intros acc; simpl.
  - left. split; [reflexivity | constructor].
  - destruct (Qlt_le_dec (fst acc) (fst p)) as [E|E].
    + rewrite (better_gt acc p E). right.
      destruct (IH p) as [[Hr Hall]|(l1 & l2 & Hl & Hlt & H1 & H2)].
      * exists [], l. rewrite Hr. simpl. split; [reflexivity|].
        split; [exact E|]. split; [constructor | exact Hall].
      * exists (p :: l1), l2. split; [rewrite Hl at 1; reflexivity|].
        split; [lra|]. split; [constructor; assumption | exact H2].
    + rewrite (better_le acc p E).
      destruct (IH acc) as [[Hr Hall]|(l1 & l2 & Hl & Hlt & H1 & H2)].
      * left. split; [exact Hr | constructor; assumption].
      * right. exists (p :: l1), l2. split; [rewrite Hl at 1; reflexivity|].
        split; [exact Hlt|]. split; [constructor; [lra | assumption] | exact H2].
Qed.

(** Where [pickSeeds] is right: as soon as some pair of entries wastes
    more than -1, it returns the first pair of greatest waste in the
    enumeration by [i < j]. *)
Lemma pickSeeds_first_greatest es :
  Exists (fun p => - (1) < fst p) (pairs_from 0 es) ->
  exists w l1 l2,
    pairs_from 0 es = l1 ++ (w, pickSeeds es) :: l2 /\
    Forall (fun p => fst p < w) l1 /\
    Forall (fun p => fst p <= w) l2.
Proof.
  intros Hex. unfold pickSeeds. rewrite pickSeeds_outer_fold.
  destruct (fold_better_first_greatest (pairs_from 0 es) (- (1), (0%nat, 1%nat)))
    as [[_ Hall]|(l1 & l2 & Hl & _ & H1 & H2)].
  - exfalso. apply Exists_exists in Hex as (p & Hp & Hlt).
    rewrite Forall_forall in Hall. specialize (Hall p Hp). simpl in Hall. lra.
  - destruct (fold_left better _ _) as [w ij]. exists w, l1, l2. auto.
Qed.

(** C6 (code defect): on a node holding two 10-by-1 and two 5-by-1
    rectangles with a common corner every pair wastes at most -5, below the
    initial [maxWastedSpace] of -1, so [pickSeeds] returns its initial pair
    (0, 1), whose waste -10 is less than the waste -5 of the pair (0, 2).
    The node is the root leaf of [NewTree(2, 3)] when the fourth of these
    rectangles is inserted: the split seeds its two leaves (addresses 0
    and 1) with the two 10-by-1 rectangles (objects 1 and 2). *)
Theorem pickSeeds_keeps_initial_pair :
  pickSeeds (map leafEntry [wide1; wide2; short1; short2]) = (0%nat, 1%nat) /\
  waste (leafEntry wide1) (leafEntry wide2) < waste (leafEntry wide1) (leafEntry short1) /\
  observe view (build 10 2 3 (map OpInsert [wide1; wide2; short1; short2]))
  = Done (mkTree 2 3 (Some 2%nat) 4 2,
          [ (true, 1%Z, Some 2%nat, [(None, Some 1%nat); (None, Some 4%nat)]);
            (true, 1%Z, Some 2%nat, [(None, Some 2%nat); (None, Some 3%nat)]);
            (false, 2%Z, None, [(Some 0%nat, None); (Some 1%nat, None)]) ]).
Proof. split; [reflexivity|]. split; [reflexivity|]. vm_compute. reflexivity. Qed.

Local Close Scope Q_scope.

(** *** Scenarios *)

(** C8, as stated, fails: after the five inserts of S1 the height is not 1. *)
Lemma S1_height_is_not_1 :
  observe (fun s => (Size (tree s), Height (tree s))) (build 10 2 4 S1)
  <> Done (5, 1).
Proof. vm_compute. discriminate. Qed.

(** C8 (amended): from [NewTree(2, 4)], inserting the five points of S1
    gives Size = 5 and Height = 2: the fifth entry overflows the root leaf,
    which is split under a new root. *)
Theorem S1_size_5_height_2 :
  observe (fun s => (Size (tree s), Height (tree s))) (build 10 2 4 S1)
  = Done (5, 2).
Proof. vm_compute. reflexivity. Qed.

(** C3 (code defect): [NewTree(2, 4)], the five clustered points, then
    [Delete(a2)].  The leaf at address 0 held a1 and a2; with one entry left
    it is taken out of the root by [condenseTree] and put back whole, so
    the tree ends with a non-root node of one entry, below MinBranch = 2:
    the root, at address 2, has the leaves 1 and 0 as children, and leaf 0
    holds a1 only. *)
Theorem Delete_reinserts_underfull_node :
  observe view (build 10 2 4 (clusters ++ [OpDelete a2]))
  = Done (mkTree 2 4 (Some 2%nat) 4 2,
          [ (true, 1, Some 2%nat, [(None, Some 1%nat)]);
            (true, 1, Some 2%nat,
             [(None, Some 5%nat); (None, Some 4%nat); (None, Some 2%nat)]);
            (false, 2, None, [(Some 1%nat, None); (Some 0%nat, None)]) ]).
Proof. vm_compute. reflexivity. Qed.

(** C5 (code defect): continuing with [Delete(a1)], the leaf at address 0
    becomes empty and leaves the root (address 2, internal) with the single
    child at address 1.  [Delete] returns true and makes that child the
    root, but Height stays 2 and the new root keeps the old root as its
    parent. *)
Theorem Delete_promotes_child_keeps_height :
  observe (fun s => (Root (tree s), Height (tree s)))
    (build 10 2 4 (clusters ++ [OpDelete a2]))
  = Done (Some 2%nat, 2) /\
  observe (fun r => (fst r, view (snd r)))
    (obind (build 10 2 4 (clusters ++ [OpDelete a2])) (Delete 10 a1))
  = Done (true,
          (mkTree 2 4 (Some 1%nat) 3 2,
           [ (true, 1, Some 2%nat, []);
             (true, 1, Some 2%nat,
              [(None, Some 5%nat); (None, Some 4%nat); (None, Some 2%nat)]);
             (false, 2, None, [(Some 1%nat, None)]) ])).
Proof. split; vm_compute; reflexivity. Qed.

(** C1 (code defect): after [lost_object_run] the objects b1, b2, b3 and c1
    (addresses 2, 4, 5, 6) are stored, Size is 4, and all of them intersect
    [plane], yet [SearchIntersect(plane)] returns b3, b2, b1 and a nil
    object, without c1.  The root promoted by [Delete(a1)] left Height at
    2, so the next root (address 4) got level 3 over leaves of level 1, and
    the leaf (address 3) orphaned by [Delete(c2)], reinserted at level 2,
    ended as an entry of the leaf at address 1, which is the root now. *)
Theorem SearchIntersect_loses_object :
  observe (fun r => (addrs (fst r), view (snd r)))
    (obind (build 10 2 4 lost_object_run) (SearchIntersect 10 plane))
  = Done ([Some 5%nat; Some 4%nat; Some 2%nat; None],
          (mkTree 2 4 (Some 1%nat) 4 3,
           [ (true, 1, Some 2%nat, []);
             (true, 1, Some 4%nat,
              [(None, Some 5%nat); (None, Some 4%nat); (None, Some 2%nat);
               (Some 3%nat, None)]);
             (false, 2, None, [(Some 1%nat, None)]);
             (true, 1, Some 1%nat, [(None, Some 6%nat)]);
             (false, 3, None, [(Some 1%nat, None)]) ]))
  /\ intersect (ToRect c1) plane = true.
Proof. split; vm_compute; reflexivity. Qed.

(** *** SearchIntersect on a well-formed tree *)

Lemma covers_trans r1 r2 r3 : covers r1 r2 -> covers r2 r3 -> covers r1 r3.
Proof. unfold covers. intros (?&?&?&?) (?&?&?&?). repeat split; lra. Qed.

Lemma intersect_true_iff r1 r2 :
  intersect r1 r2 = true <->
  (X (bottomLeft r1) <= X (topRight r2) /\ X (bottomLeft r2) <= X (topRight r1) /\
   Y (bottomLeft r1) <= Y (topRight r2) /\ Y (bottomLeft r2) <= Y (topRight r1))%Q.
Proof.
  unfold intersect.
  destruct (ltb (X (topRight r2)) (X (bottomLeft r1))) eqn:E1;
  destruct (ltb (X (topRight r1)) (X (bottomLeft r2))) eqn:E2;
  destruct (ltb (Y (topRight r2)) (Y (bottomLeft r1))) eqn:E3;
  destruct (ltb (Y (topRight r1)) (Y (bottomLeft r2))) eqn:E4; simpl;
  try apply ltb_lt in E1; try apply ltb_ge in E1;
  try apply ltb_lt in E2; try apply ltb_ge in E2;
  try apply ltb_lt in E3; try apply ltb_ge in E3;
  try apply ltb_lt in E4; try apply ltb_ge in E4;
  split; try discriminate; try (intros (?&?&?&?); lra); auto.
Qed.

(** A rectangle that misses [b] covers no rectangle that meets [b]. *)
Lemma intersect_covers outer inner b :
  covers outer inner -> intersect outer b = false -> intersect inner b = false.
Proof.
  intros (?&?&?&?) Ho. destruct (intersect inner b) eqn:Hi; [|reflexivity].
  apply intersect_true_iff in Hi. destruct Hi as (?&?&?&?).
  assert (Ht : intersect outer b = true) by (apply intersect_true_iff; repeat split; lra).
  congruence.
Qed.

Lemma leaf_entries_covered s B : forall d n,
  wf_node d s n -> Forall (fun e => covers B (bb e)) (entries n) ->
  Forall (fun e => covers B (bb e)) (leaf_entries d s n).
Proof.
  induction d as [|d IH]; intros n Hwf Hcov; simpl in *.
  - destruct (isLeaf n); [exact Hcov | destruct Hwf].
  - destruct (isLeaf n); [exact Hcov|].
    revert Hwf Hcov. induction (entries n) as [|e es IHes]; intros Hwf Hcov.
    + constructor.
    + apply Forall_cons in Hwf as [(c & Hc & Hwc & Hcc) Hwf].
      apply Forall_cons in Hcov as [He Hcov].
      rewrite bind_cons. apply Forall_app. split; [|apply IHes; assumption].
      rewrite Hc. apply IH; [exact Hwc|].
      eapply Forall_impl; [exact Hcc|]. intros e' He'. simpl in He'.
      eapply covers_trans; eassumption.
Qed.

Lemma hits_app b es1 es2 : hits b (es1 ++ es2) = hits b es1 ++ hits b es2.
Proof. unfold hits. rewrite List.filter_app, List.map_app. reflexivity. Qed.

Lemma hits_missed b es :
  Forall (fun e => intersect (bb e) b = false) es -> hits b es = [].
Proof.
  unfold hits. induction 1 as [|e es He _ IH]; [reflexivity|].
  simpl. rewrite He. exact IH.
Qed.

(** On a well-formed subtree [searchIntersect] appends to [results] the
    objects of exactly the leaf entries whose rectangle intersects [b],
    each once, from left to right, and leaves the memory as it is. *)
Lemma searchIntersect_wf s b : forall d fuel p n results,
  node_at s p = Some n -> wf_node d s n -> (d < fuel)%nat ->
  searchIntersect fuel p b results s
  = Done (results ++ hits b (leaf_entries d s n), s).
Proof.
  induction d as [|d IH]; intros fuel p n results Hp Hwf Hfuel.
  all: destruct fuel as [|fuel]; [lia|]; cbn [searchIntersect].
  all: assert (Hload : load p s = Done (n, s))
         by (unfold load, node_at in *; destruct p; [rewrite Hp; reflexivity | discriminate]).
  all: unfold bind at 1; rewrite Hload; cbn [wf_node leaf_entries] in *.
  all: destruct (isLeaf n) eqn:Hleaf.
  all: try (destruct Hwf; fail).
  all: try (
    (* a leaf, at any depth *)
    clear Hwf; generalize (entries n) as es; intros es; revert results;
    induction es as [|e es IHes]; intros results;
    [ unfold hits; simpl; rewrite app_nil_r; reflexivity
    | change (e :: es) with ([e] ++ es); rewrite hits_app, app_assoc, <- IHes;
      unfold hits; simpl; destruct (intersect (bb e) b); simpl;
      [reflexivity | rewrite app_nil_r; reflexivity] ]).
  (* an internal node *)
  revert results Hwf. induction (entries n) as [|e es IHes]; intros results Hwf.
  - unfold hits. simpl. rewrite app_nil_r. reflexivity.
  - apply Forall_cons in Hwf as [(c & Hc & Hwc & Hcc) Hwf].
    rewrite bind_cons, hits_app, app_assoc, Hc.
    destruct (intersect (bb e) b) eqn:Hi.
    + unfold bind at 1. rewrite (IH fuel (child e) c results Hc Hwc) by lia.
      apply IHes. exact Hwf.
    + rewrite (hits_missed b (leaf_entries d s c)), app_nil_r; [apply IHes; exact Hwf|].
      eapply Forall_impl; [apply (leaf_entries_covered s (bb e)); eassumption|].
      intros e' He'. simpl in He'. eapply intersect_covers; eassumption.
Qed.

(** X20: on a well-formed tree [SearchIntersect] returns the objects of
    exactly the stored entries whose rectangle intersects the query
    rectangle, from left to right, and leaves the memory as it was. *)
Lemma SearchIntersect_on_wf_tree s b d fuel r :
  node_at s (Root (tree s)) = Some r -> wf_node d s r -> (d < fuel)%nat ->
  SearchIntersect fuel b s = Done (hits b (leaf_entries d s r), s).
Proof.
  intros Hr Hwf Hfuel. unfold SearchIntersect, bind, getTree.
  rewrite (searchIntersect_wf s b d fuel (Root (tree s)) r [] Hr Hwf Hfuel).
  reflexivity.
Qed.

(** *** The queries read the tree and write nothing *)

Lemma readonly_ret {A} (a : A) : readonly (ret a).
Proof. intros s a' s' H. injection H as _ <-. reflexivity. Qed.

(** The capacities [make([]Spatial, 0, k)] accepts. *)
Lemma make_panics_16 (k : Z) : make_panics 16 k = false <-> 0 <= k <= 2 ^ 44.
Proof.
  unfold make_panics, maxAlloc.
  change (2 ^ 48) with 281474976710656. change (2 ^ 44) with 17592186044416.
  rewrite orb_false_iff, !Z.ltb_ge. lia.
Qed.

Lemma readonly_panic {A} : readonly (@panic state A).
Proof. intros s a s' H. discriminate. Qed.

Lemma readonly_exhausted {A} : readonly (@exhausted state A).
Proof. intros s a s' H. discriminate. Qed.

Lemma readonly_bind {A B} (m : M state A) (k : A -> M state B) :
  readonly m -> (forall a, readonly (k a)) -> readonly (bind m k).
Proof.
  intros Hm Hk s b s' H. unfold bind in H.
  destruct (m s) as [[a s1]| |] eqn:E; try discriminate.
  apply Hm in E. subst s1. eapply Hk, H.
Qed.

Lemma readonly_load p : readonly (load p).
Proof.
  intros s a s' H. unfold load in H.
  destruct p as [a0|]; [|discriminate].
  destruct (heap s !! a0); [|discriminate].
  injection H as _ <-. reflexivity.
Qed.

Lemma readonly_getTree : readonly getTree.
Proof. intros s a s' H. injection H as _ <-. reflexivity. Qed.

Lemma readonly_searchIntersect fuel : forall n b results,
  readonly (searchIntersect fuel n b results).
Proof.
  induction fuel as [|fuel IH]; intros n b results; simpl.
  - apply readonly_exhausted.
  - apply readonly_bind; [apply readonly_load|]. intros nd.
    generalize (entries nd) as es. intros es. revert results.
    induction es as [|e tl IHes]; intros results.
    + apply readonly_ret.
    + destruct (intersect (bb e) b); [|apply IHes].
      destruct (isLeaf nd); [apply IHes|].
      apply readonly_bind; [apply IH|]. intros r. apply IHes.
Qed.

Lemma readonly_KNN_loop `{H : heap.Impl _ Less} fuel : forall k point Q nn,
  readonly (KNN_loop fuel k point Q nn).
Proof.
  induction fuel as [|fuel IH]; intros k point Q nn; simpl.
  - destruct ((len Q >? 0) && (len nn <? k));
      [apply readonly_exhausted | apply readonly_ret].
  - destruct ((len Q >? 0) && (len nn <? k)); [|apply readonly_ret].
    destruct (heap.Pop Q) as [[mid Q']|]; [|apply readonly_panic].
    destruct (obj (rEntry mid)); [apply IH|].
    apply readonly_bind; [apply readonly_load|]. intros c. apply IH.
Qed.

(** C10: [SearchIntersect] and [KNN] leave the memory of the tree as it
    was: whenever a call returns, the [Rtree] struct (Size, Height, Root,
    MinBranch, MaxBranch) and every node with its entries are the ones the
    call started with.  This holds for every heap implementation. *)
Theorem queries_leave_tree_unchanged `{H : heap.Impl _ Less}
    (fuel : nat) (s : state) :
  (forall b r s', SearchIntersect fuel b s = Done (r, s') -> s' = s) /\
  (forall k point r s', KNN fuel k point s = Done (r, s') -> s' = s).
Proof.
  split.
  - intros b r s' Hr. revert Hr. apply (readonly_bind getTree).
    + apply readonly_getTree.
    + intros t. apply readonly_searchIntersect.
  - intros k point r s' Hr. revert Hr. unfold KNN.
    destruct (make_panics 16 k); [apply readonly_panic|].
    apply (readonly_bind getTree); [apply readonly_getTree|]. intros t.
    apply readonly_bind; [apply readonly_load|]. intros rn.
    apply readonly_KNN_loop.
Qed.

(** The theorem at work on the tree [twoLeaves]: a search of the whole
    plane and the two nearest neighbours of (3, 3). *)
Lemma queries_leave_tree_unchanged_witness :
  exists r1 s1 r2 s2,
    SearchIntersect 3 plane twoLeaves = Done (r1, s1) /\
    KNN (H := naiveQueue) 7 2 (pt 9 3 3) twoLeaves = Done (r2, s2) /\
    s1 = twoLeaves /\ s2 = twoLeaves.
Proof.
  assert (H1 : SearchIntersect 3 plane twoLeaves
               = Done ([Some a1; Some a2; Some b1; Some b2; Some b3], twoLeaves))
    by reflexivity.
  assert (H2 : KNN (H := naiveQueue) 7 2 (pt 9 3 3) twoLeaves
               = Done ([a2; a1], twoLeaves))
    by reflexivity.
  eexists _, _, _, _. split; [exact H1|]. split; [exact H2|].
  destruct (queries_leave_tree_unchanged (H := naiveQueue) 3 twoLeaves) as [Hs _].
  destruct (queries_leave_tree_unchanged (H := naiveQueue) 7 twoLeaves) as [_ Hk].
  split; [exact (Hs _ _ _ H1) | exact (Hk _ _ _ _ H2)].
Defined.

(** *** KNN on a well-formed tree *)

Lemma Qmax0_mono a b c d :
  (a <= c)%Q -> (b <= d)%Q ->
  (0 <= Qmax (Qmax a b) 0 <= Qmax (Qmax c d) 0)%Q.
Proof.
  intros H1 H2. split.
  - apply Q.le_max_r.
  - apply Q.max_lub.
    + apply Q.max_lub.
      * eapply Qle_trans; [exact H1|].
        eapply Qle_trans; [apply (Q.le_max_l c d)|apply Q.le_max_l].
      * eapply Qle_trans; [exact H2|].
        eapply Qle_trans; [apply (Q.le_max_r c d)|apply Q.le_max_l].
    + apply Q.le_max_r.
Qed.

Lemma Qsquare_mono a b : (0 <= a <= b)%Q -> (a * a <= b * b)%Q.
Proof.
  intros [H1 H2]. apply Qle_trans with (b * a)%Q.
  - apply Qmult_le_compat_r; assumption.
  - rewrite (Qmult_comm b a).
    apply Qmult_le_compat_r; [assumption | lra].
Qed.

(** The distance of a point to a rectangle is such a lower bound. *)
Lemma RTreePoint_lower_bound a p : lower_bound (pointObj a p).
Proof.
  intros r1 r2 (Hx1 & Hy1 & Hx2 & Hy2). simpl. unfold RTreePoint_SquaredDist.
  apply Qplus_le_compat; apply Qsquare_mono, Qmax0_mono; lra.
Qed.

Lemma wf_entry_unfold d s e :
  wf_entry (S d) s e =
  match obj e with
  | Some o => bb e = ToRect o
  | None => match node_at s (child e) with
            | None => False
            | Some c => Forall (fun e' => covers (bb e) (bb e') /\ wf_entry d s e') (entries c)
            end
  end.
Proof. reflexivity. Qed.

Lemma objects_unfold d s e :
  objects (S d) s e =
  match obj e with
  | Some o => [o]
  | None => match node_at s (child e) with
            | None => []
            | Some c => entries c ≫= objects d s
            end
  end.
Proof. reflexivity. Qed.

Lemma weight_unfold d s e :
  weight (S d) s e =
  match obj e with
  | Some o => 1%nat
  | None => match node_at s (child e) with
            | None => 1%nat
            | Some c => S (sum_list_with (weight d s) (entries c))
            end
  end.
Proof. reflexivity. Qed.

(** Well-formedness, the objects and the weight do not depend on the depth
    bound once it is large enough. *)
Lemma wf_entry_S d s e :
  wf_entry d s e ->
  wf_entry (S d) s e /\ objects (S d) s e = objects d s e /\
  weight (S d) s e = weight d s e.
Proof.
  revert e. induction d as [|d IH]; intros e.
  - simpl. destruct (obj e); [auto | intros []].
  - intros Hwf. rewrite (wf_entry_unfold d s e) in Hwf.
    rewrite (wf_entry_unfold (S d) s e), (objects_unfold (S d) s e),
      (weight_unfold (S d) s e), (objects_unfold d s e), (weight_unfold d s e).
    destruct (obj e); [auto|].
    destruct (node_at s (child e)) as [c|]; [|destruct Hwf].
    revert Hwf. induction (entries c) as [|e' es IHes]; [auto|].
    intros [[Hc Hw] Hes]%Forall_cons.
    destruct (IH e' Hw) as (Hw' & Ho & Hwt).
    destruct (IHes Hes) as (Hes' & Hos & Hwts).
    split; [|split].
    + constructor; auto.
    + rewrite !bind_cons. rewrite Ho. f_equal. exact Hos.
    + apply Nat.succ_inj in Hwts. cbn [sum_list_with]. rewrite Hwt, Hwts. reflexivity.
Qed.

Lemma weight_pos d s e : (0 < weight d s e)%nat.
Proof. destruct d; simpl; destruct (obj e); try lia; destruct (node_at s (child e)); lia. Qed.

Lemma objects_lower_bound q s :
  lower_bound q ->
  forall d e o, wf_entry d s e -> o ∈ objects d s e ->
                (SquaredDist q (bb e) <= dist_to q o)%Q.
Proof.
  intros Hq. induction d as [|d IH]; intros e o.
  - simpl. destruct (obj e) as [o'|]; [|intros []].
    intros -> ->%list_elem_of_singleton. apply Qle_refl.
  - rewrite wf_entry_unfold, objects_unfold. destruct (obj e) as [o'|].
    { intros -> ->%list_elem_of_singleton. apply Qle_refl. }
    destruct (node_at s (child e)) as [c|]; [|intros []].
    intros Hwf (e' & Ho & He')%list_elem_of_bind.
    rewrite Forall_forall in Hwf. destruct (Hwf e' He') as [Hc Hw].
    eapply Qle_trans; [apply Hq, Hc|]. apply IH; assumption.
Qed.

Lemma pushEntries_spec `{H : heap.Impl _ Less} q es : forall Q,
  heap.is_heap Q ->
  heap.is_heap (pushEntries q es Q) /\ pushEntries q es Q ≡ₚ (item q <$> es) ++ Q.
Proof.
  induction es as [|e es IH]; intros Q HQ; simpl.
  - split; [exact HQ | reflexivity].
  - destruct (IH (heap.Push Q (item q e))) as [Hh Hp].
    { apply heap.Push_heap, HQ. }
    split; [exact Hh|].
    etransitivity; [exact Hp|].
    rewrite (heap.Push_perm Q _ HQ). symmetry. apply Permutation_middle.
Qed.

Lemma StronglySorted_snoc {A} (R : A -> A -> Prop) l x :
  StronglySorted R l -> Forall (fun y => R y x) l -> StronglySorted R (l ++ [x]).
Proof.
  induction 1 as [|y l Hl IH Hy]; intros Hx; simpl.
  - constructor; constructor.
  - apply Forall_cons in Hx as [Hyx Hx]. constructor; [apply IH, Hx|].
    apply Forall_app. split; [exact Hy | constructor; [exact Hyx | constructor]].
Qed.

Lemma qobjects_lower_bound s q D Q x o :
  lower_bound q -> Forall (item_ok s q D) Q ->
  x ∈ Q -> o ∈ objects D s (rEntry x) -> (dist x <= dist_to q o)%Q.
Proof.
  intros Hq HQ Hx Ho. rewrite Forall_forall in HQ.
  destruct (HQ x Hx) as [-> Hwf]. eapply objects_lower_bound; eassumption.
Qed.

(** Leaving the loop of [KNN]. *)
Lemma KNN_exit s q k D Q nn :
  lower_bound q ->
  Forall (item_ok s q D) Q ->
  StronglySorted (closer q) nn ->
  (forall o x, o ∈ nn -> x ∈ Q -> (dist_to q o <= dist x)%Q) ->
  len nn <= k ->
  (len Q >? 0) && (len nn <? k) = false ->
  exists res rest,
    ret nn s = Done (res, s) /\
    len res = Z.min k (len nn + len (qobjects s D Q)) /\
    StronglySorted (closer q) res /\
    nn ++ qobjects s D Q ≡ₚ res ++ rest /\
    (forall o o', o ∈ res -> o' ∈ rest -> closer q o o').
Proof.
  intros Hq Hok Hsort Hbound Hk Hcond.
  exists nn, (qobjects s D Q). split; [reflexivity|]. split; [|split; [exact Hsort|split]].
  - apply andb_false_iff in Hcond as [Hc|Hc].
    + rewrite Z.gtb_ltb, Z.ltb_ge in Hc.
      destruct Q as [|x Q]; [|unfold len in Hc; simpl in Hc; lia].
      unfold len in *. simpl. lia.
    + rewrite Z.ltb_ge in Hc. unfold len in *. lia.
  - reflexivity.
  - intros o o' Ho (x & Ho' & Hx)%list_elem_of_bind.
    unfold closer. eapply Qle_trans; [apply (Hbound o x Ho Hx)|].
    eapply qobjects_lower_bound; eassumption.
Qed.

(** The loop of [KNN], from any state its invariant holds in: with fuel
    for the queued entries and everything below them, it returns, leaves
    the memory alone, and its result extends [nn] by the nearest of the
    objects below the queue, in order, up to [k] objects. *)
Lemma KNN_loop_spec `{H : heap.Impl _ Less} s q k D :
  lower_bound q ->
  forall fuel Q nn,
  heap.is_heap Q ->
  Forall (item_ok s q D) Q ->
  StronglySorted (closer q) nn ->
  (forall o x, o ∈ nn -> x ∈ Q -> (dist_to q o <= dist x)%Q) ->
  len nn <= k ->
  (qweight s D Q <= fuel)%nat ->
  exists res rest,
    KNN_loop fuel k q Q nn s = Done (res, s) /\
    len res = Z.min k (len nn + len (qobjects s D Q)) /\
    StronglySorted (closer q) res /\
    nn ++ qobjects s D Q ≡ₚ res ++ rest /\
    (forall o o', o ∈ res -> o' ∈ rest -> closer q o o').
Proof.
  intros Hq. induction fuel as [|fuel IH]; intros Q nn HQ Hok Hsort Hbound Hk Hfuel.
  all: cbn [KNN_loop]; destruct ((len Q >? 0) && (len nn <? k)) eqn:Hcond.
  all: try (eapply KNN_exit; eassumption).
  - (* no fuel, but an item is queued *)
    apply andb_true_iff in Hcond as [Hc _]. destruct Q as [|x Q]; [discriminate Hc|].
    clear Hc.
    unfold qweight in Hfuel. cbn [sum_list_with] in Hfuel.
    pose proof (weight_pos D s (rEntry x)). lia.
  - apply andb_true_iff in Hcond as [Hc Hlt].
    assert (HQne : Q <> []) by (intros ->; discriminate Hc).
    clear Hc. rewrite Z.ltb_lt in Hlt.
    destruct (heap.Pop_min Q HQ HQne) as (x & Q' & -> & HQ' & Hperm & Hmin).
    assert (Hokx : Forall (item_ok s q D) (x :: Q')) by (rewrite <- Hperm; exact Hok).
    apply Forall_cons in Hokx as [[Hdx Hwx] Hok'].
    assert (Hw : (weight D s (rEntry x) + qweight s D Q' <= S fuel)%nat).
    { unfold qweight in *. rewrite Hperm in Hfuel. exact Hfuel. }
    assert (Hobjs : qobjects s D Q ≡ₚ objects D s (rEntry x) ++ qobjects s D Q').
    { unfold qobjects. rewrite Hperm. rewrite bind_cons. reflexivity. }
    assert (Hxin : x ∈ Q) by (rewrite Hperm; left).
    assert (Hsub : forall y, y ∈ Q' -> y ∈ Q) by (intros y Hy; rewrite Hperm; right; exact Hy).
    assert (Hmin' : forall y, y ∈ Q' -> (dist x <= dist y)%Q).
    { intros y Hy. rewrite Forall_forall in Hmin.
      specialize (Hmin y Hy). apply ltb_ge in Hmin. exact Hmin. }
    destruct D as [|D'].
    + (* depth 0: a well-formed entry holds an object *)
      simpl in Hwx. simpl in Hw, Hobjs.
      destruct (obj (rEntry x)) as [o|] eqn:Hobj; [|destruct Hwx].
      destruct (IH Q' (nn ++ [o])) as (res & rest & Hrun & Hlen & Hs & Hp & Hc').
      * exact HQ'.
      * exact Hok'.
      * apply StronglySorted_snoc; [exact Hsort|]. apply Forall_forall.
        intros o' Ho'. unfold closer, dist_to at 2. rewrite <- Hwx, <- Hdx.
        apply Hbound; assumption.
      * intros o' y [Ho'|Ho']%elem_of_app Hy.
        -- eapply Qle_trans; [apply (Hbound o' x Ho' Hxin)|apply Hmin', Hy].
        -- apply list_elem_of_singleton in Ho' as ->.
           unfold dist_to. rewrite <- Hwx, <- Hdx. apply Hmin', Hy.
      * unfold len in *. rewrite length_app. simpl. lia.
      * lia.
      * exists res, rest. split; [exact Hrun|]. split; [|split; [exact Hs|split; [|exact Hc']]].
        -- rewrite Hlen. unfold len. rewrite Hobjs, !length_app. simpl. f_equal. lia.
        -- rewrite <- Hp, Hobjs. rewrite <- app_assoc. reflexivity.
    + rewrite wf_entry_unfold in Hwx. rewrite weight_unfold in Hw.
      rewrite objects_unfold in Hobjs.
      destruct (obj (rEntry x)) as [o|] eqn:Hobj.
      * destruct (IH Q' (nn ++ [o])) as (res & rest & Hrun & Hlen & Hs & Hp & Hc').
        -- exact HQ'.
        -- exact Hok'.
        -- apply StronglySorted_snoc; [exact Hsort|]. apply Forall_forall.
           intros o' Ho'. unfold closer, dist_to at 2. rewrite <- Hwx, <- Hdx.
           apply Hbound; assumption.
        -- intros o' y [Ho'|Ho']%elem_of_app Hy.
           ++ eapply Qle_trans; [apply (Hbound o' x Ho' Hxin)|apply Hmin', Hy].
           ++ apply list_elem_of_singleton in Ho' as ->.
              unfold dist_to. rewrite <- Hwx, <- Hdx. apply Hmin', Hy.
        -- unfold len in *. rewrite length_app. simpl. lia.
        -- lia.
        -- exists res, rest. split; [exact Hrun|]. split; [|split; [exact Hs|split; [|exact Hc']]].
           ++ rewrite Hlen. unfold len. rewrite Hobjs, !length_app. simpl. f_equal. lia.
           ++ rewrite <- Hp, Hobjs. rewrite <- app_assoc. reflexivity.
      * destruct (node_at s (child (rEntry x))) as [c|] eqn:Hc0; [|destruct Hwx].
        assert (Hload : load (child (rEntry x)) s = Done (c, s)).
        { unfold load, node_at in *. destruct (child (rEntry x)); [|discriminate].
          rewrite Hc0. reflexivity. }
        unfold bind. rewrite Hload.
        destruct (pushEntries_spec q (entries c) Q' HQ') as [Hheap Hpush].
        assert (Hkids : Forall (fun e' => wf_entry (S D') s e' /\
                          objects (S D') s e' = objects D' s e' /\
                          weight (S D') s e' = weight D' s e') (entries c)).
        { eapply Forall_impl; [exact Hwx|]. intros e' [_ He']. apply wf_entry_S, He'. }
        assert (Hkobj : entries c ≫= objects (S D') s = entries c ≫= objects D' s).
        { clear -Hkids. induction Hkids as [|e' es (_ & Ho & _) _ IHk]; [reflexivity|].
          rewrite !bind_cons, Ho, IHk. reflexivity. }
        assert (Hkw : sum_list_with (weight (S D') s) (entries c)
                      = sum_list_with (weight D' s) (entries c)).
        { clear -Hkids. induction Hkids as [|e' es (_ & _ & Hw') _ IHk]; [reflexivity|].
          cbn [sum_list_with]. rewrite Hw', IHk. reflexivity. }
        destruct (IH (pushEntries q (entries c) Q') nn) as (res & rest & Hrun & Hlen & Hs & Hp & Hc').
        -- exact Hheap.
        -- rewrite Hpush. apply Forall_app. split; [|exact Hok'].
           apply Forall_fmap. eapply Forall_impl; [exact Hkids|].
           intros e' (He' & _). split; [reflexivity | exact He'].
        -- exact Hsort.
        -- intros o' y Ho' Hy. rewrite Hpush in Hy.
           apply elem_of_app in Hy as [Hy|Hy].
           ++ apply list_elem_of_fmap in Hy as (e' & -> & He'). simpl.
              rewrite Forall_forall in Hwx. destruct (Hwx e' He') as [Hcov _].
              eapply Qle_trans; [apply (Hbound o' x Ho' Hxin)|].
              rewrite Hdx. apply Hq, Hcov.
           ++ apply Hbound; [exact Ho' | apply Hsub, Hy].
        -- exact Hk.
        -- unfold qweight in *. rewrite Hpush, sum_list_with_app.
           assert (Heq : sum_list_with (fun x0 => weight (S D') s (rEntry x0)) (item q <$> entries c)
                         = sum_list_with (weight (S D') s) (entries c)).
           { clear. induction (entries c) as [|e' es IHe]; [reflexivity|].
             cbn [fmap list_fmap sum_list_with]. simpl. f_equal. exact IHe. }
           rewrite Heq, Hkw. lia.
        -- assert (Hqo : qobjects s (S D') (pushEntries q (entries c) Q')
                          ≡ₚ (entries c ≫= objects D' s) ++ qobjects s (S D') Q').
           { unfold qobjects. rewrite Hpush, bind_app. apply Permutation_app_tail.
             rewrite <- Hkobj. clear. induction (entries c) as [|e' es IHe]; [reflexivity|].
             cbn [fmap list_fmap]. rewrite !bind_cons. simpl. rewrite IHe. reflexivity. }
           exists res, rest. split; [exact Hrun|]. split; [|split; [exact Hs|split; [|exact Hc']]].
           ++ rewrite Hlen. unfold len. rewrite Hqo, Hobjs. reflexivity.
           ++ rewrite <- Hp, Hqo, Hobjs. reflexivity.
Qed.

(** C2, as stated, fails: for k = math.MaxInt, which is at least 1, the
    call [KNN(k, q)] on the well-formed tree [twoLeaves] returns no list:
    [make([]Spatial, 0, k)] panics, whatever the fuel. *)
Lemma KNN_MaxInt_panics :
  1 <= MaxInt /\
  forall fuel, KNN (H := naiveQueue) fuel MaxInt (pt 9 3 3) twoLeaves = Panic.
Proof. split; [unfold MaxInt; lia | intros fuel; reflexivity]. Qed.

(** C2 (amended): on a tree whose entries are well formed (every internal
    rectangle covers the rectangles below it, every leaf entry carries the
    rectangle of its object) and whose Size is the number of stored
    objects, for every k with 1 <= k <= 2^44, the capacities [make]
    accepts, and every query object whose distance is a lower bound,
    [KNN(k, q)] returns, with fuel for one pop per entry, a list [res] of
    length min(k, Size), in non-decreasing order of squared distance to the
    bounding rectangles, and the stored objects left out ([rest]) are at
    least as far as each returned one.  This holds for every heap
    implementation, whichever of several least items it pops. *)
Theorem KNN_returns_nearest `{H : heap.Impl _ Less}
    (s : state) (r : rTreeNode) (q : Spatial) (k : Z) (D fuel : nat) :
  node_at s (Root (tree s)) = Some r ->
  Forall (wf_entry D s) (entries r) ->
  Size (tree s) = len (entries r ≫= objects D s) ->
  lower_bound q ->
  1 <= k <= 2 ^ 44 ->
  (sum_list_with (weight D s) (entries r) <= fuel)%nat ->
  exists res rest,
    KNN fuel k q s = Done (res, s) /\
    len res = Z.min k (Size (tree s)) /\
    StronglySorted (closer q) res /\
    entries r ≫= objects D s ≡ₚ res ++ rest /\
    (forall o o', o ∈ res -> o' ∈ rest -> closer q o o').
Proof.
  intros Hroot Hwf Hsize Hq Hk Hfuel.
  destruct (pushEntries_spec q (entries r) [] heap.is_heap_nil) as [Hheap Hpush].
  rewrite app_nil_r in Hpush.
  destruct (KNN_loop_spec s q k D Hq fuel (pushEntries q (entries r) []) [])
    as (res & rest & Hrun & Hlen & Hs & Hp & Hc).
  - exact Hheap.
  - rewrite Hpush. apply Forall_fmap. eapply Forall_impl; [exact Hwf|].
    intros e He. split; [reflexivity | exact He].
  - constructor.
  - intros o x Ho. inversion Ho.
  - unfold len. simpl. lia.
  - unfold qweight. rewrite Hpush.
    assert (Heq : sum_list_with (fun x => weight D s (rEntry x)) (item q <$> entries r)
                  = sum_list_with (weight D s) (entries r)).
    { clear. induction (entries r) as [|e es IHe]; [reflexivity|].
      cbn [fmap list_fmap sum_list_with]. simpl. f_equal. exact IHe. }
    rewrite Heq. exact Hfuel.
  - assert (Hqo : qobjects s D (pushEntries q (entries r) []) ≡ₚ entries r ≫= objects D s).
    { unfold qobjects. rewrite Hpush. clear.
      induction (entries r) as [|e es IHe]; [reflexivity|].
      cbn [fmap list_fmap]. rewrite !bind_cons. simpl. rewrite IHe. reflexivity. }
    exists res, rest. split; [|split; [|split; [exact Hs|split; [|exact Hc]]]].
    + unfold KNN. assert (Hk0 : make_panics 16 k = false) by (apply make_panics_16; lia).
      rewrite Hk0. unfold bind, getTree.
      assert (Hload : load (Root (tree s)) s = Done (r, s)).
      { unfold load, node_at in *. destruct (Root (tree s)); [|discriminate].
        rewrite Hroot. reflexivity. }
      rewrite Hload. exact Hrun.
    + rewrite Hlen, Hsize. unfold len. rewrite Hqo. simpl. reflexivity.
    + rewrite <- Hp, Hqo. reflexivity.
Qed.

(** The theorem at work: the two nearest of the five clustered points to
    the point (3, 3), on the tree [twoLeaves], with the insertion-ordered
    queue. *)
Lemma KNN_returns_nearest_witness :
  (node_at twoLeaves (Root (tree twoLeaves)) = Some rootAB /\
   Forall (wf_entry 1 twoLeaves) (entries rootAB) /\
   Size (tree twoLeaves) = len (entries rootAB ≫= objects 1 twoLeaves) /\
   lower_bound (pt 9 3 3) /\
   1 <= 2 <= 2 ^ 44 /\
   (sum_list_with (weight 1 twoLeaves) (entries rootAB) <= 7)%nat) /\
  exists res rest,
    KNN (H := naiveQueue) 7 2 (pt 9 3 3) twoLeaves = Done (res, twoLeaves) /\
    len res = Z.min 2 (Size (tree twoLeaves)) /\
    StronglySorted (closer (pt 9 3 3)) res /\
    entries rootAB ≫= objects 1 twoLeaves ≡ₚ res ++ rest /\
    (forall o o', o ∈ res -> o' ∈ rest -> closer (pt 9 3 3) o o').
Proof.
  assert (Hwf : Forall (wf_entry 1 twoLeaves) (entries rootAB)).
  { repeat constructor; unfold Qle; vm_compute; discriminate. }
  assert (Hw : (sum_list_with (weight 1 twoLeaves) (entries rootAB) <= 7)%nat).
  { vm_compute. lia. }
  split.
  - split; [reflexivity|]. split; [exact Hwf|]. split; [reflexivity|].
    split; [apply RTreePoint_lower_bound|]. split; [lia | exact Hw].
  - apply (KNN_returns_nearest twoLeaves rootAB (pt 9 3 3) 2 1 7).
    + reflexivity.
    + exact Hwf.
    + reflexivity.
    + apply RTreePoint_lower_bound.
    + lia.
    + exact Hw.
Defined.

(** *** More on the rectangle algebra *)

Local Open Scope Q_scope.

Lemma covers_refl r : covers r r.
Proof. unfold covers. repeat split; apply Qle_refl. Qed.

(** X1: [intersect] does not depend on the order of its arguments. *)
Theorem intersect_sym r1 r2 : intersect r1 r2 = intersect r2 r1.
Proof.
  destruct (intersect r1 r2) eqn:E1; destruct (intersect r2 r1) eqn:E2;
    try reflexivity.
  - apply intersect_true_iff in E1. destruct E1 as (?&?&?&?).
    assert (Ht : intersect r2 r1 = true) by (apply intersect_true_iff; repeat split; lra).
    congruence.
  - apply intersect_true_iff in E2. destruct E2 as (?&?&?&?).
    assert (Ht : intersect r1 r2 = true) by (apply intersect_true_iff; repeat split; lra).
    congruence.
Qed.

Lemma enlarge_corners r1 r2 :
  X (bottomLeft (enlarge r1 r2)) == Qmin (X (bottomLeft r1)) (X (bottomLeft r2)) /\
  Y (bottomLeft (enlarge r1 r2)) == Qmin (Y (bottomLeft r1)) (Y (bottomLeft r2)) /\
  X (topRight (enlarge r1 r2)) == Qmax (X (topRight r1)) (X (topRight r2)) /\
  Y (topRight (enlarge r1 r2)) == Qmax (Y (topRight r1)) (Y (topRight r2)).
Proof.
  unfold enlarge, gtb; simpl.
  repeat split.
  - destruct (ltb (X (bottomLeft r2)) (X (bottomLeft r1))) eqn:E;
      [apply ltb_lt in E; rewrite Q.min_r by lra | apply ltb_ge in E; rewrite Q.min_l by lra];
      reflexivity.
  - destruct (ltb (Y (bottomLeft r2)) (Y (bottomLeft r1))) eqn:E;
      [apply ltb_lt in E; rewrite Q.min_r by lra | apply ltb_ge in E; rewrite Q.min_l by lra];
      reflexivity.
  - destruct (ltb (X (topRight r1)) (X (topRight r2))) eqn:E;
      [apply ltb_lt in E; rewrite Q.max_r by lra | apply ltb_ge in E; rewrite Q.max_l by lra];
      reflexivity.
  - destruct (ltb (Y (topRight r1)) (Y (topRight r2))) eqn:E;
      [apply ltb_lt in E; rewrite Q.max_r by lra | apply ltb_ge in E; rewrite Q.max_l by lra];
      reflexivity.
Qed.

Lemma enlarge_covers r1 r2 :
  covers (enlarge r1 r2) r1 /\ covers (enlarge r1 r2) r2.
Proof.
  destruct (enlarge_corners r1 r2) as (H1 & H2 & H3 & H4).
  pose proof (Q.le_min_l (X (bottomLeft r1)) (X (bottomLeft r2))).
  pose proof (Q.le_min_r (X (bottomLeft r1)) (X (bottomLeft r2))).
  pose proof (Q.le_min_l (Y (bottomLeft r1)) (Y (bottomLeft r2))).
  pose proof (Q.le_min_r (Y (bottomLeft r1)) (Y (bottomLeft r2))).
  pose proof (Q.le_max_l (X (topRight r1)) (X (topRight r2))).
  pose proof (Q.le_max_r (X (topRight r1)) (X (topRight r2))).
  pose proof (Q.le_max_l (Y (topRight r1)) (Y (topRight r2))).
  pose proof (Q.le_max_r (Y (topRight r1)) (Y (topRight r2))).
  split; unfold covers; rewrite H1, H2, H3, H4; repeat split; assumption.
Qed.

(** X2: after [r1.enlarge(r2)] the receiver is the least rectangle that
    covers the old [r1] and [r2]: it covers both, and every rectangle that
    covers both covers it.  The same holds of [boundingBox(r1, r2)]. *)
Theorem enlarge_least_cover r1 r2 :
  covers (enlarge r1 r2) r1 /\ covers (enlarge r1 r2) r2 /\
  (forall r, covers r r1 -> covers r r2 -> covers r (enlarge r1 r2)) /\
  boundingBox r1 r2 = enlarge r1 r2.
Proof.
  destruct (enlarge_corners r1 r2) as (H1 & H2 & H3 & H4).
  pose proof (Q.le_min_l (X (bottomLeft r1)) (X (bottomLeft r2))).
  pose proof (Q.le_min_r (X (bottomLeft r1)) (X (bottomLeft r2))).
  pose proof (Q.le_min_l (Y (bottomLeft r1)) (Y (bottomLeft r2))).
  pose proof (Q.le_min_r (Y (bottomLeft r1)) (Y (bottomLeft r2))).
  pose proof (Q.le_max_l (X (topRight r1)) (X (topRight r2))).
  pose proof (Q.le_max_r (X (topRight r1)) (X (topRight r2))).
  pose proof (Q.le_max_l (Y (topRight r1)) (Y (topRight r2))).
  pose proof (Q.le_max_r (Y (topRight r1)) (Y (topRight r2))).
  split; [|split; [|split; [|reflexivity]]].
  - unfold covers. rewrite H1, H2, H3, H4. repeat split; assumption.
  - unfold covers. rewrite H1, H2, H3, H4. repeat split; assumption.
  - intros r (A1 & A2 & A3 & A4) (B1 & B2 & B3 & B4).
    unfold covers. rewrite H1, H2, H3, H4. repeat split.
    + apply Q.min_glb; assumption.
    + apply Q.min_glb; assumption.
    + apply Q.max_lub; assumption.
    + apply Q.max_lub; assumption.
Qed.

(** X3: for two points whose coordinates are at most [2^500] in absolute
    value, [NewRect(u, v)] is normalised (xmin <= xmax, ymin <= ymax, size
    >= 0), has both points inside, has a size of at most [2^1002], which
    is a finite float64, and does not depend on the order of the two
    points.  (Far larger coordinates make the size of the code an infinity
    or a NaN.) *)
Theorem NewRect_normalised u v :
  in_range_point u -> in_range_point v ->
  (X (bottomLeft (NewRect u v)) <= X u <= X (topRight (NewRect u v)) /\
   Y (bottomLeft (NewRect u v)) <= Y u <= Y (topRight (NewRect u v))) /\
  (X (bottomLeft (NewRect u v)) <= X v <= X (topRight (NewRect u v)) /\
   Y (bottomLeft (NewRect u v)) <= Y v <= Y (topRight (NewRect u v))) /\
  0 <= size (NewRect u v) <= 4 * (big * big) /\
  (X (bottomLeft (NewRect u v)) == X (bottomLeft (NewRect v u)) /\
   Y (bottomLeft (NewRect u v)) == Y (bottomLeft (NewRect v u)) /\
   X (topRight (NewRect u v)) == X (topRight (NewRect v u)) /\
   Y (topRight (NewRect u v)) == Y (topRight (NewRect v u)) /\
   size (NewRect u v) == size (NewRect v u)).
Proof.
  intros [[Hux1 Hux2] [Huy1 Huy2]] [[Hvx1 Hvx2] [Hvy1 Hvy2]].
  unfold NewRect; simpl.
  pose proof (Q.le_min_l (X u) (X v)). pose proof (Q.le_min_r (X u) (X v)).
  pose proof (Q.le_min_l (Y u) (Y v)). pose proof (Q.le_min_r (Y u) (Y v)).
  pose proof (Q.le_max_l (X u) (X v)). pose proof (Q.le_max_r (X u) (X v)).
  pose proof (Q.le_max_l (Y u) (Y v)). pose proof (Q.le_max_r (Y u) (Y v)).
  split; [repeat split; assumption|]. split; [repeat split; assumption|].
  split; [split|].
  - apply Qmult_le_0_compat; lra.
  - assert (Hxm : Qmax (X u) (X v) <= big) by (apply Q.max_lub; assumption).
    assert (Hym : Qmax (Y u) (Y v) <= big) by (apply Q.max_lub; assumption).
    assert (Hxn : - big <= Qmin (X u) (X v)) by (apply Q.min_glb; assumption).
    assert (Hyn : - big <= Qmin (Y u) (Y v)) by (apply Q.min_glb; assumption).
    assert (E : 4 * (big * big) == (2 * big) * (2 * big)) by ring.
    rewrite E. apply Qmult_le_compat_nonneg; split; lra.
  - rewrite (Q.min_comm (X v) (X u)), (Q.min_comm (Y v) (Y u)),
      (Q.max_comm (X v) (X u)), (Q.max_comm (Y v) (Y u)).
    repeat split; reflexivity.
Qed.

(** The rectangle of the points (3, 1) and (0, 2). *)
Lemma NewRect_normalised_witness :
  (in_range_point (mkPoint 3 1) /\ in_range_point (mkPoint 0 2)) /\
  0 <= size (NewRect (mkPoint 3 1) (mkPoint 0 2)) <= 4 * (big * big) /\
  size (NewRect (mkPoint 3 1) (mkPoint 0 2)) == size (NewRect (mkPoint 0 2) (mkPoint 3 1)).
Proof.
  assert (Hu : in_range_point (mkPoint 3 1)) by (repeat split; discriminate).
  assert (Hv : in_range_point (mkPoint 0 2)) by (repeat split; discriminate).
  split; [split; assumption|].
  destruct (NewRect_normalised (mkPoint 3 1) (mkPoint 0 2) Hu Hv)
    as (_ & _ & Hs & _ & _ & _ & _ & He).
  split; assumption.
Defined.

Lemma Qsquare_nonneg a : 0 <= a * a.
Proof.
  destruct (Qlt_le_dec a 0) as [E|E].
  - assert (Hs : a * a == (- a) * (- a)) by ring.
    rewrite Hs. apply Qmult_le_0_compat; lra.
  - apply Qmult_le_0_compat; assumption.
Qed.

Lemma Qsquare_zero a : a * a == 0 -> a == 0.
Proof.
  intros E. apply Qmult_integral in E. destruct E; assumption.
Qed.

Lemma Qmax0_zero a b : Qmax (Qmax a b) 0 == 0 <-> a <= 0 /\ b <= 0.
Proof.
  pose proof (Q.le_max_l (Qmax a b) 0). pose proof (Q.le_max_r (Qmax a b) 0).
  pose proof (Q.le_max_l a b). pose proof (Q.le_max_r a b).
  split.
  - intros E. split; lra.
  - intros [Ha Hb]. apply Qle_antisym; [|assumption].
    apply Q.max_lub; [apply Q.max_lub; assumption | apply Qle_refl].
Qed.

Lemma Qsquare_pos a : 0 < a -> 0 < a * a.
Proof. intros Ha. apply Qmult_lt_0_compat; exact Ha. Qed.

(** X4: the squared distance of a point to a rectangle is never negative;
    it is zero when the point lies in the rectangle, borders included; and
    it is positive when the point lies outside by at least [2^-500] along
    an axis.  (Nearer than that, the squares of the code may underflow to
    zero although the point is outside.) *)
Theorem RTreePoint_SquaredDist_zero n r :
  0 <= RTreePoint_SquaredDist n r /\
  (X (bottomLeft r) <= X n <= X (topRight r) /\
   Y (bottomLeft r) <= Y n <= Y (topRight r) ->
   RTreePoint_SquaredDist n r == 0) /\
  (X n + tiny <= X (bottomLeft r) \/ X (topRight r) + tiny <= X n \/
   Y n + tiny <= Y (bottomLeft r) \/ Y (topRight r) + tiny <= Y n ->
   0 < RTreePoint_SquaredDist n r).
Proof.
  unfold RTreePoint_SquaredDist.
  set (dx := Qmax (Qmax (X (bottomLeft r) - X n) (X n - X (topRight r))) 0).
  set (dy := Qmax (Qmax (Y (bottomLeft r) - Y n) (Y n - Y (topRight r))) 0).
  pose proof (Qsquare_nonneg dx) as Hx. pose proof (Qsquare_nonneg dy) as Hy.
  split; [lra|]. split.
  - intros [[? ?] [? ?]].
    assert (Ex : dx == 0) by (apply Qmax0_zero; lra).
    assert (Ey : dy == 0) by (apply Qmax0_zero; lra).
    rewrite Ex, Ey. ring.
  - pose proof tiny_pos as Ht.
    pose proof (Q.le_max_l (Qmax (X (bottomLeft r) - X n) (X n - X (topRight r))) 0) as Hx1.
    pose proof (Q.le_max_l (X (bottomLeft r) - X n) (X n - X (topRight r))) as Hx2.
    pose proof (Q.le_max_r (X (bottomLeft r) - X n) (X n - X (topRight r))) as Hx3.
    pose proof (Q.le_max_l (Qmax (Y (bottomLeft r) - Y n) (Y n - Y (topRight r))) 0) as Hy1.
    pose proof (Q.le_max_l (Y (bottomLeft r) - Y n) (Y n - Y (topRight r))) as Hy2.
    pose proof (Q.le_max_r (Y (bottomLeft r) - Y n) (Y n - Y (topRight r))) as Hy3.
    fold dx in Hx1. fold dy in Hy1.
    intros [Ho|[Ho|[Ho|Ho]]].
    + assert (Hp : 0 < dx) by lra. apply Qsquare_pos in Hp. lra.
    + assert (Hp : 0 < dx) by lra. apply Qsquare_pos in Hp. lra.
    + assert (Hp : 0 < dy) by lra. apply Qsquare_pos in Hp. lra.
    + assert (Hp : 0 < dy) by lra. apply Qsquare_pos in Hp. lra.
Qed.

(** X5: the squared distance of a point to a rectangle is at most its
    squared distance to any rectangle inside: the lower bound that lets
    [KNN] visit entries in order of distance. *)
Theorem RTreePoint_SquaredDist_covers n outer inner :
  covers outer inner ->
  RTreePoint_SquaredDist n outer <= RTreePoint_SquaredDist n inner.
Proof. intros Hc. apply (RTreePoint_lower_bound 0 n outer inner Hc). Qed.

(** The theorem at work: the origin, the unit square and a square inside. *)
Lemma RTreePoint_SquaredDist_covers_witness :
  covers (NewRect (mkPoint 1 1) (mkPoint 3 3)) (NewRect (mkPoint 2 2) (mkPoint 3 3)) /\
  RTreePoint_SquaredDist (mkPoint 0 0) (NewRect (mkPoint 1 1) (mkPoint 3 3))
  <= RTreePoint_SquaredDist (mkPoint 0 0) (NewRect (mkPoint 2 2) (mkPoint 3 3)).
Proof.
  assert (Hc : covers (NewRect (mkPoint 1 1) (mkPoint 3 3))
                      (NewRect (mkPoint 2 2) (mkPoint 3 3))).
  { unfold covers, Qle; simpl. repeat split; lia. }
  split; [exact Hc|].
  apply (RTreePoint_SquaredDist_covers (mkPoint 0 0) _ _ Hc).
Defined.

(** X6: [containsRect] never rejects a rectangle that lies inside: where
    the four inequalities hold it answers true, so [findLeaf] descends
    into every entry whose rectangle covers the object. *)
Theorem containsRect_of_covers r1 r2 : covers r1 r2 -> containsRect r1 r2 = true.
Proof.
  intros (H1 & H2 & H3 & H4). apply containsRect_true_iff. repeat split; lra.
Qed.

Lemma containsRect_of_covers_witness :
  covers (NewRect (mkPoint 1 1) (mkPoint 3 3)) (NewRect (mkPoint 2 2) (mkPoint 3 3)) /\
  containsRect (NewRect (mkPoint 1 1) (mkPoint 3 3))
               (NewRect (mkPoint 2 2) (mkPoint 3 3)) = true.
Proof.
  assert (Hc : covers (NewRect (mkPoint 1 1) (mkPoint 3 3))
                      (NewRect (mkPoint 2 2) (mkPoint 3 3))).
  { unfold covers, Qle; simpl. repeat split; lia. }
  split; [exact Hc | apply (containsRect_of_covers _ _ Hc)].
Defined.

Lemma fold_enlarge_covers_acc es : forall b r,
  covers b r -> covers (fold_left (fun b e' => enlarge b (bb e')) es b) r.
Proof.
  induction es as [|e es IH]; intros b r Hb; simpl; [exact Hb|].
  apply IH. eapply covers_trans; [|exact Hb].
  apply (enlarge_covers b (bb e)).
Qed.

Lemma fold_enlarge_covers es : forall b e,
  e ∈ es -> covers (fold_left (fun b e' => enlarge b (bb e')) es b) (bb e).
Proof.
  induction es as [|e0 es IH]; intros b e He; [inversion He|].
  simpl. apply elem_of_cons in He as [->|He].
  - apply fold_enlarge_covers_acc. apply (enlarge_covers b (bb e0)).
  - apply IH, He.
Qed.

Lemma boundingBoxOf_covers es e : e ∈ es -> covers (boundingBoxOf es) (bb e).
Proof.
  intros He. unfold boundingBoxOf. destruct es as [|e0 es]; [inversion He|].
  apply elem_of_cons in He as [->|He].
  - apply fold_enlarge_covers_acc, covers_refl.
  - apply fold_enlarge_covers, He.
Qed.

(** X7: the rectangle [computeBoundingBox] returns for a node covers the
    rectangle of every entry of the node. *)
Theorem computeBoundingBox_covers s n nd b s' e :
  node_at s n = Some nd ->
  computeBoundingBox n s = Done (b, s') ->
  e ∈ entries nd ->
  s' = s /\ covers b (bb e).
Proof.
  intros Hn Hrun He. unfold computeBoundingBox, bind, load, ret, node_at in *.
  destruct n as [a|]; [|discriminate]. rewrite Hn in Hrun.
  injection Hrun as <- <-. split; [reflexivity|].
  unfold boundingBoxOf. destruct (entries nd) as [|e0 es]; [inversion He|].
  apply elem_of_cons in He as [->|He].
  - apply fold_enlarge_covers_acc, covers_refl.
  - apply fold_enlarge_covers, He.
Qed.

Lemma computeBoundingBox_covers_witness :
  exists b,
    node_at twoLeaves (Some 1%nat) = Some leafB /\
    computeBoundingBox (Some 1%nat) twoLeaves = Done (b, twoLeaves) /\
    leafEntry b2 ∈ entries leafB /\
    covers b (bb (leafEntry b2)).
Proof.
  assert (He : leafEntry b2 ∈ entries leafB) by (right; left).
  eexists. split; [reflexivity|]. split; [reflexivity|]. split; [exact He|].
  apply (computeBoundingBox_covers twoLeaves (Some 1%nat) leafB _ twoLeaves
           (leafEntry b2) eq_refl eq_refl He).
Defined.

Local Close Scope Q_scope.

(** *** Insert and Delete on a tree whose root is a leaf *)

Lemma bind_Done {S A B} (m : M S A) (k : A -> M S B) s a s' :
  m s = Done (a, s') -> bind m k s = k a s'.
Proof. intros Hm. unfold bind. rewrite Hm. reflexivity. Qed.

Lemma ptr_eqb_refl p : ptr_eqb p p = true.
Proof. destruct p as [a|]; [apply Nat.eqb_refl | reflexivity]. Qed.

Lemma load_Some s a n : heap s !! a = Some n -> load (Some a) s = Done (n, s).
Proof. intros Hn. unfold load. rewrite Hn. reflexivity. Qed.

Lemma store_Some s a n n' :
  heap s !! a = Some n ->
  store (Some a) n' s = Done (tt, mkState (<[a := n']> (heap s)) (tree s)).
Proof.
  intros Hn. unfold store. apply lookup_lt_Some in Hn.
  apply Nat.ltb_lt in Hn. rewrite Hn. reflexivity.
Qed.

Lemma set_entries_Some s a n es :
  heap s !! a = Some n ->
  set_entries (Some a) es s
  = Done (tt, mkState (<[a := mkNode (parent n) (isLeaf n) es (level n)]> (heap s)) (tree s)).
Proof.
  intros Hn. unfold set_entries, bind. rewrite (load_Some s a n Hn).
  apply (store_Some s a n), Hn.
Qed.

(** The last index that holds [o], counted from [i]; [idx] if none does. *)
Lemma lastIndexOf_absent o : forall es i idx,
  Forall (fun e => obj_is (obj e) o = false) es -> lastIndexOf es o i idx = idx.
Proof.
  induction es as [|e es IH]; intros i idx Hall; [reflexivity|].
  apply Forall_cons in Hall as [He Hall]. simpl. rewrite He. apply IH, Hall.
Qed.

Lemma lastIndexOf_snoc o e : forall es i idx,
  obj_is (obj e) o = true -> lastIndexOf (es ++ [e]) o i idx = i + len es.
Proof.
  induction es as [|e0 es IH]; intros i idx He; simpl.
  - rewrite He. unfold len. simpl. lia.
  - rewrite IH by exact He. unfold len. simpl length. lia.
Qed.

Lemma lastIndexOf_range o : forall es i idx,
  lastIndexOf es o i idx = idx \/
  (i <= lastIndexOf es o i idx < i + len es /\
   exists e, es !! Z.to_nat (lastIndexOf es o i idx - i) = Some e /\ obj_is (obj e) o = true).
Proof.
  induction es as [|e es IH]; intros i idx; [left; reflexivity|].
  simpl. destruct (IH (i + 1) (if obj_is (obj e) o then i else idx)) as [E|(Hr & e' & He' & Ho)].
  - rewrite E. destruct (obj_is (obj e) o) eqn:Ho; [|left; reflexivity].
    right. unfold len. simpl length. split; [lia|].
    exists e. rewrite Z.sub_diag. simpl. auto.
  - right. unfold len in *. simpl length. split; [lia|].
    exists e'. split; [|exact Ho].
    replace (Z.to_nat (lastIndexOf es o (i + 1) (if obj_is (obj e) o then i else idx) - i))
      with (S (Z.to_nat (lastIndexOf es o (i + 1) (if obj_is (obj e) o then i else idx) - (i + 1))))
      by lia.
    exact He'.
Qed.

(** The run of [insert] on a tree whose root is a leaf with room. *)
Lemma insert_into_root_leaf fuel s a r e lvl :
  Root (tree s) = Some a -> heap s !! a = Some r -> isLeaf r = true ->
  child e = None -> len (entries r) < MaxBranch (tree s) -> (0 < fuel)%nat ->
  insert fuel e lvl s
  = Done (tt, mkState
                (<[a := mkNode (parent r) (isLeaf r) (entries r ++ [e]) (level r)]>
                   (heap s))
                (tree s)).
Proof.
  intros Hroot Hr Hleaf He Hroom Hfuel. destruct fuel as [|fuel]; [lia|].
  set (r' := mkNode (parent r) (isLeaf r) (entries r ++ [e]) (level r)).
  set (s1 := mkState (<[a := r']> (heap s)) (tree s)).
  assert (Hlen : (len (entries r ++ [e]) >? MaxBranch (tree s)) = false).
  { rewrite Z.gtb_ltb. apply Z.ltb_ge. unfold len in *. rewrite length_app. simpl. lia. }
  unfold insert.
  rewrite (bind_Done getTree _ s (tree s) s eq_refl).
  rewrite (bind_Done (chooseNode (S fuel) (Root (tree s)) e lvl) _ s (Some a) s).
  2:{ cbn [chooseNode]. rewrite Hroot.
      rewrite (bind_Done _ _ s r s (load_Some s a r Hr)).
      rewrite Hleaf. reflexivity. }
  rewrite (bind_Done _ _ s r s (load_Some s a r Hr)).
  rewrite (bind_Done _ _ s tt s1 (set_entries_Some s a r _ Hr)).
  rewrite (bind_Done (reparent e (Some a)) _ s1 tt s1).
  2:{ unfold reparent. rewrite He. reflexivity. }
  rewrite Hlen. cbv iota.
  rewrite (bind_Done (ret (Some a : ptr, None : ptr)) _ s1 _ s1 eq_refl).
  rewrite (bind_Done (adjustTree (S fuel) (Some a) None) _ s1 (None, None) s1).
  2:{ cbn [adjustTree].
      rewrite (bind_Done getTree _ s1 (tree s) s1 eq_refl).
      rewrite Hroot, (ptr_eqb_refl (Some a)). reflexivity. }
  reflexivity.
Qed.

Lemma lastIndexOf_middle o e es2 : forall es1 i idx,
  obj_is (obj e) o = true ->
  Forall (fun e' => obj_is (obj e') o = false) es2 ->
  lastIndexOf (es1 ++ e :: es2) o i idx = i + len es1.
Proof.
  induction es1 as [|e0 es1 IH]; intros i idx He Hes2; simpl.
  - rewrite He, (lastIndexOf_absent o es2 _ _ Hes2). unfold len. simpl. lia.
  - rewrite IH by assumption. unfold len. simpl length. lia.
Qed.

(** X8: on a tree whose root is a leaf with room ([len(entries) <
    MaxBranch]), [Insert(obj)] appends the entry [{obj.ToRect(), nil, obj}]
    to the root, adds one to Size and changes nothing else: no split, same
    root, same Height. *)
Theorem Insert_into_root_leaf fuel s a r o :
  Root (tree s) = Some a -> heap s !! a = Some r -> isLeaf r = true ->
  len (entries r) < MaxBranch (tree s) -> (0 < fuel)%nat ->
  Insert fuel o s
  = Done (tt, mkState
                (<[a := mkNode (parent r) (isLeaf r)
                          (entries r ++ [mkEntry (ToRect o) None (Some o)]) (level r)]>
                   (heap s))
                (mkTree (MinBranch (tree s)) (MaxBranch (tree s)) (Root (tree s))
                        (Size (tree s) + 1) (Height (tree s)))).
Proof.
  intros Hroot Hr Hleaf Hroom Hfuel. unfold Insert.
  rewrite (bind_Done _ _ s tt _
             (insert_into_root_leaf fuel s a r (mkEntry (ToRect o) None (Some o)) 1
                Hroot Hr Hleaf eq_refl Hroom Hfuel)).
  reflexivity.
Qed.

Lemma Insert_into_root_leaf_witness :
  Root (tree single) = Some 0%nat /\
  heap single !! 0%nat = Some (mkNode None true [leafEntry a1] 1) /\
  Insert 1 b1 single
  = Done (tt, mkState [mkNode None true [leafEntry a1; leafEntry b1] 1]
                (mkTree 2 4 (Some 0%nat) 2 1)).
Proof.
  split; [reflexivity|]. split; [reflexivity|].
  apply (Insert_into_root_leaf 1 single 0 (mkNode None true [leafEntry a1] 1) b1);
    [reflexivity | reflexivity | reflexivity | reflexivity | lia].
Defined.

(** *** The bookkeeping of Insert and Delete *)

Lemma bind_inv {S A B} (m : M S A) (k : A -> M S B) s r :
  bind m k s = Done r -> exists a s1, m s = Done (a, s1) /\ k a s1 = Done r.
Proof.
  unfold bind. destruct (m s) as [[a s1]| |]; try discriminate.
  intros Hk. exists a, s1. split; [reflexivity | exact Hk].
Qed.

Lemma keeps_ret c {A} (a : A) : keeps c (ret a).
Proof. intros s a' s' Hc H. injection H as _ <-. exact Hc. Qed.

Lemma keeps_panic c {A} : keeps c (@panic state A).
Proof. intros s a s' _ H. discriminate. Qed.

Lemma keeps_exhausted c {A} : keeps c (@exhausted state A).
Proof. intros s a s' _ H. discriminate. Qed.

Lemma keeps_bind c {A B} (m : M state A) (k : A -> M state B) :
  keeps c m -> (forall a, keeps c (k a)) -> keeps c (bind m k).
Proof.
  intros Hm Hk s b s' Hc H. apply bind_inv in H as (a & s1 & H1 & H2).
  eapply Hk; [|exact H2]. eapply Hm; [exact Hc | exact H1].
Qed.

Lemma keeps_getTree_bind c {B} (k : Rtree -> M state B) :
  (forall t, counts t = c -> keeps c (k t)) -> keeps c (bind getTree k).
Proof.
  intros Hk s b s' Hc H. apply bind_inv in H as (t & s1 & H1 & H2).
  injection H1 as <- <-. eapply Hk; [exact Hc | exact Hc | exact H2].
Qed.

Lemma keeps_readonly c {A} (m : M state A) : readonly m -> keeps c m.
Proof. intros Hm s a s' Hc H. apply Hm in H. subst s'. exact Hc. Qed.

Lemma keeps_load c p : keeps c (load p).
Proof. apply keeps_readonly, readonly_load. Qed.

Lemma keeps_store c p n : keeps c (store p n).
Proof.
  intros s a s' Hc H. unfold store in H. destruct p as [a0|]; [|discriminate].
  destruct (a0 <? length (heap s))%nat; [|discriminate].
  injection H as _ <-. exact Hc.
Qed.

Lemma keeps_alloc c n : keeps c (alloc n).
Proof. intros s a s' Hc H. injection H as _ <-. exact Hc. Qed.

Lemma keeps_setTree c t : counts t = c -> keeps c (setTree t).
Proof. intros Ht s a s' _ H. injection H as _ <-. exact Ht. Qed.

Lemma keeps_lift c {A} (o : outcome A) : keeps c (lift o).
Proof.
  intros s a s' Hc H. unfold lift in H. destruct o; try discriminate.
  injection H as _ <-. exact Hc.
Qed.

Lemma keeps_set_entries c p es : keeps c (set_entries p es).
Proof. apply keeps_bind; [apply keeps_load|]. intros n. apply keeps_store. Qed.

Lemma keeps_set_parent c p q : keeps c (set_parent p q).
Proof. apply keeps_bind; [apply keeps_load|]. intros n. apply keeps_store. Qed.

Lemma keeps_set_entry_bb c p i r : keeps c (set_entry_bb p i r).
Proof.
  apply keeps_bind; [apply keeps_load|]. intros n.
  destruct (entries n !! i); [apply keeps_set_entries | apply keeps_panic].
Qed.

Lemma keeps_reparent c e q : keeps c (reparent e q).
Proof.
  unfold reparent. destruct (child e); [apply keeps_set_parent | apply keeps_ret].
Qed.

Lemma keeps_computeBoundingBox c n : keeps c (computeBoundingBox n).
Proof. apply keeps_bind; [apply keeps_load|]. intros nd. apply keeps_ret. Qed.

Lemma keeps_getEntry c n : keeps c (getEntry n).
Proof.
  apply keeps_bind; [apply keeps_load|]. intros nd.
  apply keeps_bind; [apply keeps_load|]. intros pn.
  destruct (indexOfChild (entries pn) n 0); [apply keeps_ret | apply keeps_panic].
Qed.

Lemma keeps_assign c e p : keeps c (assign e p).
Proof.
  apply keeps_bind; [apply keeps_reparent|]. intros _.
  apply keeps_bind; [apply keeps_load|]. intros sn. apply keeps_set_entries.
Qed.

Lemma keeps_assignGroup_loop c fuel : forall remaining left' right' minBranch vars,
  keeps c (assignGroup_loop fuel remaining left' right' minBranch vars).
Proof.
  induction fuel as [|fuel IH]; intros remaining left' right' minBranch vars; simpl.
  - destruct (len remaining >? 0); [apply keeps_exhausted | apply keeps_ret].
  - destruct (len remaining >? 0); [|apply keeps_ret].
    destruct vars as [[bl br] ni].
    apply keeps_bind; [apply keeps_computeBoundingBox|]. intros leftBB.
    apply keeps_bind; [apply keeps_computeBoundingBox|]. intros rightBB.
    destruct (assignGroup_scan leftBB rightBB 0 remaining (- (1), bl, br, ni)%Q)
      as [[[md bl'] br'] ni'].
    destruct (remaining !! ni'); [|apply keeps_panic].
    apply keeps_bind; [apply keeps_load|]. intros ln.
    apply keeps_bind; [apply keeps_load|]. intros rn.
    apply keeps_bind; [|intros _; apply IH].
    repeat match goal with |- keeps _ (if ?b then _ else _) => destruct b end;
      apply keeps_assign.
Qed.

Lemma keeps_split c n minBranch : keeps c (split n minBranch).
Proof.
  apply keeps_bind; [apply keeps_load|]. intros nd.
  destruct (pickSeeds (entries nd)) as [l r].
  destruct (entries nd !! l); [|apply keeps_panic].
  destruct (entries nd !! r); [|apply keeps_panic].
  apply keeps_bind; [apply keeps_set_entries|]. intros _.
  apply keeps_bind; [apply keeps_alloc|]. intros right'.
  apply keeps_bind; [apply keeps_reparent|]. intros _.
  apply keeps_bind; [apply keeps_reparent|]. intros _.
  apply keeps_bind; [apply keeps_assignGroup_loop|]. intros _.
  apply keeps_ret.
Qed.

Lemma keeps_chooseNode c fuel : forall n e lvl, keeps c (chooseNode fuel n e lvl).
Proof.
  induction fuel as [|fuel IH]; intros n e lvl; simpl; [apply keeps_exhausted|].
  apply keeps_bind; [apply keeps_load|]. intros nd.
  destruct (isLeaf nd || (level nd =? lvl)); [apply keeps_ret|].
  apply keeps_bind; [apply keeps_lift|]. intros chosen. apply IH.
Qed.

Lemma keeps_adjustTree c fuel : forall leaf sp, keeps c (adjustTree fuel leaf sp).
Proof.
  induction fuel as [|fuel IH]; intros leaf sp; simpl; [apply keeps_exhausted|].
  apply keeps_getTree_bind. intros t Ht.
  destruct (ptr_eqb leaf (Root t)).
  - destruct sp as [sa|]; [|apply keeps_ret].
    apply keeps_bind; [apply keeps_computeBoundingBox|]. intros lbb.
    apply keeps_bind; [apply keeps_computeBoundingBox|]. intros sbb.
    apply keeps_bind; [apply keeps_alloc|]. intros root.
    apply keeps_bind; [apply keeps_setTree, Ht|]. intros _.
    apply keeps_bind; [apply keeps_set_parent|]. intros _.
    apply keeps_bind; [apply keeps_set_parent|]. intros _.
    apply keeps_ret.
  - apply keeps_bind; [apply keeps_getEntry|]. intros [p i].
    apply keeps_bind; [apply keeps_computeBoundingBox|]. intros lbb.
    apply keeps_bind; [apply keeps_set_entry_bb|]. intros _.
    apply keeps_bind; [apply keeps_load|]. intros ln.
    destruct sp as [sa|]; [|apply IH].
    apply keeps_bind; [apply keeps_computeBoundingBox|]. intros sbb.
    apply keeps_bind; [apply keeps_load|]. intros pn.
    apply keeps_bind; [apply keeps_set_entries|]. intros _.
    destruct (len (entries pn ++ [mkEntry sbb (Some sa) None]) >? MaxBranch t);
      [|apply IH].
    apply keeps_bind; [apply keeps_split|]. intros [l r]. apply IH.
Qed.

Lemma keeps_insert c fuel e lvl : keeps c (insert fuel e lvl).
Proof.
  apply keeps_getTree_bind. intros t Ht.
  apply keeps_bind; [apply keeps_chooseNode|]. intros leaf.
  apply keeps_bind; [apply keeps_load|]. intros ln.
  apply keeps_bind; [apply keeps_set_entries|]. intros _.
  apply keeps_bind; [apply keeps_reparent|]. intros _.
  apply keeps_bind.
  - destruct (len (entries ln ++ [e]) >? MaxBranch t);
      [apply keeps_split | apply keeps_ret].
  - intros [leaf' sp]. apply keeps_bind; [apply keeps_adjustTree|]. intros _.
    apply keeps_ret.
Qed.

Lemma keeps_condenseTree_walk c fuel : forall n deletedNodes,
  keeps c (condenseTree_walk fuel n deletedNodes).
Proof.
  induction fuel as [|fuel IH]; intros n deletedNodes; simpl.
  - apply keeps_getTree_bind. intros t Ht.
    destruct (negb (ptr_eqb n (Root t))); [apply keeps_exhausted | apply keeps_ret].
  - apply keeps_getTree_bind. intros t Ht.
    destruct (negb (ptr_eqb n (Root t))); [|apply keeps_ret].
    apply keeps_bind; [apply keeps_load|]. intros nd.
    apply keeps_bind.
    + destruct (len (entries nd) <? MinBranch t).
      * apply keeps_bind; [apply keeps_load|]. intros pn.
        match goal with |- keeps _ (if ?b then _ else _) => destruct b end;
          [apply keeps_panic|].
        apply keeps_bind; [apply keeps_set_entries|]. intros _. apply keeps_ret.
      * apply keeps_bind; [apply keeps_getEntry|]. intros [p i].
        apply keeps_bind; [apply keeps_computeBoundingBox|]. intros b.
        apply keeps_bind; [apply keeps_set_entry_bb|]. intros _. apply keeps_ret.
    + intros deletedNodes'. apply keeps_bind; [apply keeps_load|]. intros nd'.
      apply IH.
Qed.

Lemma keeps_condenseTree_reinsert c fuel : forall deletedNodes,
  keeps c (condenseTree_reinsert fuel deletedNodes).
Proof.
  induction deletedNodes as [|n tl IH]; simpl; [apply keeps_ret|].
  apply keeps_bind; [apply keeps_computeBoundingBox|]. intros b.
  apply keeps_bind; [apply keeps_load|]. intros nd.
  apply keeps_bind; [apply keeps_insert|]. intros _. exact IH.
Qed.

Lemma keeps_condenseTree c fuel n : keeps c (condenseTree fuel n).
Proof.
  apply keeps_bind; [apply keeps_condenseTree_walk|]. intros deletedNodes.
  apply keeps_condenseTree_reinsert.
Qed.

Lemma readonly_findLeaf fuel : forall n o, readonly (findLeaf fuel n o).
Proof.
  induction fuel as [|fuel IH]; intros n o; simpl; [apply readonly_exhausted|].
  apply readonly_bind; [apply readonly_load|]. intros nd.
  destruct (isLeaf nd); [apply readonly_ret|].
  generalize (entries nd) as es.
  induction es as [|e tl IHes]; [apply readonly_ret|].
  destruct (containsRect (bb e) (ToRect o)); [|exact IHes].
  apply readonly_bind; [apply IH|]. intros leaf.
  destruct leaf as [la|]; [|exact IHes].
  apply readonly_bind; [apply readonly_load|]. intros lf.
  destruct (existsb (fun leafEntry => obj_is (obj leafEntry) o) (entries lf));
    [apply readonly_ret | exact IHes].
Qed.

(** X9: whatever [Insert] does to the nodes (append, split, new root), a
    call that returns has added exactly one to Size and has left MinBranch
    and MaxBranch as they were. *)
Theorem Insert_adds_one_to_Size fuel o s s' :
  Insert fuel o s = Done (tt, s') ->
  Size (tree s') = Size (tree s) + 1 /\
  MinBranch (tree s') = MinBranch (tree s) /\
  MaxBranch (tree s') = MaxBranch (tree s).
Proof.
  intros H. unfold Insert in H.
  apply bind_inv in H as (u & s1 & Hins & H).
  apply (keeps_insert (counts (tree s)) _ _ _ s u s1 eq_refl) in Hins.
  apply bind_inv in H as (t & s2 & Ht & H).
  injection Ht as <- <-. injection H as <-. simpl.
  injection Hins as -> -> ->. auto.
Qed.

Lemma Insert_adds_one_to_Size_witness :
  exists s',
    Insert 1 a1 fresh = Done (tt, s') /\
    Size (tree s') = Size (tree fresh) + 1 /\
    MinBranch (tree s') = MinBranch (tree fresh) /\
    MaxBranch (tree s') = MaxBranch (tree fresh).
Proof.
  assert (H : Insert 1 a1 fresh
              = Done (tt, mkState [mkNode None true [leafEntry a1] 1]
                            (mkTree 2 4 (Some 0%nat) 1 1)))
    by reflexivity.
  eexists. split; [exact H|].
  exact (Insert_adds_one_to_Size 1 a1 fresh _ H).
Defined.

(** X10: a call of [Delete] that returns false has changed nothing, neither
    the [Rtree] struct nor any node; a call that returns true has
    subtracted exactly one from Size and has left MinBranch and MaxBranch as
    they were. *)
Theorem Delete_false_or_one_less fuel o s b s' :
  Delete fuel o s = Done (b, s') ->
  if b then Size (tree s') = Size (tree s) - 1 /\
            MinBranch (tree s') = MinBranch (tree s) /\
            MaxBranch (tree s') = MaxBranch (tree s)
  else s' = s.
Proof.
  intros H. unfold Delete in H.
  apply bind_inv in H as (t & s0 & Ht & H). injection Ht as <- <-.
  apply bind_inv in H as (n & s1 & Hf & H).
  apply readonly_findLeaf in Hf. subst s1.
  destruct n as [a|]; [|injection H as <- <-; reflexivity].
  apply bind_inv in H as (nd & s1 & Hl & H).
  apply readonly_load in Hl. subst s1.
  destruct (lastIndexOf (entries nd) o 0 (-1) =? -1);
    [injection H as <- <-; reflexivity|].
  apply bind_inv in H as (u1 & s1 & H1 & H).
  apply (keeps_set_entries (counts (tree s)) _ _ s u1 s1 eq_refl) in H1.
  apply bind_inv in H as (u2 & s2 & H2 & H).
  apply (keeps_condenseTree (counts (tree s)) _ _ s1 u2 s2 H1) in H2.
  apply bind_inv in H as (t1 & s3 & Ht & H). injection Ht as <- <-.
  apply bind_inv in H as (u3 & s3 & H3 & H). injection H3 as _ <-.
  apply bind_inv in H as (t2 & s4 & Ht & H). injection Ht as <- <-.
  apply bind_inv in H as (rn & s4 & Hl & H).
  apply readonly_load in Hl. subst s4.
  apply bind_inv in H as (u5 & s5 & H5 & H). injection H as <- <-.
  injection H2 as Hmin Hmax Hsize.
  destruct (negb (isLeaf rn) && (len (entries rn) =? 1)).
  - simpl in H5. destruct (entries rn !! 0%nat); [|discriminate].
    injection H5 as _ <-. simpl. rewrite Hmin, Hmax, Hsize. auto.
  - injection H5 as _ <-. simpl. rewrite Hmin, Hmax, Hsize. auto.
Qed.

Lemma Delete_false_or_one_less_witness :
  exists s',
    Delete 1 a1 single = Done (true, s') /\
    Size (tree s') = Size (tree single) - 1 /\
    MinBranch (tree s') = MinBranch (tree single) /\
    MaxBranch (tree s') = MaxBranch (tree single).
Proof.
  assert (H : Delete 1 a1 single = Done (true, fresh)) by reflexivity.
  eexists. split; [exact H|].
  exact (Delete_false_or_one_less 1 a1 single true _ H).
Defined.

(** The run of [Delete] on a tree whose root is a leaf. *)
Lemma Delete_root_leaf_idx fuel s a r o :
  Root (tree s) = Some a -> heap s !! a = Some r -> isLeaf r = true ->
  (0 < fuel)%nat ->
  Delete fuel o s
  = if lastIndexOf (entries r) o 0 (-1) =? -1 then Done (false, s)
    else Done (true,
               mkState
                 (<[a := mkNode (parent r) (isLeaf r)
                           (delete (Z.to_nat (lastIndexOf (entries r) o 0 (-1))) (entries r))
                           (level r)]> (heap s))
                 (mkTree (MinBranch (tree s)) (MaxBranch (tree s)) (Root (tree s))
                         (Size (tree s) - 1) (Height (tree s)))).
Proof.
  intros Hroot Hr Hleaf Hfuel. destruct fuel as [|fuel]; [lia|].
  unfold Delete.
  rewrite (bind_Done getTree _ s (tree s) s eq_refl).
  rewrite (bind_Done (findLeaf (S fuel) (Root (tree s)) o) _ s (Some a) s).
  2:{ cbn [findLeaf]. rewrite Hroot.
      rewrite (bind_Done _ _ s r s (load_Some s a r Hr)).
      rewrite Hleaf. reflexivity. }
  cbv iota beta.
  rewrite (bind_Done _ _ s r s (load_Some s a r Hr)).
  cbv zeta.
  destruct (lastIndexOf (entries r) o 0 (-1) =? -1); [reflexivity|].
  set (r' := mkNode (parent r) (isLeaf r)
               (delete (Z.to_nat (lastIndexOf (entries r) o 0 (-1))) (entries r))
               (level r)).
  set (s1 := mkState (<[a := r']> (heap s)) (tree s)).
  rewrite (bind_Done _ _ s tt s1 (set_entries_Some s a r _ Hr)).
  rewrite (bind_Done (condenseTree (S fuel) (Some a)) _ s1 tt s1).
  2:{ unfold condenseTree.
      rewrite (bind_Done (condenseTree_walk (S fuel) (Some a) []) _ s1 [] s1);
        [reflexivity|].
      cbn [condenseTree_walk].
      rewrite (bind_Done getTree _ s1 (tree s) s1 eq_refl).
      rewrite Hroot, (ptr_eqb_refl (Some a)). reflexivity. }
  rewrite (bind_Done getTree _ s1 (tree s) s1 eq_refl).
  set (t' := mkTree (MinBranch (tree s)) (MaxBranch (tree s)) (Root (tree s))
               (Size (tree s) - 1) (Height (tree s))).
  set (s2 := mkState (<[a := r']> (heap s)) t').
  rewrite (bind_Done (setTree t') _ s1 tt s2 eq_refl).
  rewrite (bind_Done getTree _ s2 t' s2 eq_refl).
  assert (Hr' : heap s2 !! a = Some r').
  { apply list_lookup_insert_eq. apply lookup_lt_Some in Hr. exact Hr. }
  rewrite (bind_Done (load (Root t')) _ s2 r' s2).
  2:{ simpl Root. rewrite Hroot. apply load_Some, Hr'. }
  simpl isLeaf. rewrite Hleaf. reflexivity.
Qed.

(** X11: on a tree whose root is a leaf, [Delete(obj)] removes the last
    entry whose object is [obj] and no other, subtracts one from Size and
    returns true; an earlier entry with the same object stays. *)
Theorem Delete_from_root_leaf fuel s a r o es1 e es2 :
  Root (tree s) = Some a -> heap s !! a = Some r -> isLeaf r = true ->
  entries r = es1 ++ e :: es2 ->
  obj_is (obj e) o = true ->
  Forall (fun e' => obj_is (obj e') o = false) es2 ->
  (0 < fuel)%nat ->
  Delete fuel o s
  = Done (true,
          mkState
            (<[a := mkNode (parent r) (isLeaf r) (es1 ++ es2) (level r)]> (heap s))
            (mkTree (MinBranch (tree s)) (MaxBranch (tree s)) (Root (tree s))
                    (Size (tree s) - 1) (Height (tree s)))).
Proof.
  intros Hroot Hr Hleaf Hes He Hes2 Hfuel.
  rewrite (Delete_root_leaf_idx fuel s a r o Hroot Hr Hleaf Hfuel).
  rewrite Hes, (lastIndexOf_middle o e es2 es1 0 (-1) He Hes2).
  assert (Hne : (0 + len es1 =? -1) = false) by (apply Z.eqb_neq; unfold len; lia).
  rewrite Hne.
  replace (Z.to_nat (0 + len es1)) with (length es1) by (unfold len; lia).
  rewrite delete_middle. reflexivity.
Qed.

Lemma Delete_from_root_leaf_witness :
  Delete 1 a1 (mkState [mkNode None true [leafEntry a1; leafEntry b1; leafEntry a1; leafEntry b2] 1]
                 (mkTree 2 4 (Some 0%nat) 4 1))
  = Done (true,
          mkState [mkNode None true [leafEntry a1; leafEntry b1; leafEntry b2] 1]
            (mkTree 2 4 (Some 0%nat) 3 1)).
Proof.
  apply (Delete_from_root_leaf 1
           (mkState [mkNode None true [leafEntry a1; leafEntry b1; leafEntry a1; leafEntry b2] 1]
              (mkTree 2 4 (Some 0%nat) 4 1))
           0
           (mkNode None true [leafEntry a1; leafEntry b1; leafEntry a1; leafEntry b2] 1)
           a1 [leafEntry a1; leafEntry b1] (leafEntry a1) [leafEntry b2]);
    [reflexivity | reflexivity | reflexivity | reflexivity | reflexivity | | lia].
  repeat constructor.
Defined.

(** X12: on a tree whose root is a leaf that does not hold [obj],
    [Delete(obj)] returns false and leaves the memory as it was. *)
Theorem Delete_absent_from_root_leaf fuel s a r o :
  Root (tree s) = Some a -> heap s !! a = Some r -> isLeaf r = true ->
  Forall (fun e => obj_is (obj e) o = false) (entries r) ->
  (0 < fuel)%nat ->
  Delete fuel o s = Done (false, s).
Proof.
  intros Hroot Hr Hleaf Habs Hfuel.
  rewrite (Delete_root_leaf_idx fuel s a r o Hroot Hr Hleaf Hfuel).
  rewrite (lastIndexOf_absent o (entries r) 0 (-1) Habs). reflexivity.
Qed.

Lemma Delete_absent_from_root_leaf_witness :
  Delete 1 b1 single = Done (false, single) /\ Delete 1 a1 fresh = Done (false, fresh).
Proof.
  split.
  - apply (Delete_absent_from_root_leaf 1 single 0 (mkNode None true [leafEntry a1] 1) b1);
      [reflexivity | reflexivity | reflexivity | | lia].
    repeat constructor.
  - apply (Delete_absent_from_root_leaf 1 fresh 0 (mkNode None true [] 1) a1);
      [reflexivity | reflexivity | reflexivity | | lia].
    constructor.
Defined.

(** X13: on a tree whose root is a leaf with room, [Insert(obj)] followed
    by [Delete(obj)] returns true and ends in exactly the memory it started
    in, also when the leaf already held [obj]: the entry removed is the one
    just appended. *)
Theorem Insert_then_Delete_root_leaf fuel s a r o :
  Root (tree s) = Some a -> heap s !! a = Some r -> isLeaf r = true ->
  len (entries r) < MaxBranch (tree s) -> (0 < fuel)%nat ->
  (Insert fuel o ;; Delete fuel o) s = Done (true, s).
Proof.
  intros Hroot Hr Hleaf Hroom Hfuel.
  set (e := mkEntry (ToRect o) None (Some o)).
  set (r1 := mkNode (parent r) (isLeaf r) (entries r ++ [e]) (level r)).
  set (t1 := mkTree (MinBranch (tree s)) (MaxBranch (tree s)) (Root (tree s))
               (Size (tree s) + 1) (Height (tree s))).
  set (s1 := mkState (<[a := r1]> (heap s)) t1).
  assert (Hlt : (a < length (heap s))%nat) by (apply lookup_lt_Some in Hr; exact Hr).
  rewrite (bind_Done (Insert fuel o) _ s tt s1).
  2:{ unfold Insert.
      rewrite (bind_Done _ _ s tt _
                 (insert_into_root_leaf fuel s a r e 1 Hroot Hr Hleaf eq_refl Hroom Hfuel)).
      reflexivity. }
  assert (Hr1 : heap s1 !! a = Some r1) by (apply list_lookup_insert_eq, Hlt).
  rewrite (Delete_root_leaf_idx fuel s1 a r1 o Hroot Hr1 Hleaf Hfuel).
  assert (Ho : obj_is (obj e) o = true) by apply Nat.eqb_refl.
  simpl entries. rewrite (lastIndexOf_snoc o e (entries r) 0 (-1) Ho).
  assert (Hne : (0 + len (entries r) =? -1) = false)
    by (apply Z.eqb_neq; unfold len; lia).
  rewrite Hne.
  replace (Z.to_nat (0 + len (entries r))) with (length (entries r))
    by (unfold len; lia).
  rewrite delete_middle, app_nil_r. f_equal. f_equal.
  destruct s as [h t]. simpl in *. f_equal.
  - rewrite list_insert_insert_eq. apply list_insert_id.
    rewrite Hr. destruct r; reflexivity.
  - destruct t; simpl. f_equal. lia.
Qed.

Lemma Insert_then_Delete_root_leaf_witness :
  (Insert 1 a1 ;; Delete 1 a1) single = Done (true, single).
Proof.
  apply (Insert_then_Delete_root_leaf 1 single 0 (mkNode None true [leafEntry a1] 1) a1);
    [reflexivity | reflexivity | reflexivity | reflexivity | lia].
Defined.

(** *** Queries on an empty tree *)

(** X14: on a tree whose root has no entries, as [NewTree] returns it,
    [SearchIntersect] returns no object for every rectangle and [KNN]
    returns no object for every [k] with [0 <= k <= 2^44], the capacities
    [make] accepts, and every query object; both leave the memory as it
    was.  This holds for every heap implementation. *)
Theorem queries_on_empty_root `{H : heap.Impl _ Less} fuel s a r b k point :
  Root (tree s) = Some a -> heap s !! a = Some r -> entries r = [] ->
  (0 < fuel)%nat -> 0 <= k <= 2 ^ 44 ->
  SearchIntersect fuel b s = Done ([], s) /\
  KNN fuel k point s = Done ([], s).
Proof.
  intros Hroot Hr Hes Hfuel Hk. split.
  - destruct fuel as [|fuel]; [lia|]. unfold SearchIntersect.
    rewrite (bind_Done getTree _ s (tree s) s eq_refl), Hroot.
    cbn [searchIntersect].
    rewrite (bind_Done _ _ s r s (load_Some s a r Hr)), Hes. reflexivity.
  - unfold KNN. apply make_panics_16 in Hk. rewrite Hk.
    rewrite (bind_Done getTree _ s (tree s) s eq_refl), Hroot.
    rewrite (bind_Done _ _ s r s (load_Some s a r Hr)), Hes.
    destruct fuel; reflexivity.
Qed.

Lemma queries_on_empty_root_witness :
  SearchIntersect 1 plane fresh = Done ([], fresh) /\
  KNN (H := naiveQueue) 1 3 a1 fresh = Done ([], fresh).
Proof.
  apply (queries_on_empty_root (H := naiveQueue) 1 fresh 0 (mkNode None true [] 1) plane 3 a1);
    [reflexivity | reflexivity | reflexivity | lia | lia].
Defined.

(** *** The seeds of a split *)

Lemma pickSeeds_inner_bounds (n : nat) e1 i : forall rest j acc,
  seeds_ok n acc -> (i + 1 + j + length rest <= n)%nat ->
  seeds_ok n (pickSeeds_inner e1 i j rest acc).
Proof.
  induction rest as [|e2 tl IH]; intros j acc Hacc Hn; simpl; [exact Hacc|].
  simpl in Hn. apply IH; [|lia].
  destruct (gtb _ _); [|exact Hacc]. unfold seeds_ok. simpl. lia.
Qed.

Lemma pickSeeds_outer_bounds (n : nat) : forall es i acc,
  seeds_ok n acc -> (i + length es <= n)%nat ->
  seeds_ok n (pickSeeds_outer i es acc).
Proof.
  induction es as [|e1 tl IH]; intros i acc Hacc Hn; simpl; [exact Hacc|].
  simpl in Hn. apply IH; [|lia]. apply pickSeeds_inner_bounds; [exact Hacc | lia].
Qed.

Lemma pickSeeds_bounds es :
  (2 <= length es)%nat ->
  (fst (pickSeeds es) < snd (pickSeeds es) < length es)%nat.
Proof.
  intros Hn. unfold pickSeeds.
  apply (pickSeeds_outer_bounds (length es) es 0); [|lia].
  unfold seeds_ok. simpl. lia.
Qed.

(** X15: for a node with at least two entries, [pickSeeds] returns two
    different valid indices, the smaller one first: [left < right <
    len(entries)].  So the seeds of a split are two different entries and
    no index of [split] is out of range. *)
Theorem pickSeeds_in_range es :
  (2 <= length es)%nat ->
  exists l r eL eR,
    pickSeeds es = (l, r) /\ (l < r < length es)%nat /\
    es !! l = Some eL /\ es !! r = Some eR.
Proof.
  intros Hn. destruct (pickSeeds_bounds es Hn) as [Hlr Hr].
  destruct (pickSeeds es) as [l r] eqn:E. simpl in Hlr, Hr.
  destruct (lookup_lt_is_Some_2 es l) as [eL HL]; [lia|].
  destruct (lookup_lt_is_Some_2 es r) as [eR HR]; [lia|].
  exists l, r, eL, eR. auto.
Qed.

Lemma pickSeeds_in_range_witness :
  exists l r eL eR,
    pickSeeds [leafEntry wide1; leafEntry wide2; leafEntry short1; leafEntry short2] = (l, r) /\
    (l < r < 4)%nat /\
    [leafEntry wide1; leafEntry wide2; leafEntry short1; leafEntry short2] !! l = Some eL /\
    [leafEntry wide1; leafEntry wide2; leafEntry short1; leafEntry short2] !! r = Some eR.
Proof.
  apply (pickSeeds_in_range
           [leafEntry wide1; leafEntry wide2; leafEntry short1; leafEntry short2]).
  simpl. lia.
Defined.

(** *** The two halves of a split *)

Lemma set_parent_Some s c n q :
  heap s !! c = Some n ->
  set_parent (Some c) q s
  = Done (tt, mkState (<[c := mkNode q (isLeaf n) (entries n) (level n)]> (heap s)) (tree s)).
Proof.
  intros Hn. unfold set_parent. rewrite (bind_Done _ _ s n s (load_Some s c n Hn)).
  apply (store_Some s c n), Hn.
Qed.

Lemma computeBoundingBox_Some s a n :
  heap s !! a = Some n ->
  computeBoundingBox (Some a) s = Done (boundingBoxOf (entries n), s).
Proof.
  intros Hn. unfold computeBoundingBox.
  rewrite (bind_Done _ _ s n s (load_Some s a n Hn)). reflexivity.
Qed.

Lemma reparent_frame e q s :
  match child e with Some c => (c < length (heap s))%nat | None => True end ->
  exists s', reparent e q s = Done (tt, s') /\ tree s' = tree s /\
    length (heap s') = length (heap s) /\
    forall x, child e <> Some x -> heap s' !! x = heap s !! x.
Proof.
  intros Hc. unfold reparent. destruct (child e) as [c|].
  - destruct (lookup_lt_is_Some_2 (heap s) c Hc) as [n Hn].
    eexists. split; [apply (set_parent_Some s c n q Hn)|]. simpl.
    split; [reflexivity|]. split; [apply length_insert|].
    intros x Hx. apply list_lookup_insert_ne. congruence.
  - exists s. auto.
Qed.

Lemma assign_frame e x s p lf es lvl :
  heap s !! x = Some (mkNode p lf es lvl) ->
  match child e with Some c => (c < length (heap s))%nat /\ c <> x | None => True end ->
  exists s', assign e (Some x) s = Done (tt, s') /\ tree s' = tree s /\
    length (heap s') = length (heap s) /\
    heap s' !! x = Some (mkNode p lf (es ++ [e]) lvl) /\
    forall y, y <> x -> child e <> Some y -> heap s' !! y = heap s !! y.
Proof.
  intros Hx Hc.
  destruct (reparent_frame e (Some x) s) as (s1 & Hrun & Ht & Hlen & Hfr).
  { destruct (child e); [apply Hc | exact I]. }
  assert (Hx1 : heap s1 !! x = Some (mkNode p lf es lvl)).
  { rewrite Hfr; [exact Hx|]. intros E. rewrite E in Hc.
    destruct Hc as [_ Hc]. congruence. }
  eexists. split.
  { unfold assign. rewrite (bind_Done _ _ s tt s1 Hrun).
    rewrite (bind_Done _ _ s1 _ s1 (load_Some s1 x _ Hx1)).
    apply (set_entries_Some s1 x _ _ Hx1). }
  simpl. split; [exact Ht|]. split; [rewrite length_insert; exact Hlen|].
  split.
  - apply list_lookup_insert_eq. apply lookup_lt_Some in Hx1. exact Hx1.
  - intros y Hy Hcy. rewrite list_lookup_insert_ne by congruence. apply Hfr, Hcy.
Qed.

Lemma gtb_Qabs_minus_one d : gtb (Qabs d) (- (1))%Q = true.
Proof. apply ltb_lt. pose proof (Qabs_nonneg d). lra. Qed.

Lemma assignGroup_scan_range lBB rBB (lo hi : nat) : forall rem i acc,
  (lo <= snd acc < hi)%nat -> (lo <= i)%nat -> (i + length rem <= hi)%nat ->
  (lo <= snd (assignGroup_scan lBB rBB i rem acc) < hi)%nat.
Proof.
  induction rem as [|e tl IH]; intros i acc Hacc Hi Hn; simpl; [exact Hacc|].
  destruct acc as [[[md bl] br] ni]. simpl in Hn.
  apply IH; [|lia|lia].
  destruct (gtb _ md); simpl; [lia | exact Hacc].
Qed.

(** The stale [nextIdx] of the previous turn is never used: the first
    remaining entry always beats the initial [maxDiff] of -1. *)
Lemma assignGroup_scan_first lBB rBB e tl bl br ni :
  (snd (assignGroup_scan lBB rBB 0 (e :: tl) ((- (1))%Q, bl, br, ni))
   < length (e :: tl))%nat.
Proof.
  cbn [assignGroup_scan]. rewrite gtb_Qabs_minus_one.
  apply (assignGroup_scan_range lBB rBB 0 (S (length tl))); simpl; lia.
Qed.

Lemma len_snoc {A} (l : list A) x : len (l ++ [x]) = len l + 1.
Proof. unfold len. rewrite length_app. simpl. lia. Qed.

Lemma len_delete {A} (l : list A) i x :
  l !! i = Some x -> len (delete i l) = len l - 1.
Proof.
  intros Hx. unfold len. rewrite length_delete by (exists x; exact Hx).
  apply lookup_lt_Some in Hx. lia.
Qed.

Lemma handed_out_nil N t a b p lf lvl minB s L R :
  length (heap s) = N -> tree s = t ->
  heap s !! a = Some (mkNode p lf L lvl) ->
  heap s !! b = Some (mkNode p lf R lvl) ->
  handed_out N t a b p lf lvl minB s L R [] [] [] s.
Proof.
  intros HN Ht Ha Hb. unfold handed_out. rewrite !app_nil_r.
  split; [exact HN|]. split; [exact Ht|]. split; [exact Ha|]. split; [exact Hb|].
  split; [reflexivity|]. split; [reflexivity|].
  unfold len. simpl. lia.
Qed.

Lemma assignGroup_loop_spec a b p lf lvl t (N : nat) minB : a <> b ->
  forall fuel rem L R vars s,
  (length rem <= fuel)%nat ->
  length (heap s) = N -> tree s = t ->
  heap s !! a = Some (mkNode p lf L lvl) ->
  heap s !! b = Some (mkNode p lf R lvl) ->
  Forall (child_ok N a b) rem ->
  exists L1 R1 s',
    assignGroup_loop fuel rem (Some a) (Some b) minB vars s = Done (tt, s') /\
    handed_out N t a b p lf lvl minB s L R rem L1 R1 s'.
Proof.
  intros Hab. induction fuel as [|fuel IH]; intros rem L R vars s Hfuel HN Ht Ha Hb Hch.
  - destruct rem as [|e0 tl]; [|simpl in Hfuel; lia].
    exists [], [], s. split; [reflexivity|]. apply handed_out_nil; assumption.
  - destruct rem as [|e0 tl].
    { exists [], [], s. split; [reflexivity|]. apply handed_out_nil; assumption. }
    set (rem := e0 :: tl) in *.
    assert (Hpos : (len rem >? 0) = true) by reflexivity.
    destruct vars as [[bl0 br0] ni0].
    cbn [assignGroup_loop]. rewrite Hpos.
    rewrite (bind_Done _ _ s _ s (computeBoundingBox_Some s a _ Ha)).
    rewrite (bind_Done _ _ s _ s (computeBoundingBox_Some s b _ Hb)).
    cbn [entries].
    pose proof (assignGroup_scan_first (boundingBoxOf L) (boundingBoxOf R) e0 tl bl0 br0 ni0)
      as Hni.
    fold rem in Hni.
    destruct (assignGroup_scan (boundingBoxOf L) (boundingBoxOf R) 0 rem
                (- (1), bl0, br0, ni0)%Q) as [[[md bl] br] ni].
    cbn [snd] in Hni.
    destruct (lookup_lt_is_Some_2 rem ni Hni) as [nextE Hnext].
    rewrite Hnext.
    rewrite (bind_Done _ _ s _ s (load_Some s a _ Ha)).
    rewrite (bind_Done _ _ s _ s (load_Some s b _ Hb)).
    cbn [entries].
    assert (Hok : child_ok N a b nextE).
    { eapply Forall_lookup_1; [exact Hch | exact Hnext]. }
    assert (Hlenrem : len (delete ni rem) = len rem - 1) by (eapply len_delete, Hnext).
    assert (Hfuel' : (length (delete ni rem) <= fuel)%nat).
    { rewrite length_delete by (exists nextE; exact Hnext). simpl in Hfuel. 
      unfold rem. simpl. lia. }
    assert (Hch' : Forall (child_ok N a b) (delete ni rem)) by (apply Forall_delete, Hch).
    assert (GoL : (len L + len rem <= minB \/ minB < len R + len rem) ->
      exists L1 R1 s',
        (assign nextE (Some a) ;;
         assignGroup_loop fuel (delete ni rem) (Some a) (Some b) minB (bl, br, ni)) s
        = Done (tt, s') /\
        handed_out N t a b p lf lvl minB s L R rem L1 R1 s').
    { intros G.
      destruct (assign_frame nextE a s p lf L lvl Ha) as (s1 & Hrun & Ht1 & Hlen1 & Ha1 & Hfr1).
      { unfold child_ok in Hok. destruct (child nextE); [|exact I]. rewrite HN. tauto. }
      assert (Hb1 : heap s1 !! b = Some (mkNode p lf R lvl)).
      { rewrite Hfr1; [exact Hb | congruence |].
        unfold child_ok in Hok. destruct (child nextE); [|discriminate].
        intros E. injection E as ->. tauto. }
      destruct (IH (delete ni rem) (L ++ [nextE]) R (bl, br, ni) s1 Hfuel'
                  (eq_trans Hlen1 HN) (eq_trans Ht1 Ht) Ha1 Hb1 Hch')
        as (L1 & R1 & s' & Hloop & HN' & Ht' & Ha' & Hb' & Hperm & Hfr & Hcount).
      exists (nextE :: L1), R1, s'. split.
      { rewrite (bind_Done _ _ s tt s1 Hrun). exact Hloop. }
      unfold handed_out. rewrite <- app_assoc in Ha'. simpl in Ha'.
      split; [exact HN'|]. split; [exact Ht'|]. split; [exact Ha'|].
      split; [exact Hb'|]. split.
      { simpl. rewrite Hperm. symmetry. apply delete_Permutation, Hnext. }
      split.
      { intros x Hxa Hxb Hx. rewrite Hfr by (auto using Forall_delete).
        apply Hfr1; [exact Hxa|]. eapply Forall_lookup_1 in Hx; [|exact Hnext]. exact Hx. }
      intros C1 C2 C3. rewrite <- app_assoc in Hcount. simpl in Hcount.
      rewrite len_snoc, Hlenrem in Hcount.
      assert (1 <= len rem) by (unfold rem, len; simpl; lia).
      apply Hcount; lia. }
    assert (GoR : minB < len L + len rem ->
      exists L1 R1 s',
        (assign nextE (Some b) ;;
         assignGroup_loop fuel (delete ni rem) (Some a) (Some b) minB (bl, br, ni)) s
        = Done (tt, s') /\
        handed_out N t a b p lf lvl minB s L R rem L1 R1 s').
    { intros G.
      destruct (assign_frame nextE b s p lf R lvl Hb) as (s1 & Hrun & Ht1 & Hlen1 & Hb1 & Hfr1).
      { unfold child_ok in Hok. destruct (child nextE); [|exact I]. rewrite HN. tauto. }
      assert (Ha1 : heap s1 !! a = Some (mkNode p lf L lvl)).
      { rewrite Hfr1; [exact Ha | congruence |].
        unfold child_ok in Hok. destruct (child nextE); [|discriminate].
        intros E. injection E as ->. tauto. }
      destruct (IH (delete ni rem) L (R ++ [nextE]) (bl, br, ni) s1 Hfuel'
                  (eq_trans Hlen1 HN) (eq_trans Ht1 Ht) Ha1 Hb1 Hch')
        as (L1 & R1 & s' & Hloop & HN' & Ht' & Ha' & Hb' & Hperm & Hfr & Hcount).
      exists L1, (nextE :: R1), s'. split.
      { rewrite (bind_Done _ _ s tt s1 Hrun). exact Hloop. }
      unfold handed_out. rewrite <- app_assoc in Hb'. simpl in Hb'.
      split; [exact HN'|]. split; [exact Ht'|]. split; [exact Ha'|].
      split; [exact Hb'|]. split.
      { rewrite <- Permutation_middle, Hperm. symmetry.
        apply delete_Permutation, Hnext. }
      split.
      { intros x Hxa Hxb Hx. rewrite Hfr by (auto using Forall_delete).
        apply Hfr1; [exact Hxb|]. eapply Forall_lookup_1 in Hx; [|exact Hnext]. exact Hx. }
      intros C1 C2 C3. rewrite <- app_assoc in Hcount. simpl in Hcount.
      rewrite len_snoc, Hlenrem in Hcount.
      apply Hcount; lia. }
    destruct (len L + len rem <=? minB) eqn:E1.
    { apply GoL. left. apply Z.leb_le, E1. }
    apply Z.leb_gt in E1.
    destruct (len R + len rem <=? minB) eqn:E2.
    { apply GoR. exact E1. }
    apply Z.leb_gt in E2.
    repeat match goal with |- context [if ?c then _ else _] => destruct c end;
      first [apply GoL; right; exact E2 | apply GoR; exact E1].
Qed.

Lemma seeds_remaining {A} (es : list A) (l r : nat) eL eR :
  (l < r)%nat -> es !! l = Some eL -> es !! r = Some eR ->
  es ≡ₚ eL :: eR :: (take l es ++ take (r - (l + 1)) (drop (l + 1) es)
                       ++ drop (r + 1) es).
Proof.
  intros Hlr HL HR.
  assert (HD : drop (l + 1) es !! (r - (l + 1))%nat = Some eR).
  { rewrite lookup_drop. replace (l + 1 + (r - (l + 1)))%nat with r by lia. exact HR. }
  assert (E : es = take l es ++ eL :: take (r - (l + 1)) (drop (l + 1) es)
                     ++ eR :: drop (r + 1) es).
  { rewrite <- (take_drop_middle es l eL HL) at 1. f_equal. f_equal.
    replace (S l) with (l + 1)%nat by lia.
    rewrite <- (take_drop_middle _ _ eR HD) at 1. f_equal. f_equal.
    rewrite drop_drop. f_equal. lia. }
  rewrite E at 1. rewrite <- Permutation_middle. apply perm_skip.
  rewrite app_assoc, <- Permutation_middle, <- app_assoc. reflexivity.
Qed.

(** The run of [split] on a node with at least two entries whose children
    (if any) are allocated nodes other than the node itself. *)
Lemma split_spec s a nd minB :
  heap s !! a = Some nd ->
  (2 <= length (entries nd))%nat -> 2 * minB <= len (entries nd) ->
  Forall (child_ok (length (heap s)) a (length (heap s))) (entries nd) ->
  exists l r eL eR L1 R1 s',
    pickSeeds (entries nd) = (l, r) /\
    entries nd !! l = Some eL /\ entries nd !! r = Some eR /\
    split (Some a) minB s = Done ((Some a, Some (length (heap s))), s') /\
    tree s' = tree s /\ length (heap s') = S (length (heap s)) /\
    heap s' !! a = Some (mkNode (parent nd) (isLeaf nd) (eL :: L1) (level nd)) /\
    heap s' !! length (heap s)
      = Some (mkNode (parent nd) (isLeaf nd) (eR :: R1) (level nd)) /\
    (eL :: L1) ++ (eR :: R1) ≡ₚ entries nd /\
    minB <= len (eL :: L1) /\ minB <= len (eR :: R1) /\
    (forall x, x <> a -> (x < length (heap s))%nat ->
               Forall (fun e => child e <> Some x) (entries nd) ->
               heap s' !! x = heap s !! x).
Proof.
  intros Ha Hn Hmin Hch.
  set (N := length (heap s)) in *.
  assert (HaN : (a < N)%nat) by (apply lookup_lt_Some in Ha; exact Ha).
  destruct (pickSeeds_bounds (entries nd) Hn) as [Hlr Hr].
  destruct (pickSeeds (entries nd)) as [l r] eqn:Eseeds. simpl in Hlr, Hr.
  destruct (lookup_lt_is_Some_2 (entries nd) l) as [eL HL]; [lia|].
  destruct (lookup_lt_is_Some_2 (entries nd) r) as [eR HR]; [lia|].
  set (rem := take l (entries nd) ++ take (r - (l + 1)) (drop (l + 1) (entries nd))
                ++ drop (r + 1) (entries nd)).
  pose proof (seeds_remaining (entries nd) l r eL eR Hlr HL HR) as Hperm.
  fold rem in Hperm.
  assert (Hall : Forall (child_ok N a N) (eL :: eR :: rem)) by (rewrite <- Hperm; exact Hch).
  apply Forall_cons in Hall as [HokL Hall]. apply Forall_cons in Hall as [HokR Hrem].
  set (nodeL := mkNode (parent nd) (isLeaf nd) [eL] (level nd)).
  set (nodeR := mkNode (parent nd) (isLeaf nd) [eR] (level nd)).
  set (s1 := mkState (<[a := nodeL]> (heap s)) (tree s)).
  set (s2 := mkState (heap s1 ++ [nodeR]) (tree s)).
  assert (HN1 : length (heap s1) = N) by apply length_insert.
  assert (HN2 : length (heap s2) = S N).
  { simpl. rewrite length_app, length_insert. simpl. fold N. lia. }
  assert (Ha2 : heap s2 !! a = Some nodeL).
  { simpl. rewrite lookup_app_l by (rewrite length_insert; exact HaN).
    apply list_lookup_insert_eq, HaN. }
  assert (Hb2 : heap s2 !! N = Some nodeR).
  { simpl. rewrite lookup_app_r by (rewrite length_insert; fold N; lia).
    rewrite length_insert. fold N. rewrite Nat.sub_diag. reflexivity. }
  destruct (reparent_frame eR (Some N) s2) as (s3 & Hrun3 & Ht3 & Hlen3 & Hfr3).
  { unfold child_ok in HokR. destruct (child eR); [|exact I]. rewrite HN2. lia. }
  destruct (reparent_frame eL (Some a) s3) as (s4 & Hrun4 & Ht4 & Hlen4 & Hfr4).
  { unfold child_ok in HokL. destruct (child eL); [|exact I]. rewrite Hlen3, HN2. lia. }
  assert (HneL : forall x, (x = a \/ x = N) -> child eL <> Some x).
  { intros x Hx E. unfold child_ok in HokL. rewrite E in HokL. lia. }
  assert (HneR : forall x, (x = a \/ x = N) -> child eR <> Some x).
  { intros x Hx E. unfold child_ok in HokR. rewrite E in HokR. lia. }
  assert (Ha4 : heap s4 !! a = Some nodeL).
  { rewrite Hfr4, Hfr3; auto. }
  assert (Hb4 : heap s4 !! N = Some nodeR).
  { rewrite Hfr4, Hfr3; auto. }
  assert (Hrem' : Forall (child_ok (S N) a N) rem).
  { eapply Forall_impl; [exact Hrem|]. intros e He. unfold child_ok in *.
    destruct (child e); [lia | exact I]. }
  destruct (assignGroup_loop_spec a N (parent nd) (isLeaf nd) (level nd) (tree s) (S N) minB
              ltac:(lia) (length rem) rem [eL] [eR] (0%Q, 0%Q, 0%nat) s4
              (le_n _) (eq_trans Hlen4 (eq_trans Hlen3 HN2)) (eq_trans Ht4 Ht3)
              Ha4 Hb4 Hrem')
    as (L1 & R1 & s' & Hloop & HN' & Ht' & Ha' & Hb' & Hp & Hfr & Hcount).
  exists l, r, eL, eR, L1, R1, s'.
  split; [reflexivity|]. split; [exact HL|]. split; [exact HR|]. split.
  { unfold split. rewrite (bind_Done _ _ s nd s (load_Some s a nd Ha)).
    rewrite Eseeds. cbv iota beta. rewrite HL, HR.
    rewrite (bind_Done _ _ s tt s1 (set_entries_Some s a nd _ Ha)).
    rewrite (bind_Done (alloc nodeR) _ s1 (Some N) s2).
    2:{ unfold alloc. rewrite HN1. reflexivity. }
    rewrite (bind_Done _ _ s2 tt s3 Hrun3).
    rewrite (bind_Done _ _ s3 tt s4 Hrun4).
    unfold assignGroup. fold rem.
    rewrite (bind_Done _ _ s4 tt s' Hloop). reflexivity. }
  split; [exact Ht'|]. split; [exact HN'|]. split; [exact Ha'|]. split; [exact Hb'|].
  assert (Hlen : len (entries nd) = 2 + len rem).
  { unfold len. rewrite (Permutation_length Hperm). simpl. lia. }
  split.
  { rewrite Hperm. simpl. apply perm_skip. rewrite <- Permutation_middle.
    apply perm_skip. exact Hp. }
  assert (Hc : minB <= len ([eL] ++ L1) /\ minB <= len ([eR] ++ R1)).
  { apply Hcount; unfold len in *; simpl; lia. }
  split; [apply Hc|]. split; [apply Hc|].
  intros x Hxa HxN Hx.
  rewrite Hperm in Hx. apply Forall_cons in Hx as [HxL Hx]. apply Forall_cons in Hx as [HxR Hx].
  rewrite Hfr by (auto; lia). rewrite Hfr4, Hfr3 by assumption.
  simpl. rewrite lookup_app_l by (rewrite length_insert; exact HxN).
  apply list_lookup_insert_ne. congruence.
Qed.

(** X16: [split] of a node with at least two entries, and at least
    [2*minBranch] of them, whose children (if any) are allocated nodes other
    than the node itself, and whose rectangles have corners within [2^500]
    and cached sizes within [2^1000] in absolute value.  The call returns
    the node and a newly allocated sibling with the same parent, isLeaf and
    level.  The entries of the two together are exactly the entries the
    node had (none lost, none twice), neither of the two is empty, and each
    holds at least [minBranch] entries.  The [Rtree] struct is untouched.

    The bound on the rectangles is there for the code, not for the model:
    it keeps every area and every difference of areas of the run a finite
    float64.  Without it an area can overflow, [math.Abs(leftDiff -
    rightDiff)] can be a NaN that no comparison of [assignGroup] selects,
    and [remaining[nextIdx]] then reads a stale index.  With it the scan of
    [assignGroup] always selects an index in range, and the properties
    stated here do not depend on which one. *)
Theorem split_halves s a nd minB :
  heap s !! a = Some nd ->
  (2 <= length (entries nd))%nat -> 2 * minB <= len (entries nd) ->
  Forall (child_ok (length (heap s)) a (length (heap s))) (entries nd) ->
  Forall (fun e => in_range (bb e)) (entries nd) ->
  exists L R s',
    split (Some a) minB s = Done ((Some a, Some (length (heap s))), s') /\
    tree s' = tree s /\
    heap s' !! a = Some (mkNode (parent nd) (isLeaf nd) L (level nd)) /\
    heap s' !! length (heap s) = Some (mkNode (parent nd) (isLeaf nd) R (level nd)) /\
    L ++ R ≡ₚ entries nd /\ L <> [] /\ R <> [] /\
    minB <= len L /\ minB <= len R.
Proof.
  intros Ha Hn Hmin Hch _.
  destruct (split_spec s a nd minB Ha Hn Hmin Hch)
    as (l & r & eL & eR & L1 & R1 & s' & _ & _ & _ & Hrun & Ht & _ & HL & HR & Hp
        & HmL & HmR & _).
  exists (eL :: L1), (eR :: R1), s'.
  split; [exact Hrun|]. split; [exact Ht|]. split; [exact HL|]. split; [exact HR|].
  split; [exact Hp|]. split; [discriminate|]. split; [discriminate|]. auto.
Qed.

Lemma split_halves_witness :
  Forall (fun e => in_range (bb e))
    [leafEntry a1; leafEntry b1; leafEntry a2; leafEntry b2] /\
  exists L R s',
    split (Some 0%nat) 2
      (mkState [mkNode None true [leafEntry a1; leafEntry b1; leafEntry a2; leafEntry b2] 1]
         (mkTree 2 3 (Some 0%nat) 3 1))
    = Done ((Some 0%nat, Some 1%nat), s') /\
    heap s' !! 0%nat = Some (mkNode None true L 1) /\
    heap s' !! 1%nat = Some (mkNode None true R 1) /\
    L ++ R ≡ₚ [leafEntry a1; leafEntry b1; leafEntry a2; leafEntry b2] /\
    2 <= len L /\ 2 <= len R.
Proof.
  assert (Hr : Forall (fun e => in_range (bb e))
                 [leafEntry a1; leafEntry b1; leafEntry a2; leafEntry b2]).
  { repeat constructor; discriminate. }
  split; [exact Hr|].
  destruct (split_halves
              (mkState [mkNode None true [leafEntry a1; leafEntry b1; leafEntry a2; leafEntry b2] 1]
                 (mkTree 2 3 (Some 0%nat) 3 1))
              0 (mkNode None true [leafEntry a1; leafEntry b1; leafEntry a2; leafEntry b2] 1) 2)
    as (L & R & s' & Hrun & _ & HL & HR & Hp & _ & _ & HmL & HmR).
  - reflexivity.
  - simpl. lia.
  - unfold len. simpl. lia.
  - repeat constructor.
  - exact Hr.
  - exists L, R, s'. auto 10.
Defined.

(** *** A full root leaf splits and the tree grows *)

(** X17: [Insert(obj)] into a tree whose root is a full leaf ([len(entries)
    = MaxBranch], with [MaxBranch >= 1] and [2*MinBranch <= MaxBranch+1]),
    where the rectangles of the entries and of [obj] have corners within
    [2^500] and cached sizes within [2^1000] in absolute value (so that
    the areas that [split] compares are finite float64s and none is a NaN),
    splits the root and grows the tree by one level: two nodes are
    allocated, the sibling leaf and a new root; the new root is internal, at
    level [Height+1], with no parent and exactly two entries, one per leaf,
    each with the bounding box of its leaf; both leaves point to the new
    root as their parent; the entries of the two leaves together are the old
    entries and the new one; each leaf holds at least [MinBranch] entries;
    Size and Height have each grown by one; no other node is written. *)
Theorem Insert_splits_full_root_leaf fuel s a r o :
  Root (tree s) = Some a -> heap s !! a = Some r -> isLeaf r = true ->
  Forall (fun e => child e = None) (entries r) ->
  len (entries r) = MaxBranch (tree s) -> 1 <= MaxBranch (tree s) ->
  2 * MinBranch (tree s) <= MaxBranch (tree s) + 1 ->
  Forall (fun e => in_range (bb e)) (entries r) -> in_range (ToRect o) ->
  (0 < fuel)%nat ->
  exists L R s',
    Insert fuel o s = Done (tt, s') /\
    tree s' = mkTree (MinBranch (tree s)) (MaxBranch (tree s)) (Some (S (length (heap s))))
                (Size (tree s) + 1) (Height (tree s) + 1) /\
    length (heap s') = S (S (length (heap s))) /\
    heap s' !! S (length (heap s))
      = Some (mkNode None false
                [mkEntry (boundingBoxOf L) (Some a) None;
                 mkEntry (boundingBoxOf R) (Some (length (heap s))) None]
                (Height (tree s) + 1)) /\
    heap s' !! a = Some (mkNode (Some (S (length (heap s)))) true L (level r)) /\
    heap s' !! length (heap s)
      = Some (mkNode (Some (S (length (heap s)))) true R (level r)) /\
    L ++ R ≡ₚ entries r ++ [mkEntry (ToRect o) None (Some o)] /\
    MinBranch (tree s) <= len L /\ MinBranch (tree s) <= len R /\
    (forall x, x <> a -> (x < length (heap s))%nat -> heap s' !! x = heap s !! x).
Proof.
  intros Hroot Hr Hleaf Hnoch Hfull Hmax Hmin _ _ Hfuel.
  destruct fuel as [|fuel]; [lia|].
  set (N := length (heap s)).
  assert (HaN : (a < N)%nat) by (apply lookup_lt_Some in Hr; exact Hr).
  set (e := mkEntry (ToRect o) None (Some o)).
  set (r1 := mkNode (parent r) (isLeaf r) (entries r ++ [e]) (level r)).
  set (s1 := mkState (<[a := r1]> (heap s)) (tree s)).
  assert (HN1 : length (heap s1) = N) by apply length_insert.
  assert (Hr1 : heap s1 !! a = Some r1) by (apply list_lookup_insert_eq, HaN).
  assert (Hlen1 : len (entries r1) = MaxBranch (tree s) + 1).
  { simpl. rewrite len_snoc. lia. }
  destruct (split_spec s1 a r1 (MinBranch (tree s)) Hr1)
    as (l & r' & eL & eR & L1 & R1 & s2 & _ & _ & _ & Hsplit & Ht2 & HN2 & Ha2 & Hb2
        & Hperm & HmL & HmR & Hfr2).
  { unfold len in Hlen1. lia. }
  { lia. }
  { simpl. apply Forall_app. split.
    - eapply Forall_impl; [exact Hnoch|]. intros e0 He0. unfold child_ok. rewrite He0. exact I.
    - repeat constructor. }
  rewrite HN1 in *. simpl parent in *. simpl isLeaf in *. simpl level in *.
  rewrite Hleaf in *.
  destruct s2 as [h2 t2]. simpl in Ht2, HN2, Ha2, Hb2, Hfr2. subst t2.
  set (L := eL :: L1) in *. set (R := eR :: R1) in *.
  set (h := Height (tree s) + 1).
  set (rootnode := mkNode None false
                     [mkEntry (boundingBoxOf L) (Some a) None;
                      mkEntry (boundingBoxOf R) (Some N) None] h).
  set (t' := mkTree (MinBranch (tree s)) (MaxBranch (tree s)) (Some (S N))
               (Size (tree s)) h).
  set (nodeL := mkNode (Some (S N)) true L (level r)).
  set (nodeR := mkNode (Some (S N)) true R (level r)).
  set (s2 := mkState h2 (tree s)) in *.
  set (s3 := mkState (h2 ++ [rootnode]) (tree s)).
  set (s4 := mkState (h2 ++ [rootnode]) t').
  set (s5 := mkState (<[a := nodeL]> (h2 ++ [rootnode])) t').
  set (s6 := mkState (<[N := nodeR]> (<[a := nodeL]> (h2 ++ [rootnode]))) t').
  assert (Ha4 : heap s4 !! a = Some (mkNode (parent r) true L (level r))).
  { simpl. rewrite lookup_app_l by lia. exact Ha2. }
  assert (Hb5 : heap s5 !! N = Some (mkNode (parent r) true R (level r))).
  { simpl. rewrite list_lookup_insert_ne by lia. rewrite lookup_app_l by lia. exact Hb2. }
  assert (Hadj : adjustTree (S fuel) (Some a) (Some N) s2 = Done ((Some a, Some N), s6)).
  { cbn [adjustTree].
    rewrite (bind_Done getTree _ s2 (tree s) s2 eq_refl).
    rewrite Hroot, (ptr_eqb_refl (Some a)).
    rewrite (bind_Done _ _ s2 _ s2 (computeBoundingBox_Some s2 a _ Ha2)).
    rewrite (bind_Done _ _ s2 _ s2 (computeBoundingBox_Some s2 N _ Hb2)).
    cbn [entries]. fold h. fold rootnode.
    rewrite (bind_Done (alloc rootnode) _ s2 (Some (S N)) s3).
    2:{ unfold alloc. simpl. rewrite HN2. reflexivity. }
    fold t'.
    rewrite (bind_Done (setTree t') _ s3 tt s4 eq_refl).
    rewrite (bind_Done _ _ s4 tt s5 (set_parent_Some s4 a _ (Some (S N)) Ha4)).
    rewrite (bind_Done _ _ s5 tt s6 (set_parent_Some s5 N _ (Some (S N)) Hb5)).
    reflexivity. }
  assert (Hlen : (len (entries r ++ [e]) >? MaxBranch (tree s)) = true).
  { rewrite Z.gtb_ltb. apply Z.ltb_lt. rewrite len_snoc. lia. }
  assert (Hins : insert (S fuel) e 1 s = Done (tt, s6)).
  { unfold insert.
    rewrite (bind_Done getTree _ s (tree s) s eq_refl).
    rewrite (bind_Done (chooseNode (S fuel) (Root (tree s)) e 1) _ s (Some a) s).
    2:{ cbn [chooseNode]. rewrite Hroot.
        rewrite (bind_Done _ _ s r s (load_Some s a r Hr)).
        rewrite Hleaf. reflexivity. }
    rewrite (bind_Done _ _ s r s (load_Some s a r Hr)).
    rewrite (bind_Done _ _ s tt s1 (set_entries_Some s a r _ Hr)).
    rewrite (bind_Done (reparent e (Some a)) _ s1 tt s1 eq_refl).
    rewrite Hlen. cbv iota.
    rewrite (bind_Done _ _ s1 _ s2 Hsplit).
    rewrite (bind_Done _ _ s2 _ s6 Hadj). reflexivity. }
  exists L, R, (mkState (heap s6) (mkTree (MinBranch (tree s)) (MaxBranch (tree s))
                                     (Some (S N)) (Size (tree s) + 1) h)).
  split.
  { unfold Insert. fold e. rewrite (bind_Done _ _ s tt s6 Hins).
    rewrite (bind_Done getTree _ s6 t' s6 eq_refl). reflexivity. }
  split; [reflexivity|]. split.
  { simpl. rewrite !length_insert, length_app. simpl. lia. }
  split.
  { simpl. rewrite !list_lookup_insert_ne by lia.
    rewrite lookup_app_r by lia. rewrite HN2, Nat.sub_diag. reflexivity. }
  split.
  { simpl. rewrite list_lookup_insert_ne by lia.
    apply list_lookup_insert_eq. rewrite length_app. lia. }
  split.
  { simpl. apply list_lookup_insert_eq. rewrite length_insert, length_app. lia. }
  split; [exact Hperm|]. split; [exact HmL|]. split; [exact HmR|].
  intros x Hxa HxN. simpl.
  rewrite !list_lookup_insert_ne by lia. rewrite lookup_app_l by lia.
  rewrite Hfr2; [| exact Hxa | lia |].
  - simpl. apply list_lookup_insert_ne. congruence.
  - simpl. apply Forall_app. split.
    + eapply Forall_impl; [exact Hnoch|]. intros e0 He0. rewrite He0. discriminate.
    + repeat constructor. discriminate.
Qed.

Lemma Insert_splits_full_root_leaf_witness :
  (Forall (fun e => in_range (bb e))
     [leafEntry a1; leafEntry b1; leafEntry a2; leafEntry b2] /\
   in_range (ToRect b3)) /\
  exists L R s',
    Insert 1 b3
      (mkState [mkNode None true [leafEntry a1; leafEntry b1; leafEntry a2; leafEntry b2] 1]
         (mkTree 2 4 (Some 0%nat) 4 1))
    = Done (tt, s') /\
    tree s' = mkTree 2 4 (Some 2%nat) 5 2 /\
    L ++ R ≡ₚ [leafEntry a1; leafEntry b1; leafEntry a2; leafEntry b2; leafEntry b3] /\
    2 <= len L /\ 2 <= len R.
Proof.
  assert (Hr : Forall (fun e => in_range (bb e))
                 [leafEntry a1; leafEntry b1; leafEntry a2; leafEntry b2]).
  { repeat constructor; discriminate. }
  assert (Ho : in_range (ToRect b3)) by (repeat split; discriminate).
  split; [split; assumption|].
  destruct (Insert_splits_full_root_leaf 1
              (mkState [mkNode None true [leafEntry a1; leafEntry b1; leafEntry a2; leafEntry b2] 1]
                 (mkTree 2 4 (Some 0%nat) 4 1))
              0 (mkNode None true [leafEntry a1; leafEntry b1; leafEntry a2; leafEntry b2] 1) b3)
    as (L & R & s' & Hrun & Ht & _ & _ & _ & _ & Hp & HmL & HmR & _).
  - reflexivity.
  - reflexivity.
  - reflexivity.
  - repeat constructor.
  - reflexivity.
  - simpl. lia.
  - simpl. lia.
  - exact Hr.
  - exact Ho.
  - lia.
  - exists L, R, s'. auto 10.
Defined.

(** *** Insert, then search *)

(** [searchIntersect] on a leaf appends the objects of the entries that
    intersect the query, in the order of the entries. *)
Lemma searchIntersect_leaf fuel s a r b results :
  heap s !! a = Some r -> isLeaf r = true ->
  searchIntersect (S fuel) (Some a) b results s = Done (results ++ hits b (entries r), s).
Proof.
  intros Hr Hleaf. cbn [searchIntersect].
  rewrite (bind_Done _ _ s r s (load_Some s a r Hr)). rewrite Hleaf.
  generalize (entries r) as es. intros es. revert results.
  induction es as [|e tl IH]; intros results.
  - unfold hits. simpl. rewrite app_nil_r. reflexivity.
  - unfold hits in *. simpl. destruct (intersect (bb e) b).
    + rewrite IH. simpl. rewrite <- app_assoc. reflexivity.
    + apply IH.
Qed.

(** X18: on a tree whose root is a leaf with room, [SearchIntersect(bb)]
    returns the objects of the entries whose rectangle intersects [bb], in
    the order they were inserted, and after [Insert(obj)] it returns the
    same objects followed by [obj] if [obj.ToRect()] intersects [bb], and
    the same objects otherwise. *)
Theorem Insert_then_SearchIntersect_root_leaf fuel s a r o b :
  Root (tree s) = Some a -> heap s !! a = Some r -> isLeaf r = true ->
  len (entries r) < MaxBranch (tree s) -> (0 < fuel)%nat ->
  exists s',
    Insert fuel o s = Done (tt, s') /\
    SearchIntersect fuel b s = Done (hits b (entries r), s) /\
    SearchIntersect fuel b s'
    = Done (hits b (entries r) ++ (if intersect (ToRect o) b then [Some o] else []), s').
Proof.
  intros Hroot Hr Hleaf Hroom Hfuel.
  set (e := mkEntry (ToRect o) None (Some o)).
  set (r1 := mkNode (parent r) (isLeaf r) (entries r ++ [e]) (level r)).
  set (t1 := mkTree (MinBranch (tree s)) (MaxBranch (tree s)) (Root (tree s))
               (Size (tree s) + 1) (Height (tree s))).
  set (s1 := mkState (<[a := r1]> (heap s)) t1).
  assert (Hlt : (a < length (heap s))%nat) by (apply lookup_lt_Some in Hr; exact Hr).
  assert (Hr1 : heap s1 !! a = Some r1) by (apply list_lookup_insert_eq, Hlt).
  exists s1. split.
  { unfold Insert.
    rewrite (bind_Done _ _ s tt _
               (insert_into_root_leaf fuel s a r e 1 Hroot Hr Hleaf eq_refl Hroom Hfuel)).
    reflexivity. }
  destruct fuel as [|fuel]; [lia|]. split.
  - unfold SearchIntersect. rewrite (bind_Done getTree _ s (tree s) s eq_refl), Hroot.
    apply (searchIntersect_leaf fuel s a r b [] Hr Hleaf).
  - unfold SearchIntersect. rewrite (bind_Done getTree _ s1 t1 s1 eq_refl).
    simpl Root. rewrite Hroot.
    rewrite (searchIntersect_leaf fuel s1 a r1 b [] Hr1 Hleaf).
    simpl. unfold hits. rewrite List.filter_app, List.map_app. simpl.
    destruct (intersect (ToRect o) b); reflexivity.
Qed.

Lemma Insert_then_SearchIntersect_root_leaf_witness :
  exists s',
    Insert 1 b1 single = Done (tt, s') /\
    SearchIntersect 1 plane single = Done (hits plane [leafEntry a1], single) /\
    SearchIntersect 1 plane s'
    = Done (hits plane [leafEntry a1] ++ (if intersect (ToRect b1) plane then [Some b1] else []),
            s').
Proof.
  apply (Insert_then_SearchIntersect_root_leaf 1 single 0
           (mkNode None true [leafEntry a1] 1) b1 plane);
    [reflexivity | reflexivity | reflexivity | reflexivity | lia].
Defined.

(** *** The seeds are a pair of greatest waste *)

(** X19: if some pair of entries of the node wastes more than -1 (the
    initial [maxWastedSpace]), [pickSeeds] returns the indices [l < r] of two
    entries whose waste, [size(bb(l, r)) - size(l) - size(r)], is greatest:
    no pair of entries of the node wastes more. *)
Theorem pickSeeds_greatest_waste es :
  (exists k m ek em, (k < m)%nat /\ es !! k = Some ek /\ es !! m = Some em /\
                     (- (1) < waste ek em)%Q) ->
  exists l r eL eR,
    pickSeeds es = (l, r) /\ (l < r)%nat /\ es !! l = Some eL /\ es !! r = Some eR /\
    forall k m ek em, (k < m)%nat -> es !! k = Some ek -> es !! m = Some em ->
                      (waste ek em <= waste eL eR)%Q.
Proof.
  intros (k0 & m0 & ek0 & em0 & Hlt0 & Hk0 & Hm0 & Hw0).
  destruct (pickSeeds_first_greatest es) as (w & l1 & l2 & Hl & H1 & H2).
  { apply Exists_exists. exists (waste ek0 em0, (k0, m0)). split; [|exact Hw0].
    apply pairs_from_spec. exists k0, m0, ek0, em0. repeat split; auto. }
  destruct (pickSeeds es) as [l r].
  assert (Hin : (w, (l, r)) ∈ pairs_from 0 es).
  { rewrite Hl. apply elem_of_app. right. left. }
  apply pairs_from_spec in Hin as (k & m & eL & eR & Hlt & HL & HR & -> & -> & ->).
  exists k, m, eL, eR. split; [reflexivity|]. split; [exact Hlt|].
  split; [exact HL|]. split; [exact HR|].
  intros k' m' ek em Hlt' Hk Hm.
  assert (Hin : (waste ek em, (k', m')) ∈ pairs_from 0 es).
  { apply pairs_from_spec. exists k', m', ek, em. repeat split; auto. }
  rewrite Hl in Hin. apply elem_of_app in Hin as [Hin|Hin].
  - rewrite Forall_forall in H1. specialize (H1 _ Hin). cbn [fst] in H1. lra.
  - apply elem_of_cons in Hin as [Hin|Hin].
    + apply (f_equal fst) in Hin. cbn [fst] in Hin. rewrite Hin. apply Qle_refl.
    + rewrite Forall_forall in H2. specialize (H2 _ Hin). exact H2.
Qed.

Lemma pickSeeds_greatest_waste_witness :
  exists l r eL eR,
    pickSeeds [leafEntry a1; leafEntry b1; leafEntry a2] = (l, r) /\ (l < r)%nat /\
    [leafEntry a1; leafEntry b1; leafEntry a2] !! l = Some eL /\
    [leafEntry a1; leafEntry b1; leafEntry a2] !! r = Some eR /\
    forall k m ek em, (k < m)%nat ->
      [leafEntry a1; leafEntry b1; leafEntry a2] !! k = Some ek ->
      [leafEntry a1; leafEntry b1; leafEntry a2] !! m = Some em ->
      (waste ek em <= waste eL eR)%Q.
Proof.
  apply (pickSeeds_greatest_waste [leafEntry a1; leafEntry b1; leafEntry a2]).
  exists 0%nat, 1%nat, (leafEntry a1), (leafEntry b1).
  split; [lia|]. split; [reflexivity|]. split; [reflexivity|].
  vm_compute. reflexivity.
Defined.

(** *** The search on the tree [twoLeaves] *)

Lemma twoLeaves_wf : wf_node 1 twoLeaves rootAB.
Proof.
  unfold rootAB. cbn [wf_node isLeaf entries].
  apply Forall_cons. split; [|apply Forall_cons; split; [|constructor]].
  - exists leafA. split; [reflexivity|]. split.
    + unfold leafA. cbn [wf_node isLeaf entries].
      repeat (apply Forall_cons; split; [eexists; reflexivity|]). constructor.
    + apply Forall_forall. intros e He. apply (boundingBoxOf_covers (entries leafA) e He).
  - exists leafB. split; [reflexivity|]. split.
    + unfold leafB. cbn [wf_node isLeaf entries].
      repeat (apply Forall_cons; split; [eexists; reflexivity|]). constructor.
    + apply Forall_forall. intros e He. apply (boundingBoxOf_covers (entries leafB) e He).
Qed.

Lemma SearchIntersect_on_wf_tree_witness :
  SearchIntersect 3 plane twoLeaves
  = Done (hits plane (leaf_entries 1 twoLeaves rootAB), twoLeaves).
Proof.
  apply (SearchIntersect_on_wf_tree twoLeaves plane 1 3 rootAB);
    [reflexivity | exact twoLeaves_wf | lia].
Defined.

(** *** What the queries and the descents return on any memory *)

Lemma load_inv p s nd s' : load p s = Done (nd, s') -> s' = s /\ node_at s p = Some nd.
Proof.
  unfold load, node_at. destruct p as [a|]; [|discriminate].
  destruct (heap s !! a); [|discriminate].
  intros E. injection E as <- <-. auto.
Qed.

Lemma KNN_loop_len `{H : heap.Impl _ Less} fuel : forall k point Q nn s r s',
  len nn <= k -> KNN_loop fuel k point Q nn s = Done (r, s') -> len r <= k.
Proof.
  induction fuel as [|fuel IH]; intros k point Q nn s r s' Hnn Hrun; simpl in Hrun.
  - destruct ((len Q >? 0) && (len nn <? k)); [discriminate|].
    injection Hrun as <- _. exact Hnn.
  - destruct ((len Q >? 0) && (len nn <? k)) eqn:Ec.
    2:{ injection Hrun as <- _. exact Hnn. }
    apply andb_true_iff in Ec as [_ Ec]. apply Z.ltb_lt in Ec.
    destruct (heap.Pop Q) as [[mid Q']|]; [|discriminate].
    destruct (obj (rEntry mid)) as [o|].
    + apply IH in Hrun; [exact Hrun|]. rewrite len_snoc. lia.
    + apply bind_inv in Hrun as (c & s1 & _ & Hrun).
      apply IH in Hrun; [exact Hrun | exact Hnn].
Qed.

(** X21: on any memory, well formed or not, and for every heap
    implementation, a call [KNN(k, point)] that returns has [k >= 0] and
    returns at most [k] objects. *)
Theorem KNN_at_most_k `{H : heap.Impl _ Less} fuel k point s r s' :
  KNN fuel k point s = Done (r, s') -> 0 <= k /\ len r <= k.
Proof.
  unfold KNN. intros Hrun. destruct (make_panics 16 k) eqn:Ek; [discriminate|].
  apply make_panics_16 in Ek as [Ek _]. split; [exact Ek|].
  apply bind_inv in Hrun as (t & s1 & _ & Hrun).
  apply bind_inv in Hrun as (rn & s2 & _ & Hrun).
  apply KNN_loop_len in Hrun; [exact Hrun|]. unfold len. simpl. exact Ek.
Qed.

Lemma KNN_at_most_k_witness :
  exists r s',
    KNN (H := naiveQueue) 7 2 (pt 9 3 3) twoLeaves = Done (r, s') /\ 0 <= 2 /\ len r <= 2.
Proof.
  assert (H2 : KNN (H := naiveQueue) 7 2 (pt 9 3 3) twoLeaves
               = Done ([a2; a1], twoLeaves))
    by reflexivity.
  eexists _, _. split; [exact H2|].
  exact (KNN_at_most_k (H := naiveQueue) 7 2 (pt 9 3 3) twoLeaves _ _ H2).
Defined.

(** X22: [chooseNode] writes nothing, and the node it returns is a leaf or
    is at the requested level: the descent stops at a leaf also when the
    level asked for lies above the leaves. *)
Theorem chooseNode_leaf_or_level fuel : forall n e lvl s p s',
  chooseNode fuel n e lvl s = Done (p, s') ->
  s' = s /\ exists nd, node_at s p = Some nd /\ (isLeaf nd = true \/ level nd = lvl).
Proof.
  induction fuel as [|fuel IH]; intros n e lvl s p s' Hrun; simpl in Hrun; [discriminate|].
  apply bind_inv in Hrun as (nd & s1 & Hl & Hrun).
  apply load_inv in Hl as [-> Hn].
  destruct (isLeaf nd || (level nd =? lvl)) eqn:Ec.
  - injection Hrun as <- <-. split; [reflexivity|]. exists nd. split; [exact Hn|].
    apply orb_true_iff in Ec as [Ec|Ec]; [left; exact Ec | right; apply Z.eqb_eq, Ec].
  - apply bind_inv in Hrun as (chosen & s1 & Hc & Hrun).
    unfold lift in Hc.
    destruct (chooseNode_scan e (entries nd) MaxFloat64 None); try discriminate.
    injection Hc as <- <-. apply IH in Hrun. exact Hrun.
Qed.

Lemma chooseNode_leaf_or_level_witness :
  chooseNode 1 (Some 0%nat) (leafEntry b1) 5 single = Done (Some 0%nat, single) /\
  exists nd, node_at single (Some 0%nat) = Some nd /\ (isLeaf nd = true \/ level nd = 5).
Proof.
  assert (H : chooseNode 1 (Some 0%nat) (leafEntry b1) 5 single = Done (Some 0%nat, single))
    by reflexivity.
  split; [exact H|].
  exact (proj2 (chooseNode_leaf_or_level 1 _ _ _ _ _ _ H)).
Defined.

(** X23: [findLeaf] writes nothing.  It returns nil, or the node it was
    started on if that is a leaf (whether or not the leaf holds [obj]), or a
    leaf that holds [obj]. *)
Theorem findLeaf_returns_leaf fuel : forall n o s p s',
  findLeaf fuel n o s = Done (p, s') ->
  s' = s /\
  (p = None \/
   exists lf, node_at s p = Some lf /\ isLeaf lf = true /\
              (p = n \/ existsb (fun x => obj_is (obj x) o) (entries lf) = true)).
Proof.
  induction fuel as [|fuel IH]; intros n o s p s' Hrun; simpl in Hrun; [discriminate|].
  apply bind_inv in Hrun as (nd & s1 & Hl & Hrun).
  apply load_inv in Hl as [-> Hn].
  destruct (isLeaf nd) eqn:Hleaf.
  - injection Hrun as <- <-. split; [reflexivity|]. right. exists nd. auto.
  - revert Hrun. generalize (entries nd) as es.
    induction es as [|e tl IHes]; intros Hrun.
    + injection Hrun as <- <-. auto.
    + destruct (containsRect (bb e) (ToRect o)); [|exact (IHes Hrun)].
      apply bind_inv in Hrun as (leaf & s1 & Hf & Hrun).
      apply IH in Hf as [-> Hleaf'].
      destruct leaf as [la|]; [|exact (IHes Hrun)].
      apply bind_inv in Hrun as (lf & s1 & Hl & Hrun).
      apply load_inv in Hl as [-> Hlf].
      destruct (existsb (fun leafEntry => obj_is (obj leafEntry) o) (entries lf)) eqn:Eex;
        [|exact (IHes Hrun)].
      injection Hrun as <- <-. split; [reflexivity|]. right.
      destruct Hleaf' as [Hnone|(lf' & Hlf' & Hleaf' & _)]; [discriminate|].
      rewrite Hlf in Hlf'. injection Hlf' as <-.
      exists lf. auto.
Qed.

Lemma findLeaf_returns_leaf_witness :
  findLeaf 3 (Some 2%nat) b2 twoLeaves = Done (Some 1%nat, twoLeaves) /\
  (Some 1%nat = None \/
   exists lf, node_at twoLeaves (Some 1%nat) = Some lf /\ isLeaf lf = true /\
              (Some 1%nat = Some 2%nat \/
               existsb (fun x => obj_is (obj x) b2) (entries lf) = true)).
Proof.
  assert (H : findLeaf 3 (Some 2%nat) b2 twoLeaves = Done (Some 1%nat, twoLeaves))
    by reflexivity.
  split; [exact H|].
  exact (proj2 (findLeaf_returns_leaf 3 _ _ _ _ _ H)).
Defined.

End rtree.

(** ** Package graph *)

Module graph.

Import float64 exec.
Local Open Scope Z_scope.

Abbreviation ptr := (option nat).

(** [type Edge struct].  [From] and [To] are node pointers. *)
Record Edge := mkEdge {
  EdgeID : Z * Z;
  From : ptr;
  To : ptr;
  Weight : Q
}.

(** [type Node struct].  The slices [EdgeEnd] and [EdgeStart] hold pointers
    to edges that the search only reads: they are lists of edges. *)
Record Node := mkNode {
  ID : Z;
  X : Q;
  Y : Q;
  EdgeEnd : list Edge;
  EdgeStart : list Edge
}.

(** [type DirectedGraph struct { Nodes []*Node }] *)
Record DirectedGraph := mkGraph {
  Nodes : list ptr
}.

(** The allocated nodes, by address. *)
Abbreviation memory := (list Node).

(** [*p] *)
Definition deref (mem : memory) (p : ptr) : outcome Node :=
  match p with
  | Some a => match mem !! a with
              | Some n => Done n
              | None => Panic
              end
  | None => Panic
  end.

(** [type distanceNode struct] *)
Record distanceNode := mkDistanceNode {
  node : ptr;
  dist : Q;
  realDist : Q;
  direction : bool
}.

(** [func (q priorityQueue) Less(i, j int) bool] on the two items. *)
Definition Less (a b : distanceNode) : bool := ltb (dist a) (dist b).

(** [math.Inf(1)] or a finite [float64]. *)
Inductive distance :=
  | Finite (d : Q)
  | PosInf.

(** The variables of [Dijkstra] that its loop updates. *)
Record search := mkSearch {
  forwardDist : gmap ptr Q;
  next : gmap ptr ptr;
  queue : list distanceNode
}.

Section Dijkstra.
Context {H : heap.Impl Less}.

(** The body of [for _, e := range mid.node.EdgeStart].  Reading a key
    that a Go map does not hold gives the zero value. *)
Definition relax (mid_node : ptr) (st : search) (e : Edge) : search :=
  let n := To e in
  let acc_dist := (default 0%Q (forwardDist st !! mid_node) + Weight e)%Q in
  let update :=
    mkSearch (<[n := acc_dist]> (forwardDist st))
             (<[n := mid_node]> (next st))
             (heap.Push (queue st) (mkDistanceNode n acc_dist 0%Q false)) in
  match forwardDist st !! n with
  | Some d => if ltb acc_dist d then update else st
  | None => update
  end.

(** The loop [for len(Q) > 0] of [Dijkstra]; it returns the variables and
    [mid] as they are when the loop is left. *)
Fixpoint Dijkstra_loop (fuel : nat) (mem : memory) (v : ptr) (st : search)
    (mid : option distanceNode) : outcome (search * option distanceNode) :=
  if Z.of_nat (length (queue st)) >? 0 then
    match fuel with
    | O => OutOfFuel
    | S fuel' =>
        match heap.Pop (queue st) with
        | None => Panic
        | Some (m, Q') =>
            obind (deref mem (node m)) (fun mn =>
            obind (deref mem v) (fun vn =>
              let st' := mkSearch (forwardDist st) (next st) Q' in
              if ID mn =? ID vn then Done (st', Some m)
              else Dijkstra_loop fuel' mem v
                     (fold_left (relax (node m)) (EdgeStart mn) st') (Some m)))
        end
    end
  else Done (st, mid).

(** The loop [for n != u] that collects the path backwards. *)
Fixpoint walk_back (fuel : nat) (nxt : gmap ptr ptr) (u n : ptr)
    (path : list ptr) : outcome (list ptr) :=
  if negb (bool_decide (n = u)) then
    match fuel with
    | O => OutOfFuel
    | S fuel' =>
        let n' := default None (nxt !! n) in
        walk_back fuel' nxt u n' (path ++ [n'])
    end
  else Done path.

(** [func (g *DirectedGraph) Dijkstra(u, v *Node) ([]*Node, float64)] *)
Definition Dijkstra (fuel : nat) (mem : memory) (g : DirectedGraph)
    (u v : ptr) : outcome (list ptr * distance) :=
  let forwardDist := <[u := 0%Q]> (∅ : gmap ptr Q) in
  let next := (∅ : gmap ptr ptr) in
  let Q := heap.Init [mkDistanceNode u 0%Q 0%Q false] in
  obind (Dijkstra_loop fuel mem v (mkSearch forwardDist next Q) None)
    (fun '(st, mid) =>
       match mid with
       | None => Done ([], PosInf)
       | Some m =>
           obind (deref mem (node m)) (fun mn =>
           obind (deref mem v) (fun vn =>
             if negb (ID mn =? ID vn) then Done ([], PosInf)
             else
               obind (walk_back fuel (graph.next st) u v [v]) (fun path =>
                 Done (reverse path,
                       Finite (default 0%Q (graph.forwardDist st !! v))))))
       end).
End Dijkstra.

(** The insertion-ordered queue as the heap of [Dijkstra]. *)
Definition naiveQueue : heap.Impl Less := heap.naive dist.

(** *** Building a graph *)

(** [p.f = ...] on the node [p] points to. *)
Definition assign (mem : memory) (p : ptr) (n : Node) : memory :=
  match p with
  | Some a => <[a := n]> mem
  | None => mem
  end.

(** [g.Nodes[i]]: an index out of range panics. *)
Definition index (g : DirectedGraph) (i : Z) : outcome ptr :=
  if i <? 0 then Panic
  else match Nodes g !! Z.to_nat i with
       | Some p => Done p
       | None => Panic
       end.

(** [func NewDirectedGraph() *DirectedGraph] *)
Definition NewDirectedGraph : DirectedGraph := mkGraph [].

(** [func (g *DirectedGraph) HasNode(n *Node) bool] *)
Definition HasNode (mem : memory) (g : DirectedGraph) (n : ptr) : outcome bool :=
  obind (deref mem n) (fun nd => Done (ID nd <? Z.of_nat (length (Nodes g)))).

(** [func (g *DirectedGraph) Node(id int) *Node] *)
Definition DirectedGraph_Node (g : DirectedGraph) (id : Z) : outcome ptr :=
  if Z.of_nat (length (Nodes g)) >? id then index g id else Done None.

(** [func (g *DirectedGraph) AddNode(n *Node)]: the memory and the graph
    after the call. *)
Definition AddNode (mem : memory) (g : DirectedGraph) (n : ptr)
    : outcome (memory * DirectedGraph) :=
  obind (deref mem n) (fun nd =>
    Done (assign mem n (mkNode (Z.of_nat (length (Nodes g))) (X nd) (Y nd)
                          (EdgeEnd nd) (EdgeStart nd)),
          mkGraph (Nodes g ++ [n]))).

(** [func (g *DirectedGraph) AddDirectedEdge(e *Edge)]: the memory after the
    call.  The two appends go to the nodes that [g.Nodes] holds at the
    indices [e.From.ID] and [e.To.ID]. *)
Definition AddDirectedEdge (mem : memory) (g : DirectedGraph) (e : Edge)
    : outcome memory :=
  obind (deref mem (From e)) (fun from =>
  obind (deref mem (To e)) (fun to =>
    if ID from =? ID to then Panic
    else if negb (ID from <? Z.of_nat (length (Nodes g))) then Panic
    else if negb (ID to <? Z.of_nat (length (Nodes g))) then Panic
    else
      obind (index g (ID from)) (fun p1 =>
      obind (deref mem p1) (fun n1 =>
        let mem1 := assign mem p1 (mkNode (ID n1) (X n1) (Y n1) (EdgeEnd n1)
                                     (EdgeStart n1 ++ [e])) in
        obind (deref mem1 (To e)) (fun to1 =>
        obind (index g (ID to1)) (fun p2 =>
        obind (deref mem1 p2) (fun n2 =>
          Done (assign mem1 p2 (mkNode (ID n2) (X n2) (Y n2) (EdgeEnd n2 ++ [e])
                                  (EdgeStart n2)))))))))).

(** [func (g *DirectedGraph) Weight(u, v *Node) (w float64, ok bool)] *)
Definition DirectedGraph_Weight (mem : memory) (g : DirectedGraph) (u v : ptr)
    : outcome (Q * bool) :=
  obind (deref mem u) (fun un =>
  obind (deref mem v) (fun vn =>
    if ID un =? ID vn then Done (0%Q, false)
    else
      obind (index g (ID un)) (fun p =>
      obind (deref mem p) (fun n =>
        Done (match List.find (fun e => bool_decide (To e = v)) (EdgeStart n) with
              | Some e => (Weight e, true)
              | None => (0%Q, false)
              end))))).

(** [func SquaredDist(u, v *Node) float64].  The squares are exact here;
    those of the code underflow to zero for coordinates that differ by
    less than about [2^-537]. *)
Definition SquaredDist (mem : memory) (u v : ptr) : outcome Q :=
  obind (deref mem u) (fun un =>
  obind (deref mem v) (fun vn =>
    let Xdiff := (X un - X vn)%Q in
    let Ydiff := (Y un - Y vn)%Q in
    Done (Ydiff * Ydiff + Xdiff * Xdiff)%Q)).

(** [func SquaredDistFromEdge(n *Node, e *Edge) float64].  As in the
    source, [x] starts as [e.From.Y] and [y] as [e.From.X]. *)
Definition SquaredDistFromEdge (mem : memory) (n : ptr) (e : Edge) : outcome Q :=
  obind (deref mem (From e)) (fun f =>
  obind (deref mem (To e)) (fun t =>
  obind (deref mem n) (fun nn =>
    let x := Y f in
    let y := X f in
    let dx := (Y t - x)%Q in
    let dy := (X t - y)%Q in
    let '(x1, y1) :=
      if negb (eqb dx 0) || negb (eqb dy 0) then
        let t' := (((Y nn - x) * dx + (X nn - y) * dy) / (dx * dx + dy * dy))%Q in
        if gtb t' 1 then (Y t, X t)
        else if gtb t' 0 then ((x + dx * t')%Q, (y + dy * t')%Q)
        else (x, y)
      else (x, y) in
    let dx1 := (Y nn - x1)%Q in
    let dy1 := (X nn - y1)%Q in
    Done (dx1 * dx1 + dy1 * dy1)%Q))).

(** The squared distance from the point [(px, py)] to the point of the
    segment from [(fx, fy)] to [(tx, ty)] at the fraction [s]. *)
Definition to_segment (px py fx fy tx ty s : Q) : Q :=
  ((py - (fy + s * (ty - fy))) * (py - (fy + s * (ty - fy)))
   + (px - (fx + s * (tx - fx))) * (px - (fx + s * (tx - fx))))%Q.

(** *** Graphs *)

(** There is an edge from the node at [a] to the node at [b]. *)
Definition edge (mem : memory) (a b : nat) : Prop :=
  exists n e, mem !! a = Some n /\ e ∈ EdgeStart n /\ To e = Some b.

(** [b] is reachable from [a] along edges. *)
Definition reachable (mem : memory) (a b : nat) : Prop := rtc (edge mem) a b.

(** A graph as [AddNode] and [AddDirectedEdge] build it: the i-th node of
    [g.Nodes] is allocated and has ID i, and edges lead to nodes of the
    graph. *)
Record wf_graph (mem : memory) (g : DirectedGraph) : Prop := {
  wf_nodes i p :
    Nodes g !! i = Some p ->
    exists a n, p = Some a /\ mem !! a = Some n /\ ID n = Z.of_nat i;
  wf_edges a n e :
    Some a ∈ Nodes g -> mem !! a = Some n -> e ∈ EdgeStart n -> To e ∈ Nodes g
}.

(** Edge weights are not negative. *)
Definition nonneg_weights (mem : memory) : Prop :=
  forall a n e, mem !! a = Some n -> e ∈ EdgeStart n -> (0 <= Weight e)%Q.

(** The number of edges that leave the allocated nodes. *)
Definition edge_count (mem : memory) : nat :=
  sum_list_with (fun n => length (EdgeStart n)) mem.

(** The number of edges that leave the node at an address. *)
Definition outdeg (mem : memory) (a : nat) : nat :=
  match mem !! a with
  | Some n => length (EdgeStart n)
  | None => O
  end.

(** A route: the nodes visited from [a] to [b] along edges, with the sum of
    the weights as [Dijkstra] adds them up. *)
Inductive route (mem : memory) (a : nat) : list ptr -> nat -> Q -> Prop :=
  | route_start : route mem a [Some a] a 0%Q
  | route_step p b c nb e w :
      route mem a p b w -> mem !! b = Some nb -> e ∈ EdgeStart nb -> To e = Some c ->
      route mem a (p ++ [Some c]) c (w + Weight e)%Q.

(** No route from [a] to [x] is shorter than [d]. *)
Definition optimal (mem : memory) (a x : nat) (d : Q) : Prop :=
  forall p w, route mem a p x w -> (d <= w)%Q.

(** The way back from [x] to [u] that [next] records: the nodes [l] after
    [x], the last of them [u], and the weight of the way. *)
Inductive back (mem : memory) (ua : nat) (nxt : gmap ptr ptr)
    : nat -> list nat -> Q -> Prop :=
  | back_u : back mem ua nxt ua [] 0%Q
  | back_step x b l nb e db :
      x <> ua -> nxt !! Some x = Some (Some b) -> mem !! b = Some nb ->
      e ∈ EdgeStart nb -> To e = Some x -> back mem ua nxt b l db ->
      back mem ua nxt x (b :: l) (db + Weight e)%Q.

(** What the loop of [Dijkstra] keeps besides [Inv]: [u] has distance 0,
    and every node with a distance has a way back to [u] of that weight
    through nodes whose distance is final. *)
Record Inv2 (mem : memory) (ua : nat) (st : search) : Prop := {
  K_zero : forwardDist st !! Some ua = Some 0%Q;
  K_back x d : forwardDist st !! Some x = Some d ->
    exists l, back mem ua (next st) x l d /\
              Forall (fun b => exists db, forwardDist st !! Some b = Some db /\
                                          optimal mem ua b db) l
}.

(** The target has no distance yet or is in the queue. *)
Definition target_queued (vb : nat) (st : search) : Prop :=
  forwardDist st !! Some vb = None \/ exists x, x ∈ queue st /\ node x = Some vb.

(** The triangle of scenario G1, A -> B (1), B -> C (1), A -> C (3), at
    the addresses 0, 1, 2, and a fourth node D at address 3 without
    edges. *)
Definition eAB : Edge := mkEdge (0, 1) (Some 0%nat) (Some 1%nat) 1%Q.
Definition eBC : Edge := mkEdge (1, 2) (Some 1%nat) (Some 2%nat) 1%Q.
Definition eAC : Edge := mkEdge (0, 2) (Some 0%nat) (Some 2%nat) 3%Q.
(** An edge from B back to A, not in the triangle. *)
Definition eBA : Edge := mkEdge (1, 0) (Some 1%nat) (Some 0%nat) 7%Q.

(** Two allocated nodes without edges, A at address 0 and B at address 1,
    with the zero ID of a new [Node]. *)
Definition two_nodes : memory :=
  [mkNode 0 0%Q 0%Q [] []; mkNode 0 1%Q 1%Q [] []].

(** [g1.AddNode(A); g1.AddNode(B); g2.AddNode(B)] on two new graphs: the
    memory after the three calls, and [g1].  The second call sets [B.ID]
    to 1, the third sets it to 0, which is the ID of A. *)
Definition shared_node : outcome (memory * DirectedGraph) :=
  obind (AddNode two_nodes NewDirectedGraph (Some 0%nat)) (fun '(m1, g1) =>
  obind (AddNode m1 g1 (Some 1%nat)) (fun '(m2, g1') =>
  obind (AddNode m2 NewDirectedGraph (Some 1%nat)) (fun '(m3, _) =>
    Done (m3, g1')))).

Definition triangle_mem : memory :=
  [ mkNode 0 0%Q 0%Q [] [eAB; eAC];
    mkNode 1 0%Q 0%Q [eAB] [eBC];
    mkNode 2 0%Q 0%Q [eBC; eAC] [];
    mkNode 3 0%Q 0%Q [] [] ].

Definition triangle : DirectedGraph :=
  mkGraph [Some 0%nat; Some 1%nat; Some 2%nat; Some 3%nat].

Lemma outdeg_app_l (l : memory) n k :
  (k <= length l)%nat ->
  sum_list_with (outdeg (l ++ [n])) (seq 0 k) = sum_list_with (outdeg l) (seq 0 k).
Proof.
  induction k as [|k IH]; intros Hk; [reflexivity|].
  rewrite seq_S, !sum_list_with_app, IH by lia. simpl.
  unfold outdeg. rewrite (lookup_app_l l [n] k) by lia. reflexivity.
Qed.

Lemma outdeg_sum (l : memory) :
  sum_list_with (outdeg l) (seq 0 (length l)) = edge_count l.
Proof.
  unfold edge_count. induction l as [|n l IH] using rev_ind; [reflexivity|].
  rewrite length_app, Nat.add_1_r, seq_S, !sum_list_with_app.
  rewrite outdeg_app_l, IH by lia. simpl.
  unfold outdeg. rewrite list_lookup_middle by reflexivity. reflexivity.
Qed.

(** *** Dijkstra on an unreachable target *)

Section Unreachable.
Context {H : heap.Impl Less}.
Context (mem : memory) (g : DirectedGraph) (ua : nat).
Context (Hwf : wf_graph mem g) (Hw : nonneg_weights mem).
Context (Hu : Some ua ∈ Nodes g).

(** The invariant of the loop of [Dijkstra].  [U] lists the addresses that
    were not popped yet; a node that was popped is settled.
    - every queued node is reachable from [u], and its recorded distance is
      at most its key;
    - the distance of a settled node is at most every queued key;
    - a node with a distance that is not settled is queued with that
      distance as key;
    - the edges of a settled node are relaxed. *)
Record Inv (U : list nat) (st : search) : Prop := {
  I_heap : heap.is_heap (queue st);
  I_nodup : NoDup U;
  I_reach x : x ∈ queue st -> exists a, node x = Some a /\ reachable mem ua a;
  I_le x : x ∈ queue st ->
    exists d, forwardDist st !! node x = Some d /\ (d <= dist x)%Q;
  I_has a n : a ∉ U -> mem !! a = Some n -> is_Some (forwardDist st !! Some a);
  I_set a d x : a ∉ U -> forwardDist st !! Some a = Some d -> x ∈ queue st ->
    (d <= dist x)%Q;
  I_uns a d : a ∈ U -> forwardDist st !! Some a = Some d ->
    exists x, x ∈ queue st /\ node x = Some a /\ dist x = d;
  I_edge a n e : a ∉ U -> mem !! a = Some n -> e ∈ EdgeStart n ->
    exists d d', forwardDist st !! Some a = Some d /\
                 forwardDist st !! To e = Some d' /\ (d' <= d + Weight e)%Q
}.

(** What is left to do: the queued items and the edges of the nodes that
    are not settled. *)
Definition potential (U : list nat) (st : search) : nat :=
  (length (queue st) + sum_list_with (outdeg mem) U)%nat.

(** The invariant of the loop over the edges of the node at [a], popped
    with distance [d]; [U'] is [U] without [a], [done] the edges relaxed so
    far and [n0] the length of the queue before the loop. *)
Record Jinv (a : nat) (d : Q) (U' : list nat) (n0 : nat) (done : list Edge)
    (st : search) : Prop := {
  J_heap : heap.is_heap (queue st);
  J_reach x : x ∈ queue st -> exists b, node x = Some b /\ reachable mem ua b;
  J_le x : x ∈ queue st ->
    exists d', forwardDist st !! node x = Some d' /\ (d' <= dist x)%Q;
  J_min x : x ∈ queue st -> (d <= dist x)%Q;
  J_a : forwardDist st !! Some a = Some d;
  J_has z n : z ∉ U' -> mem !! z = Some n -> is_Some (forwardDist st !! Some z);
  J_set z dz : z ∉ U' -> forwardDist st !! Some z = Some dz -> (dz <= d)%Q;
  J_uns b db : b ∈ U' -> forwardDist st !! Some b = Some db ->
    exists x, x ∈ queue st /\ node x = Some b /\ dist x = db;
  J_edge z n e : z ∉ U' -> z <> a -> mem !! z = Some n -> e ∈ EdgeStart n ->
    exists dz d', forwardDist st !! Some z = Some dz /\
                  forwardDist st !! To e = Some d' /\ (d' <= dz + Weight e)%Q;
  J_done e : e ∈ done ->
    exists d', forwardDist st !! To e = Some d' /\ (d' <= d + Weight e)%Q;
  J_len : (length (queue st) <= n0 + length done)%nat
}.

Lemma in_graph_valid a : Some a ∈ Nodes g -> exists n, mem !! a = Some n.
Proof.
  intros [i Hi]%list_elem_of_lookup.
  destruct (wf_nodes mem g Hwf i _ Hi) as (a' & n & [= <-] & Hn & _). eauto.
Qed.

Lemma ID_inj a b na nb :
  Some a ∈ Nodes g -> Some b ∈ Nodes g ->
  mem !! a = Some na -> mem !! b = Some nb -> ID na = ID nb -> a = b.
Proof.
  intros [i Hi]%list_elem_of_lookup [j Hj]%list_elem_of_lookup Ha Hb Hid.
  destruct (wf_nodes mem g Hwf i _ Hi) as (a' & n & [= <-] & Hn & Hin).
  destruct (wf_nodes mem g Hwf j _ Hj) as (b' & n' & [= <-] & Hn' & Hjn).
  assert (i = j) by (rewrite Ha in Hn; rewrite Hb in Hn'; congruence || (simplify_eq; lia)).
  subst j. congruence.
Qed.

Lemma reachable_in_graph a : reachable mem ua a -> Some a ∈ Nodes g.
Proof.
  revert a. apply (rtc_ind_r (fun a => Some a ∈ Nodes g)); [exact Hu|].
  intros a b _ (n & e & Hn & He & <-) IH. eapply wf_edges; eauto.
Qed.

Lemma reachable_step a n e :
  reachable mem ua a -> mem !! a = Some n -> e ∈ EdgeStart n ->
  exists b, To e = Some b /\ reachable mem ua b.
Proof.
  intros Hr Hn He.
  pose proof (wf_edges mem g Hwf a n e (reachable_in_graph a Hr) Hn He) as Hin.
  destruct (To e) as [b|] eqn:Hb.
  - exists b. split; [reflexivity|]. eapply rtc_r; [exact Hr|].
    exists n, e. auto.
  - apply list_elem_of_lookup in Hin as [i Hi].
    destruct (wf_nodes mem g Hwf i _ Hi) as (? & ? & [=] & _).
Qed.

(** Relaxing edges whose targets are already as near as the edge allows
    changes nothing. *)
Lemma relax_noop st a d es :
  forwardDist st !! Some a = Some d ->
  (forall e, e ∈ es ->
     exists d', forwardDist st !! To e = Some d' /\ (d' <= d + Weight e)%Q) ->
  fold_left (relax (Some a)) es st = st.
Proof.
  intros Ha. induction es as [|e es IH]; intros Hes; [reflexivity|].
  simpl. assert (Hr : relax (Some a) st e = st).
  { destruct (Hes e) as (d' & Hd' & Hle); [left|].
    unfold relax. rewrite Ha, Hd'. simpl.
    assert (Hf : ltb (d + Weight e) d' = false) by (apply ltb_ge; exact Hle).
    rewrite Hf. reflexivity. }
  rewrite Hr. apply IH. intros e' He'. apply Hes. right. exact He'.
Qed.

(** Relaxing one more edge of the popped node keeps [Jinv]. *)
Lemma relax_step a d U' n0 done st mn e :
  reachable mem ua a -> mem !! a = Some mn -> e ∈ EdgeStart mn -> a ∉ U' ->
  Jinv a d U' n0 done st ->
  Jinv a d U' n0 (done ++ [e]) (relax (Some a) st e).
Proof.
  intros Hra Hmn He HaU HJ.
  destruct (reachable_step a mn e Hra Hmn He) as (b & Hb & Hrb).
  pose proof (Hw a mn e Hmn He) as Hwe.
  pose proof (J_a _ _ _ _ _ _ HJ) as Ha.
  set (acc := (d + Weight e)%Q).
  set (it := mkDistanceNode (Some b) acc 0%Q false).
  assert (Hkeep : forall d', forwardDist st !! Some b = Some d' -> (d' <= acc)%Q ->
                  Jinv a d U' n0 (done ++ [e]) st).
  { intros d' Hd' Hle. destruct HJ. constructor; try assumption.
    - intros e' [He'|He']%elem_of_app; [auto|].
      apply list_elem_of_singleton in He' as ->. rewrite Hb. eauto.
    - rewrite length_app. simpl. lia. }
  assert (Hupd : (forwardDist st !! Some b = None \/
                  exists d', forwardDist st !! Some b = Some d' /\ (acc < d')%Q) ->
                 Jinv a d U' n0 (done ++ [e])
                   (mkSearch (<[Some b := acc]> (forwardDist st))
                             (<[Some b := Some a]> (next st))
                             (heap.Push (queue st) it))).
  { intros Hcase.
    assert (HbU : b ∈ U').
    { destruct (decide (b ∈ U')) as [|Hn]; [assumption|exfalso].
      destruct (in_graph_valid b (reachable_in_graph b Hrb)) as [nb Hnb].
      destruct (J_has _ _ _ _ _ _ HJ b nb Hn Hnb) as [dz Hdz].
      pose proof (J_set _ _ _ _ _ _ HJ b dz Hn Hdz) as Hle.
      destruct Hcase as [Hnone|(d' & Hd' & Hlt)]; [congruence|].
      rewrite Hdz in Hd'. injection Hd' as <-. unfold acc in Hlt. lra. }
    assert (Hba : b <> a) by (intros ->; contradiction).
    assert (Hdec : forall p d0, forwardDist st !! p = Some d0 ->
              exists d1, <[Some b := acc]> (forwardDist st) !! p = Some d1 /\ (d1 <= d0)%Q).
    { intros p d0 Hp. destruct (decide (p = Some b)) as [->|Hne].
      - rewrite lookup_insert_eq. exists acc. split; [reflexivity|].
        destruct Hcase as [Hnone|(d' & Hd' & Hlt)]; [congruence|].
        rewrite Hp in Hd'. injection Hd' as <-. lra.
      - rewrite lookup_insert_ne by congruence. exists d0. split; [exact Hp|lra]. }
    assert (Hin : forall x, x ∈ heap.Push (queue st) it <-> x = it \/ x ∈ queue st).
    { intros x. rewrite (heap.Push_perm _ it (J_heap _ _ _ _ _ _ HJ)).
      apply elem_of_cons. }
    destruct HJ. constructor; simpl.
    - apply heap.Push_heap. assumption.
    - intros x [->|Hx]%Hin; [simpl; eauto | auto].
    - intros x [->|Hx]%Hin.
      + simpl. rewrite lookup_insert_eq. exists acc. split; [reflexivity|lra].
      + destruct (J_le0 x Hx) as (d0 & Hd0 & Hle0).
        destruct (Hdec _ _ Hd0) as (d1 & Hd1 & Hle1). exists d1. split; [exact Hd1|lra].
    - intros x [->|Hx]%Hin; [simpl; unfold acc; lra | auto].
    - rewrite lookup_insert_ne by congruence. assumption.
    - intros z n Hz Hn. rewrite lookup_insert_ne by (intros [= <-]; contradiction).
      eauto.
    - intros z dz Hz. rewrite lookup_insert_ne by (intros [= <-]; contradiction).
      eauto.
    - intros b' db Hb' Hdb. destruct (decide (b' = b)) as [->|Hne].
      + rewrite lookup_insert_eq in Hdb. injection Hdb as <-.
        exists it. split; [apply Hin; left; reflexivity | split; reflexivity].
      + rewrite lookup_insert_ne in Hdb by congruence.
        destruct (J_uns0 b' db Hb' Hdb) as (x & Hx & Hnx & Hdx).
        exists x. split; [apply Hin; right; exact Hx | auto].
    - intros z n e0 Hz Hza Hn He0.
      destruct (J_edge0 z n e0 Hz Hza Hn He0) as (dz & d0 & Hdz & Hd0 & Hle0).
      destruct (Hdec _ _ Hd0) as (d1 & Hd1 & Hle1).
      exists dz, d1. split; [|split; [exact Hd1|lra]].
      rewrite lookup_insert_ne by (intros [= <-]; contradiction). exact Hdz.
    - intros e' [He'|He']%elem_of_app.
      + destruct (J_done0 e' He') as (d0 & Hd0 & Hle0).
        destruct (Hdec _ _ Hd0) as (d1 & Hd1 & Hle1).
        exists d1. split; [exact Hd1|lra].
      + apply list_elem_of_singleton in He' as ->. rewrite Hb, lookup_insert_eq.
        exists acc. split; [reflexivity|unfold acc; lra].
    - rewrite (heap.Push_perm _ it J_heap0), length_app. simpl. lia. }
  unfold relax. rewrite Ha, Hb. simpl. fold acc. fold it.
  destruct (forwardDist st !! Some b) as [d'|] eqn:Hd'.
  - destruct (ltb acc d') eqn:Hlt.
    + apply ltb_lt in Hlt. apply Hupd. right. eauto.
    + apply ltb_ge in Hlt. eapply Hkeep; eauto.
  - apply Hupd. left. reflexivity.
Qed.

Lemma relax_fold a d U' n0 mn :
  reachable mem ua a -> mem !! a = Some mn -> a ∉ U' ->
  forall es done st,
  (forall e, e ∈ es -> e ∈ EdgeStart mn) ->
  Jinv a d U' n0 done st ->
  Jinv a d U' n0 (done ++ es) (fold_left (relax (Some a)) es st).
Proof.
  intros Hra Hmn HaU. induction es as [|e es IH]; intros done st Hes HJ.
  - rewrite app_nil_r. exact HJ.
  - simpl. rewrite (cons_middle e done es), app_assoc. apply IH.
    + intros e' He'. apply Hes. right. exact He'.
    + eapply relax_step; eauto. apply Hes. left.
Qed.

(** One turn of the loop of [Dijkstra] on a node other than the target:
    the invariant is kept and the potential drops. *)
Lemma pop_step U st x Q' a mn :
  Inv U st ->
  queue st ≡ₚ x :: Q' -> heap.is_heap Q' ->
  Forall (fun y => Less y x = false) Q' ->
  node x = Some a -> mem !! a = Some mn ->
  exists U',
    Inv U' (fold_left (relax (Some a)) (EdgeStart mn)
              (mkSearch (forwardDist st) (next st) Q')) /\
    (potential U' (fold_left (relax (Some a)) (EdgeStart mn)
                     (mkSearch (forwardDist st) (next st) Q'))
     < potential U st)%nat.
Proof.
  intros HI Hperm HQ' Hmin Hx Hmn.
  assert (Hxin : x ∈ queue st) by (rewrite Hperm; left).
  assert (Hsub : forall y, y ∈ Q' -> y ∈ queue st) by (intros y Hy; rewrite Hperm; right; exact Hy).
  assert (Hmin' : forall y, y ∈ Q' -> (dist x <= dist y)%Q).
  { intros y Hy. rewrite Forall_forall in Hmin. apply ltb_ge, Hmin, Hy. }
  assert (Hlen : length (queue st) = S (length Q')) by (rewrite Hperm; reflexivity).
  destruct (I_reach _ _ HI x Hxin) as (a' & Ha' & Hra). rewrite Hx in Ha'.
  injection Ha' as <-.
  destruct (I_le _ _ HI x Hxin) as (d & Hd & Hdle). rewrite Hx in Hd.
  destruct (decide (a ∈ U)) as [HaU|HaU].
  - (* the node is settled now *)
    apply elem_of_Permutation in HaU as [U' HU].
    pose proof (I_nodup _ _ HI) as Hnd. rewrite HU in Hnd.
    apply NoDup_cons in Hnd as [HaU' Hnd'].
    assert (HinU : forall z, z ∈ U <-> z = a \/ z ∈ U').
    { intros z. rewrite HU. apply elem_of_cons. }
    assert (Hkd : (dist x <= d)%Q).
    { destruct (I_uns _ _ HI a d) as (y & Hy & Hny & Hdy); [apply HinU; auto|exact Hd|].
      rewrite Hperm in Hy. apply elem_of_cons in Hy as [->|Hy].
      - rewrite Hdy. apply Qle_refl.
      - rewrite <- Hdy. apply Hmin', Hy. }
    exists U'.
    assert (HJ0 : Jinv a d U' (length Q') [] (mkSearch (forwardDist st) (next st) Q')).
    { constructor; simpl.
      - exact HQ'.
      - intros y Hy. apply (I_reach _ _ HI), Hsub, Hy.
      - intros y Hy. apply (I_le _ _ HI), Hsub, Hy.
      - intros y Hy. specialize (Hmin' y Hy). lra.
      - exact Hd.
      - intros z n Hz Hn. destruct (decide (z = a)) as [->|Hne]; [eauto|].
        eapply (I_has _ _ HI); [|exact Hn]. intros [?|?]%HinU; contradiction.
      - intros z dz Hz Hdz. destruct (decide (z = a)) as [->|Hne].
        + rewrite Hd in Hdz. injection Hdz as <-. lra.
        + assert (HzU : z ∉ U) by (intros [?|?]%HinU; contradiction).
          pose proof (I_set _ _ HI z dz x HzU Hdz Hxin). lra.
      - intros b db Hb Hdb.
        destruct (I_uns _ _ HI b db) as (y & Hy & Hny & Hdy); [apply HinU; auto|exact Hdb|].
        rewrite Hperm in Hy. apply elem_of_cons in Hy as [->|Hy].
        + rewrite Hx in Hny. injection Hny as <-. contradiction.
        + eauto.
      - intros z n e Hz Hza Hn He. eapply (I_edge _ _ HI); eauto.
        intros [?|?]%HinU; contradiction.
      - intros e He. inversion He.
      - lia. }
    pose proof (relax_fold a d U' (length Q') mn Hra Hmn HaU' (EdgeStart mn) []
                  (mkSearch (forwardDist st) (next st) Q') (fun e He => He) HJ0) as HJ.
    simpl in HJ. set (st' := fold_left _ _ _) in *. clearbody st'. clear HJ0.
    split.
    + destruct HJ. constructor.
      * assumption.
      * exact Hnd'.
      * assumption.
      * assumption.
      * assumption.
      * intros z dz y Hz Hdz Hy. specialize (J_set0 z dz Hz Hdz).
        specialize (J_min0 y Hy). lra.
      * assumption.
      * intros z n e Hz Hn He. destruct (decide (z = a)) as [->|Hne].
        -- rewrite Hmn in Hn. injection Hn as <-.
           destruct (J_done0 e He) as (d' & Hd' & Hle'). eauto.
        -- eauto.
    + unfold potential. rewrite HU. cbn [sum_list_with].
      pose proof (J_len _ _ _ _ _ _ HJ) as Hl.
      unfold outdeg at 2. rewrite Hmn. lia.
  - (* the node was settled before: nothing changes *)
    exists U. rewrite (relax_noop _ a d).
    + split.
      * destruct HI. constructor; simpl; try assumption.
        -- intros y Hy. apply I_reach0, Hsub, Hy.
        -- intros y Hy. apply I_le0, Hsub, Hy.
        -- intros z dz y Hz Hdz Hy. eapply I_set0; eauto.
        -- intros b db Hb Hdb.
           destruct (I_uns0 b db Hb Hdb) as (y & Hy & Hny & Hdy).
           rewrite Hperm in Hy. apply elem_of_cons in Hy as [->|Hy].
           ++ rewrite Hx in Hny. injection Hny as <-. contradiction.
           ++ eauto.
      * unfold potential. simpl. lia.
    + exact Hd.
    + intros e He. simpl.
      destruct (I_edge _ _ HI a mn e HaU Hmn He) as (d0 & d' & Hd0 & Hd' & Hle).
      rewrite Hd in Hd0. injection Hd0 as <-. eauto.
Qed.

(** The loop of [Dijkstra] when the target cannot be reached: with fuel
    for the potential it is left with an empty queue, and [mid], if set,
    is a node reachable from [u]. *)
Lemma Dijkstra_loop_unreachable vb :
  Some vb ∈ Nodes g -> ~ reachable mem ua vb ->
  forall fuel U st mid,
  Inv U st -> (potential U st <= fuel)%nat ->
  (forall m, mid = Some m -> exists a, node m = Some a /\ reachable mem ua a) ->
  exists st' mid',
    Dijkstra_loop fuel mem (Some vb) st mid = Done (st', mid') /\
    (forall m, mid' = Some m -> exists a, node m = Some a /\ reachable mem ua a).
Proof.
  intros Hv Hnr. destruct (in_graph_valid vb Hv) as [vn Hvn].
  induction fuel as [|fuel IH]; intros U st mid HI Hfuel Hmid.
  all: cbn [Dijkstra_loop]; destruct (Z.of_nat (length (queue st)) >? 0) eqn:Hc.
  all: try (exists st, mid; split; [reflexivity | exact Hmid]).
  - rewrite Z.gtb_ltb, Z.ltb_lt in Hc. unfold potential in Hfuel. lia.
  - assert (Hne : queue st <> []).
    { intros Hq. rewrite Hq in Hc. discriminate Hc. }
    destruct (heap.Pop_min (queue st) (I_heap _ _ HI) Hne)
      as (x & Q' & -> & HQ' & Hperm & Hmin).
    assert (Hxin : x ∈ queue st) by (rewrite Hperm; left).
    destruct (I_reach _ _ HI x Hxin) as (a & Ha & Hra).
    destruct (in_graph_valid a (reachable_in_graph a Hra)) as [mn Hmn].
    rewrite Ha. cbn [deref obind]. rewrite Hmn, Hvn. cbn [obind].
    assert (Hid : (ID mn =? ID vn) = false).
    { apply Z.eqb_neq. intros Heq. apply Hnr.
      rewrite <- (ID_inj a vb mn vn (reachable_in_graph a Hra) Hv Hmn Hvn Heq).
      exact Hra. }
    rewrite Hid.
    destruct (pop_step U st x Q' a mn HI Hperm HQ' Hmin Ha Hmn) as (U' & HI' & Hpot).
    apply (IH U'); [exact HI' | lia |].
    intros m [= <-]. eauto.
Qed.

End Unreachable.

(** A queue of one item. *)
Lemma Pop_singleton {A} {less : A -> A -> bool} `{H : heap.Impl A less} (x : A) :
  heap.Init [x] = [x] /\ heap.Pop [x] = Some (x, []).
Proof.
  assert (Hi : heap.Init [x] = [x]).
  { apply Permutation_singleton_r, heap.Init_perm. }
  split; [exact Hi|].
  destruct (heap.Pop_min [x]) as (y & q' & HP & _ & Hperm & _).
  - rewrite <- Hi. apply heap.Init_heap.
  - discriminate.
  - apply Permutation_singleton_l in Hperm. injection Hperm as <- <-. exact HP.
Qed.

(** Once the walk back to [u] is at nil it stays there: [next[nil]] is
    nil. *)
Lemma walk_back_nil (fuel : nat) (u : ptr) (path : list ptr) :
  u <> None -> walk_back fuel ∅ u None path = OutOfFuel.
Proof.
  intros Hu. revert path. induction fuel as [|fuel IH]; intros path.
  - simpl. rewrite bool_decide_eq_false_2 by congruence. reflexivity.
  - simpl. rewrite bool_decide_eq_false_2 by congruence. simpl.
    rewrite lookup_empty. simpl. apply IH.
Qed.

(** Two different allocated nodes with the same ID: the loop pops [u],
    takes it for [v] because [mid.node.ID == v.ID], and the walk from [v]
    back to [u] through the empty map [next] never arrives.  No amount of
    fuel gives a result, whatever the heap. *)
Lemma Dijkstra_same_ID `{H : heap.Impl _ Less} mem g (u v : nat) un vn fuel :
  mem !! u = Some un -> mem !! v = Some vn -> ID un = ID vn -> u <> v ->
  Dijkstra fuel mem g (Some u) (Some v) = OutOfFuel.
Proof.
  intros Hu Hv Hid Hne. unfold Dijkstra.
  destruct (Pop_singleton (mkDistanceNode (Some u) 0%Q 0%Q false)) as [Hi Hp].
  rewrite Hi. destruct fuel as [|fuel]; [reflexivity|].
  cbn [Dijkstra_loop queue length Z.of_nat].
  change (Z.of_nat 1 >? 0) with true. cbv iota.
  rewrite Hp. cbn [node deref]. rewrite Hu, Hv. cbn [obind].
  rewrite Hid, Z.eqb_refl. cbn [obind node deref]. rewrite ?Hu, ?Hv. cbn [obind].
  rewrite ?Hid, ?Z.eqb_refl. cbn [negb next].
  cbn [walk_back]. rewrite bool_decide_eq_false_2 by congruence. cbn [negb].
  rewrite lookup_empty. cbn [default]. rewrite walk_back_nil by discriminate.
  reflexivity.
Qed.

(** C9, as stated, fails: let [g1] hold the nodes A and B, without edges,
    and let B be added to a second graph afterwards, which resets [B.ID] to
    0, the ID of A.  In [g1] no weight is negative and B cannot be reached
    from A, yet [g1.Dijkstra(A, B)] returns nothing: it takes A for B and
    then walks back from B for ever.  No amount of fuel gives a result,
    whatever the heap. *)
Lemma Dijkstra_shared_node_never_returns :
  exists mem g,
    shared_node = Done (mem, g) /\
    Nodes g = [Some 0%nat; Some 1%nat] /\
    nonneg_weights mem /\
    ~ reachable mem 0 1 /\
    forall (H : heap.Impl Less) (fuel : nat),
      Dijkstra fuel mem g (Some 0%nat) (Some 1%nat) = OutOfFuel.
Proof.
  exists [mkNode 0 0%Q 0%Q [] []; mkNode 0 1%Q 1%Q [] []],
         (mkGraph [Some 0%nat; Some 1%nat]).
  split; [reflexivity|]. split; [reflexivity|]. split.
  { intros a n e Hn He. destruct a as [|[|a]]; simpl in Hn; try discriminate;
      injection Hn as <-; inversion He. }
  split.
  { intros Hr. apply rtc_inv in Hr as [Heq|(y & (n & e & Hn & He & _) & _)]; [discriminate|].
    simpl in Hn. injection Hn as <-. inversion He. }
  intros H fuel.
  apply (Dijkstra_same_ID _ _ 0 1 (mkNode 0 0%Q 0%Q [] []) (mkNode 0 1%Q 1%Q [] []));
    [reflexivity | reflexivity | reflexivity | discriminate].
Qed.

(** C9 (amended): in a graph as [AddNode] and [AddDirectedEdge] build it,
    where the i-th node of [g.Nodes] has ID i (no node of it was added to
    another graph afterwards) and edges stay inside the graph, whose edge
    weights are not negative, for nodes [u] and [v] of the graph such that
    [v] cannot be reached from [u], [Dijkstra(u, v)] returns the empty path
    and the distance +Inf.  It returns within one turn of its loop per edge
    of the allocated nodes, plus one, for every heap implementation. *)
Theorem Dijkstra_unreachable `{H : heap.Impl _ Less}
    (mem : memory) (g : DirectedGraph) (ua vb : nat) (fuel : nat) :
  wf_graph mem g ->
  nonneg_weights mem ->
  Some ua ∈ Nodes g ->
  Some vb ∈ Nodes g ->
  ~ reachable mem ua vb ->
  (edge_count mem + 1 <= fuel)%nat ->
  Dijkstra fuel mem g (Some ua) (Some vb) = Done ([], PosInf).
Proof.
  intros Hwf Hw Hu Hv Hnr Hfuel.
  destruct (in_graph_valid mem g Hwf ua Hu) as [un Hun].
  destruct (in_graph_valid mem g Hwf vb Hv) as [vn Hvn].
  set (it0 := mkDistanceNode (Some ua) 0%Q 0%Q false).
  set (st0 := mkSearch (<[Some ua := 0%Q]> ∅) ∅ (heap.Init [it0])).
  assert (Hin0 : forall x, x ∈ heap.Init [it0] <-> x = it0).
  { intros x. rewrite (heap.Init_perm [it0]). apply list_elem_of_singleton. }
  assert (Hseq : forall a n, mem !! a = Some n -> a ∈ seq 0 (length mem)).
  { intros a n Hn. apply elem_of_seq. apply lookup_lt_Some in Hn. lia. }
  assert (HI : Inv mem ua (seq 0 (length mem)) st0).
  { constructor; simpl.
    - apply heap.Init_heap.
    - apply NoDup_seq.
    - intros x ->%Hin0. exists ua. split; [reflexivity | apply rtc_refl].
    - intros x ->%Hin0. simpl. rewrite lookup_insert_eq.
      exists 0%Q. split; [reflexivity | apply Qle_refl].
    - intros a n Ha Hn. destruct Ha. eapply Hseq, Hn.
    - intros a d x Ha Hd _. destruct (decide (a = ua)) as [->|Hne].
      + destruct Ha. eapply Hseq, Hun.
      + rewrite lookup_insert_ne, lookup_empty in Hd by congruence. discriminate.
    - intros a d _ Hd. destruct (decide (a = ua)) as [->|Hne].
      + rewrite lookup_insert_eq in Hd. injection Hd as <-.
        exists it0. split; [apply Hin0; reflexivity | split; reflexivity].
      + rewrite lookup_insert_ne, lookup_empty in Hd by congruence. discriminate.
    - intros a n e Ha Hn. destruct Ha. eapply Hseq, Hn. }
  assert (Hpot : (potential mem (seq 0 (length mem)) st0 <= fuel)%nat).
  { unfold potential. simpl. rewrite (heap.Init_perm [it0]), outdeg_sum. simpl. lia. }
  destruct (Dijkstra_loop_unreachable mem g ua Hwf Hw Hu vb Hv Hnr fuel _ st0 None HI Hpot)
    as (st' & mid' & Hrun & Hmid); [discriminate|].
  unfold Dijkstra. fold it0. fold st0. rewrite Hrun. cbn [obind].
  destruct mid' as [m|]; [|reflexivity].
  destruct (Hmid m eq_refl) as (a & Ha & Hra).
  destruct (in_graph_valid mem g Hwf a (reachable_in_graph mem g ua Hwf Hu a Hra)) as [mn Hmn].
  rewrite Ha. cbn [deref obind]. rewrite Hmn, Hvn. cbn [obind].
  assert (Hid : (ID mn =? ID vn) = false).
  { apply Z.eqb_neq. intros Heq. apply Hnr.
    rewrite <- (ID_inj mem g Hwf a vb mn vn
                  (reachable_in_graph mem g ua Hwf Hu a Hra) Hv Hmn Hvn Heq).
    exact Hra. }
  rewrite Hid. reflexivity.
Qed.

Lemma triangle_edge a b : edge triangle_mem a b -> (b < 3)%nat.
Proof.
  intros (n & e & Hn & He & Hb).
  destruct a as [|[|[|[|a]]]]; simpl in Hn; try discriminate;
    injection Hn as <-; simpl in He;
    repeat (apply elem_of_cons in He as [->|He]; [simpl in Hb; injection Hb as <-; lia|]);
    inversion He.
Qed.

Lemma triangle_wf : wf_graph triangle_mem triangle.
Proof.
  split.
  - intros i p Hi. destruct i as [|[|[|[|i]]]]; simpl in Hi; try discriminate;
      injection Hi as <-; eexists _, _; (split; [reflexivity|]); split; reflexivity.
  - intros a n e _ Hn He.
    assert (Hb : exists b, To e = Some b /\ (b < 3)%nat).
    { destruct (To e) as [b|] eqn:Hb.
      - exists b. split; [reflexivity|]. apply (triangle_edge a). exists n, e. auto.
      - destruct a as [|[|[|[|a]]]]; simpl in Hn; try discriminate;
          injection Hn as <-; simpl in He;
          repeat (apply elem_of_cons in He as [->|He]; [discriminate Hb|]);
          inversion He. }
    destruct Hb as (b & -> & Hlt). simpl.
    destruct b as [|[|[|b]]]; [| | |lia]; repeat constructor.
Qed.

Lemma triangle_nonneg : nonneg_weights triangle_mem.
Proof.
  intros a n e Hn He.
  destruct a as [|[|[|[|a]]]]; simpl in Hn; try discriminate;
    injection Hn as <-; simpl in He;
    repeat (apply elem_of_cons in He as [->|He]; [simpl; lra|]);
    inversion He.
Qed.

Lemma triangle_D_unreachable : ~ reachable triangle_mem 0 3.
Proof.
  intros Hr.
  assert (Hlt : (3 < 3)%nat); [|lia].
  revert Hr. generalize 3%nat at 1 2. intros b Hr.
  apply rtc_inv_r in Hr as [Heq|(a & _ & Hab)]; [|eapply triangle_edge, Hab].
  subst b. lia.
Qed.

(** The theorem at work: from A, the node D of [triangle] is out of
    reach. *)
Lemma Dijkstra_unreachable_witness :
  (wf_graph triangle_mem triangle /\
   nonneg_weights triangle_mem /\
   Some 0%nat ∈ Nodes triangle /\
   Some 3%nat ∈ Nodes triangle /\
   ~ reachable triangle_mem 0 3 /\
   (edge_count triangle_mem + 1 <= 5)%nat) /\
  Dijkstra (H := naiveQueue) 5 triangle_mem triangle (Some 0%nat) (Some 3%nat)
  = Done ([], PosInf).
Proof.
  assert (H0 : Some 0%nat ∈ Nodes triangle) by (simpl; repeat constructor).
  assert (H3 : Some 3%nat ∈ Nodes triangle) by (simpl; repeat constructor).
  assert (Hc : (edge_count triangle_mem + 1 <= 5)%nat) by (simpl; lia).
  split.
  - repeat split; auto using triangle_wf, triangle_nonneg, triangle_D_unreachable.
    + apply triangle_wf.
    + apply triangle_wf.
  - apply (Dijkstra_unreachable triangle_mem triangle 0 3 5
             triangle_wf triangle_nonneg H0 H3 triangle_D_unreachable Hc).
Defined.

(** *** Building a graph: facts *)

Lemma wf_lookup mem g a :
  wf_graph mem g -> Some a ∈ Nodes g ->
  exists i n, Nodes g !! i = Some (Some a) /\ mem !! a = Some n /\ ID n = Z.of_nat i.
Proof.
  intros Hwf [i Hi]%list_elem_of_lookup.
  destruct (wf_nodes mem g Hwf i _ Hi) as (a' & n & [= <-] & Hn & Hid). eauto.
Qed.

Lemma index_lookup g i p : Nodes g !! i = Some p -> index g (Z.of_nat i) = Done p.
Proof.
  intros Hi. unfold index.
  assert (Hneg : (Z.of_nat i <? 0) = false) by (apply Z.ltb_ge; lia).
  rewrite Hneg, Nat2Z.id, Hi. reflexivity.
Qed.

Lemma wf_empty mem : wf_graph mem NewDirectedGraph.
Proof.
  split.
  - intros i p Hi. discriminate Hi.
  - intros a n e Ha. inversion Ha.
Qed.

(** X24: [AddNode(n)] of an allocated node that is not yet in the graph
    and has no outgoing edges keeps the graph well formed (the i-th node has
    ID i, edges lead to nodes of the graph): the node gets the ID
    [len(g.Nodes)] and becomes the last node of the graph, no other node is
    written, [g.Node(id)] with the new ID returns the node and
    [g.HasNode(n)] is true.  The empty graph of [NewDirectedGraph] is well
    formed. *)
Theorem AddNode_wf mem g a nd :
  wf_graph mem g -> mem !! a = Some nd -> Some a ∉ Nodes g -> EdgeStart nd = [] ->
  wf_graph mem NewDirectedGraph /\
  exists mem' g',
    AddNode mem g (Some a) = Done (mem', g') /\
    wf_graph mem' g' /\
    Nodes g' = Nodes g ++ [Some a] /\
    mem' !! a = Some (mkNode (Z.of_nat (length (Nodes g))) (X nd) (Y nd)
                        (EdgeEnd nd) (EdgeStart nd)) /\
    (forall b, b <> a -> mem' !! b = mem !! b) /\
    DirectedGraph_Node g' (Z.of_nat (length (Nodes g))) = Done (Some a) /\
    HasNode mem' g' (Some a) = Done true.
Proof.
  intros Hwf Ha Hnew Hes. split; [apply wf_empty|].
  assert (Hlt : (a < length mem)%nat) by (apply lookup_lt_Some in Ha; exact Ha).
  set (nd' := mkNode (Z.of_nat (length (Nodes g))) (X nd) (Y nd) (EdgeEnd nd) (EdgeStart nd)).
  exists (<[a := nd']> mem), (mkGraph (Nodes g ++ [Some a])).
  assert (Ha' : <[a := nd']> mem !! a = Some nd') by (apply list_lookup_insert_eq, Hlt).
  split; [unfold AddNode; simpl; rewrite Ha; reflexivity|].
  split; [|split; [reflexivity|]; split; [exact Ha'|]; split].
  - split.
    + intros i p Hi. simpl in Hi.
      destruct (decide (i < length (Nodes g))%nat) as [Hlti|Hge].
      * rewrite lookup_app_l in Hi by exact Hlti.
        destruct (wf_nodes mem g Hwf i p Hi) as (b & n & -> & Hn & Hid).
        exists b, n. split; [reflexivity|]. split; [|exact Hid].
        rewrite list_lookup_insert_ne; [exact Hn|].
        intros <-. apply Hnew. eapply list_elem_of_lookup_2, Hi.
      * rewrite lookup_app_r in Hi by lia.
        destruct (i - length (Nodes g))%nat as [|k] eqn:Ek; [|destruct k; discriminate Hi].
        injection Hi as <-. exists a, nd'. split; [reflexivity|]. split; [exact Ha'|].
        simpl. lia.
    + intros b n e Hb Hn He. simpl in *. apply elem_of_app. left.
      destruct (decide (b = a)) as [->|Hne].
      * rewrite Ha' in Hn. injection Hn as <-. simpl in He. rewrite Hes in He. inversion He.
      * rewrite list_lookup_insert_ne in Hn by congruence.
        apply elem_of_app in Hb as [Hb|Hb].
        -- eapply (wf_edges mem g Hwf); eauto.
        -- apply list_elem_of_singleton in Hb. congruence.
  - intros b Hb. apply list_lookup_insert_ne. congruence.
  - split.
    + unfold DirectedGraph_Node. simpl. rewrite length_app. simpl.
      assert (Hgt : (Z.of_nat (length (Nodes g) + 1) >? Z.of_nat (length (Nodes g))) = true)
        by (rewrite Z.gtb_ltb; apply Z.ltb_lt; lia).
      rewrite Hgt. apply index_lookup. simpl.
      rewrite lookup_app_r by lia. rewrite Nat.sub_diag. reflexivity.
    + unfold HasNode. simpl. rewrite Ha'. simpl. rewrite length_app. simpl.
      f_equal. apply Z.ltb_lt. lia.
Qed.


(** The run of [AddDirectedEdge] for an edge between two different nodes of
    the graph. *)
Lemma AddDirectedEdge_run mem g e a b na nb :
  wf_graph mem g ->
  From e = Some a -> To e = Some b ->
  Some a ∈ Nodes g -> Some b ∈ Nodes g -> a <> b ->
  mem !! a = Some na -> mem !! b = Some nb ->
  AddDirectedEdge mem g e
  = Done (<[b := mkNode (ID nb) (X nb) (Y nb) (EdgeEnd nb ++ [e]) (EdgeStart nb)]>
            (<[a := mkNode (ID na) (X na) (Y na) (EdgeEnd na) (EdgeStart na ++ [e])]> mem)).
Proof.
  intros Hwf Hf Ht Ha Hb Hab Hna Hnb.
  destruct (wf_lookup mem g a Hwf Ha) as (i & na' & Hi & Hna' & Hia).
  destruct (wf_lookup mem g b Hwf Hb) as (j & nb' & Hj & Hnb' & Hjb).
  rewrite Hna in Hna'. injection Hna' as <-.
  rewrite Hnb in Hnb'. injection Hnb' as <-.
  assert (Hij : i <> j) by (intros ->; rewrite Hi in Hj; congruence).
  assert (Hlti : (i < length (Nodes g))%nat) by (apply lookup_lt_Some in Hi; exact Hi).
  assert (Hltj : (j < length (Nodes g))%nat) by (apply lookup_lt_Some in Hj; exact Hj).
  set (na1 := mkNode (ID na) (X na) (Y na) (EdgeEnd na) (EdgeStart na ++ [e])).
  set (mem1 := <[a := na1]> mem).
  assert (Hb1 : mem1 !! b = Some nb).
  { unfold mem1. rewrite list_lookup_insert_ne by congruence. exact Hnb. }
  unfold AddDirectedEdge. rewrite Hf, Ht. simpl. rewrite Hna, Hnb. simpl.
  assert (E1 : (ID na =? ID nb) = false) by (apply Z.eqb_neq; lia).
  assert (E2 : (ID na <? Z.of_nat (length (Nodes g))) = true) by (apply Z.ltb_lt; lia).
  assert (E3 : (ID nb <? Z.of_nat (length (Nodes g))) = true) by (apply Z.ltb_lt; lia).
  assert (Hxa : index g (ID na) = Done (Some a)) by (rewrite Hia; apply index_lookup, Hi).
  assert (Hxb : index g (ID nb) = Done (Some b)) by (rewrite Hjb; apply index_lookup, Hj).
  rewrite E1, E2, E3. simpl.
  rewrite Hxa. simpl. rewrite Hna. simpl.
  fold na1. fold mem1. rewrite Hb1. simpl.
  rewrite Hxb. simpl. rewrite Hb1. simpl. reflexivity.
Qed.

(** Appending an edge between two nodes of the graph keeps the graph well
    formed. *)
Lemma wf_add_edge mem g e a b na nb :
  wf_graph mem g ->
  To e = Some b -> Some b ∈ Nodes g -> a <> b ->
  mem !! a = Some na -> mem !! b = Some nb ->
  wf_graph (<[b := mkNode (ID nb) (X nb) (Y nb) (EdgeEnd nb ++ [e]) (EdgeStart nb)]>
              (<[a := mkNode (ID na) (X na) (Y na) (EdgeEnd na) (EdgeStart na ++ [e])]> mem))
           g.
Proof.
  intros Hwf Ht Hb Hab Hna Hnb.
  assert (Hlta : (a < length mem)%nat) by (apply lookup_lt_Some in Hna; exact Hna).
  assert (Hltb : (b < length mem)%nat) by (apply lookup_lt_Some in Hnb; exact Hnb).
  set (na1 := mkNode (ID na) (X na) (Y na) (EdgeEnd na) (EdgeStart na ++ [e])).
  set (nb1 := mkNode (ID nb) (X nb) (Y nb) (EdgeEnd nb ++ [e]) (EdgeStart nb)).
  set (mem2 := <[b := nb1]> (<[a := na1]> mem)).
  assert (Ha2 : mem2 !! a = Some na1).
  { unfold mem2. rewrite list_lookup_insert_ne by congruence.
    apply list_lookup_insert_eq, Hlta. }
  assert (Hb2 : mem2 !! b = Some nb1).
  { unfold mem2. apply list_lookup_insert_eq. rewrite length_insert. exact Hltb. }
  assert (Hc2 : forall c, c <> a -> c <> b -> mem2 !! c = mem !! c).
  { intros c Hca Hcb. unfold mem2. rewrite !list_lookup_insert_ne by congruence.
    reflexivity. }
  split.
  - intros k p Hk. destruct (wf_nodes mem g Hwf k p Hk) as (c & n & -> & Hn & Hid).
    destruct (decide (c = a)) as [->|Hca].
    { exists a, na1. split; [reflexivity|]. split; [exact Ha2|].
      rewrite Hna in Hn. injection Hn as <-. exact Hid. }
    destruct (decide (c = b)) as [->|Hcb].
    { exists b, nb1. split; [reflexivity|]. split; [exact Hb2|].
      rewrite Hnb in Hn. injection Hn as <-. exact Hid. }
    exists c, n. split; [reflexivity|]. split; [|exact Hid].
    rewrite Hc2 by assumption. exact Hn.
  - intros c n e' Hc Hn He'.
    destruct (decide (c = a)) as [->|Hca].
    { rewrite Ha2 in Hn. injection Hn as <-. simpl in He'.
      apply elem_of_app in He' as [He'|He'].
      - eapply (wf_edges mem g Hwf); eauto.
      - apply list_elem_of_singleton in He' as ->. rewrite Ht. exact Hb. }
    destruct (decide (c = b)) as [->|Hcb].
    { rewrite Hb2 in Hn. injection Hn as <-. simpl in He'.
      eapply (wf_edges mem g Hwf); eauto. }
    rewrite Hc2 in Hn by assumption. eapply (wf_edges mem g Hwf); eauto.
Qed.

(** X25: [AddDirectedEdge(e)] for an edge between two different nodes of a
    well-formed graph returns and keeps the graph well formed: [e] is
    appended to [EdgeStart] of [e.From] and to [EdgeEnd] of [e.To], no other
    node is written, and there is now an edge from [e.From] to [e.To]. *)
Theorem AddDirectedEdge_wf mem g e a b na nb :
  wf_graph mem g ->
  From e = Some a -> To e = Some b ->
  Some a ∈ Nodes g -> Some b ∈ Nodes g -> a <> b ->
  mem !! a = Some na -> mem !! b = Some nb ->
  exists mem',
    AddDirectedEdge mem g e = Done mem' /\
    wf_graph mem' g /\
    mem' !! a = Some (mkNode (ID na) (X na) (Y na) (EdgeEnd na) (EdgeStart na ++ [e])) /\
    mem' !! b = Some (mkNode (ID nb) (X nb) (Y nb) (EdgeEnd nb ++ [e]) (EdgeStart nb)) /\
    (forall c, c <> a -> c <> b -> mem' !! c = mem !! c) /\
    edge mem' a b.
Proof.
  intros Hwf Hf Ht Ha Hb Hab Hna Hnb.
  assert (Hlta : (a < length mem)%nat) by (apply lookup_lt_Some in Hna; exact Hna).
  assert (Hltb : (b < length mem)%nat) by (apply lookup_lt_Some in Hnb; exact Hnb).
  eexists. split; [apply (AddDirectedEdge_run mem g e a b na nb); assumption|].
  split; [apply wf_add_edge; assumption|].
  assert (Ha2 : <[b := mkNode (ID nb) (X nb) (Y nb) (EdgeEnd nb ++ [e]) (EdgeStart nb)]>
                  (<[a := mkNode (ID na) (X na) (Y na) (EdgeEnd na) (EdgeStart na ++ [e])]> mem)
                !! a
                = Some (mkNode (ID na) (X na) (Y na) (EdgeEnd na) (EdgeStart na ++ [e]))).
  { rewrite list_lookup_insert_ne by congruence. apply list_lookup_insert_eq, Hlta. }
  split; [exact Ha2|]. split.
  { apply list_lookup_insert_eq. rewrite length_insert. exact Hltb. }
  split.
  { intros c Hca Hcb. rewrite !list_lookup_insert_ne by congruence. reflexivity. }
  eexists _, e. split; [exact Ha2|]. split; [|exact Ht].
  simpl. apply elem_of_app. right. left.
Qed.

Lemma find_snoc {A} (f : A -> bool) l x :
  List.find f (l ++ [x])
  = match List.find f l with
    | Some y => Some y
    | None => if f x then Some x else None
    end.
Proof.
  induction l as [|y l IH]; simpl; [reflexivity|].
  destruct (f y); [reflexivity | exact IH].
Qed.

(** [Weight] on two nodes with different IDs, the first in the graph. *)
Lemma Weight_in_graph mem g a b na nb :
  wf_graph mem g -> Some a ∈ Nodes g ->
  mem !! a = Some na -> mem !! b = Some nb -> ID na <> ID nb ->
  DirectedGraph_Weight mem g (Some a) (Some b)
  = Done (match List.find (fun e => bool_decide (To e = Some b)) (EdgeStart na) with
          | Some e => (Weight e, true)
          | None => (0%Q, false)
          end).
Proof.
  intros Hwf Ha Hna Hnb Hid.
  destruct (wf_lookup mem g a Hwf Ha) as (i & na' & Hi & Hna' & Hia).
  rewrite Hna in Hna'. injection Hna' as <-.
  unfold DirectedGraph_Weight. simpl. rewrite Hna, Hnb. simpl.
  assert (E : (ID na =? ID nb) = false) by (apply Z.eqb_neq; exact Hid).
  assert (Hxa : index g (ID na) = Done (Some a)) by (rewrite Hia; apply index_lookup, Hi).
  rewrite E, Hxa. simpl. rewrite Hna. reflexivity.
Qed.

(** X27: [Weight] after [AddDirectedEdge(e)] on a well-formed graph, for an
    edge [e] from [a] to another node [b].  If there was no edge from [a]
    to [b], [Weight(a, b)] was [(0, false)] and is now [(e.Weight, true)].
    If there was one, [Weight(a, b)] is unchanged: the edge added first
    answers, not the new one.  [Weight(a, a)] is [(0, false)]. *)
Theorem Weight_after_AddDirectedEdge mem g e a b na nb :
  wf_graph mem g ->
  From e = Some a -> To e = Some b ->
  Some a ∈ Nodes g -> Some b ∈ Nodes g -> a <> b ->
  mem !! a = Some na -> mem !! b = Some nb ->
  exists mem',
    AddDirectedEdge mem g e = Done mem' /\
    (Forall (fun e' => To e' <> Some b) (EdgeStart na) ->
     DirectedGraph_Weight mem g (Some a) (Some b) = Done (0%Q, false) /\
     DirectedGraph_Weight mem' g (Some a) (Some b) = Done (Weight e, true)) /\
    (forall w, DirectedGraph_Weight mem g (Some a) (Some b) = Done (w, true) ->
               DirectedGraph_Weight mem' g (Some a) (Some b) = Done (w, true)) /\
    DirectedGraph_Weight mem' g (Some a) (Some a) = Done (0%Q, false).
Proof.
  intros Hwf Hf Ht Ha Hb Hab Hna Hnb.
  assert (Hlta : (a < length mem)%nat) by (apply lookup_lt_Some in Hna; exact Hna).
  assert (Hltb : (b < length mem)%nat) by (apply lookup_lt_Some in Hnb; exact Hnb).
  set (na1 := mkNode (ID na) (X na) (Y na) (EdgeEnd na) (EdgeStart na ++ [e])).
  set (nb1 := mkNode (ID nb) (X nb) (Y nb) (EdgeEnd nb ++ [e]) (EdgeStart nb)).
  pose proof (wf_add_edge mem g e a b na nb Hwf Ht Hb Hab Hna Hnb) as Hwf'.
  fold na1 nb1 in Hwf'.
  exists (<[b := nb1]> (<[a := na1]> mem)).
  split; [apply (AddDirectedEdge_run mem g e a b na nb); assumption|].
  assert (Ha2 : <[b := nb1]> (<[a := na1]> mem) !! a = Some na1).
  { rewrite list_lookup_insert_ne by congruence. apply list_lookup_insert_eq, Hlta. }
  assert (Hb2 : <[b := nb1]> (<[a := na1]> mem) !! b = Some nb1).
  { apply list_lookup_insert_eq. rewrite length_insert. exact Hltb. }
  assert (Hid : ID na <> ID nb).
  { destruct (wf_lookup mem g a Hwf Ha) as (i & na' & Hi & Hna' & Hia).
    destruct (wf_lookup mem g b Hwf Hb) as (j & nb' & Hj & Hnb' & Hjb).
    rewrite Hna in Hna'. injection Hna' as <-.
    rewrite Hnb in Hnb'. injection Hnb' as <-.
    intros E. assert (i = j) by lia. subst j. rewrite Hi in Hj. congruence. }
  assert (Hafter : DirectedGraph_Weight (<[b := nb1]> (<[a := na1]> mem)) g (Some a) (Some b)
                   = Done (match List.find (fun e0 => bool_decide (To e0 = Some b))
                                   (EdgeStart na ++ [e]) with
                           | Some e0 => (Weight e0, true)
                           | None => (0%Q, false)
                           end)).
  { apply (Weight_in_graph _ g a b na1 nb1 Hwf' Ha Ha2 Hb2). exact Hid. }
  pose proof (Weight_in_graph mem g a b na nb Hwf Ha Hna Hnb Hid) as Hbefore.
  rewrite find_snoc in Hafter.
  assert (Hte : bool_decide (To e = Some b) = true) by (apply bool_decide_eq_true; exact Ht).
  rewrite Hte in Hafter.
  split; [|split].
  - intros Hnone.
    assert (Hfind : List.find (fun e0 => bool_decide (To e0 = Some b)) (EdgeStart na) = None).
    { clear -Hnone. induction Hnone as [|e0 l He0 _ IH]; [reflexivity|].
      simpl. rewrite bool_decide_eq_false_2 by exact He0. exact IH. }
    rewrite Hfind in Hbefore, Hafter. auto.
  - intros w Hw. rewrite Hbefore in Hw. rewrite Hafter.
    destruct (List.find _ (EdgeStart na)) as [e0|]; [|discriminate].
    injection Hw as <-. reflexivity.
  - unfold DirectedGraph_Weight. simpl. rewrite Ha2. simpl.
    rewrite Z.eqb_refl. reflexivity.
Qed.

Lemma deref_inv mem p n : deref mem p = Done n -> exists a, p = Some a /\ mem !! a = Some n.
Proof.
  unfold deref. destruct p as [a|]; [|discriminate].
  destruct (mem !! a) as [n'|] eqn:E; [|discriminate].
  intros [= <-]. eauto.
Qed.

Lemma index_inv g i p :
  index g i = Done p -> 0 <= i < Z.of_nat (length (Nodes g)) /\ Nodes g !! Z.to_nat i = Some p.
Proof.
  unfold index. destruct (i <? 0) eqn:E; [discriminate|].
  apply Z.ltb_ge in E.
  destruct (Nodes g !! Z.to_nat i) as [q|] eqn:Hq; [|discriminate].
  intros [= <-]. split; [|reflexivity]. apply lookup_lt_Some in Hq. lia.
Qed.

(** What a returning call of [AddDirectedEdge] has checked and done. *)
Lemma AddDirectedEdge_inv mem g e mem' :
  AddDirectedEdge mem g e = Done mem' ->
  exists a b nf nt p1 p2,
    From e = Some a /\ To e = Some b /\ mem !! a = Some nf /\ mem !! b = Some nt /\
    ID nf <> ID nt /\
    0 <= ID nf < Z.of_nat (length (Nodes g)) /\
    0 <= ID nt < Z.of_nat (length (Nodes g)) /\
    Nodes g !! Z.to_nat (ID nf) = Some (Some p1) /\
    Nodes g !! Z.to_nat (ID nt) = Some (Some p2) /\
    (exists n1, mem' !! p1 = Some n1 /\ e ∈ EdgeStart n1) /\
    (exists n2, mem' !! p2 = Some n2 /\ e ∈ EdgeEnd n2) /\
    length mem' = length mem.
Proof.
  unfold AddDirectedEdge. intros Hrun.
  destruct (deref mem (From e)) as [nf| |] eqn:Hf; try discriminate.
  destruct (deref mem (To e)) as [nt| |] eqn:Ht; try discriminate.
  cbn [obind] in Hrun.
  destruct (ID nf =? ID nt) eqn:E1; [discriminate|].
  destruct (ID nf <? Z.of_nat (length (Nodes g))) eqn:E2; [|discriminate].
  destruct (ID nt <? Z.of_nat (length (Nodes g))) eqn:E3; [|discriminate].
  cbn [negb] in Hrun.
  apply Z.eqb_neq in E1. apply Z.ltb_lt in E2. apply Z.ltb_lt in E3.
  destruct (index g (ID nf)) as [q1| |] eqn:Hi1; try discriminate. cbn [obind] in Hrun.
  destruct (deref mem q1) as [n1| |] eqn:Hn1; try discriminate. cbn [obind] in Hrun.
  apply deref_inv in Hf as (a & Hfa & Ha). apply deref_inv in Ht as (b & Htb & Hb).
  apply deref_inv in Hn1 as (p1 & -> & Hp1).
  apply index_inv in Hi1 as [Hr1 Hl1].
  set (n1' := mkNode (ID n1) (X n1) (Y n1) (EdgeEnd n1) (EdgeStart n1 ++ [e])) in *.
  cbn [assign] in Hrun. set (mem1 := <[p1 := n1']> mem) in *.
  assert (Hlt1 : (p1 < length mem)%nat) by (apply lookup_lt_Some in Hp1; exact Hp1).
  assert (Hto1 : exists to1, deref mem1 (To e) = Done to1 /\ ID to1 = ID nt).
  { rewrite Htb. simpl. destruct (decide (b = p1)) as [->|Hne].
    - unfold mem1. rewrite list_lookup_insert_eq by (unfold mem1 in *; rewrite ?length_insert in *; assumption).
      exists n1'. split; [reflexivity|]. simpl. congruence.
    - unfold mem1. rewrite list_lookup_insert_ne by congruence. rewrite Hb. eauto. }
  destruct Hto1 as (to1 & Hd1 & Hid1). rewrite Hd1 in Hrun. cbn [obind] in Hrun.
  rewrite Hid1 in Hrun.
  destruct (index g (ID nt)) as [q2| |] eqn:Hi2; try discriminate. cbn [obind] in Hrun.
  destruct (deref mem1 q2) as [n2| |] eqn:Hn2; try discriminate. cbn [obind] in Hrun.
  apply deref_inv in Hn2 as (p2 & -> & Hp2).
  apply index_inv in Hi2 as [Hr2 Hl2].
  injection Hrun as <-. cbn [assign].
  assert (Hlt2 : (p2 < length mem1)%nat) by (apply lookup_lt_Some in Hp2; exact Hp2).
  exists a, b, nf, nt, p1, p2.
  repeat (split; [assumption || lia|]).
  split; [|split; [|unfold mem1; rewrite !length_insert; reflexivity]].
  - destruct (decide (p1 = p2)) as [<-|Hne].
    + rewrite list_lookup_insert_eq by (unfold mem1 in *; rewrite ?length_insert in *; assumption). eexists. split; [reflexivity|].
      simpl. unfold mem1 in Hp2. rewrite list_lookup_insert_eq in Hp2 by (unfold mem1 in *; rewrite ?length_insert in *; assumption).
      injection Hp2 as <-. simpl. apply elem_of_app. right. left.
    + rewrite list_lookup_insert_ne by congruence. unfold mem1.
      rewrite list_lookup_insert_eq by (unfold mem1 in *; rewrite ?length_insert in *; assumption). exists n1'. split; [reflexivity|].
      simpl. apply elem_of_app. right. left.
  - rewrite list_lookup_insert_eq by (unfold mem1 in *; rewrite ?length_insert in *; assumption). eexists. split; [reflexivity|].
    simpl. apply elem_of_app. right. left.
Qed.

Lemma AddDirectedEdge_no_fuel mem g e : AddDirectedEdge mem g e <> OutOfFuel.
Proof.
  unfold AddDirectedEdge, index, deref, obind, assign.
  repeat case_match; discriminate.
Qed.

(** X26: [AddDirectedEdge(e)] returns only if [e.From] and [e.To] are
    allocated nodes with different IDs, both at least 0 and below
    [len(g.Nodes)]; in every other case it panics (self edge, unknown node,
    nil node, negative ID).  When it returns, [e] is in [EdgeStart] of the
    node [g.Nodes[e.From.ID]] and in [EdgeEnd] of the node
    [g.Nodes[e.To.ID]], which need not be [e.From] and [e.To] themselves,
    and no node is allocated. *)
Theorem AddDirectedEdge_returns mem g e :
  AddDirectedEdge mem g e = Panic \/
  exists mem' a b nf nt p1 p2,
    AddDirectedEdge mem g e = Done mem' /\
    From e = Some a /\ To e = Some b /\ mem !! a = Some nf /\ mem !! b = Some nt /\
    ID nf <> ID nt /\
    0 <= ID nf < Z.of_nat (length (Nodes g)) /\
    0 <= ID nt < Z.of_nat (length (Nodes g)) /\
    Nodes g !! Z.to_nat (ID nf) = Some (Some p1) /\
    Nodes g !! Z.to_nat (ID nt) = Some (Some p2) /\
    (exists n1, mem' !! p1 = Some n1 /\ e ∈ EdgeStart n1) /\
    (exists n2, mem' !! p2 = Some n2 /\ e ∈ EdgeEnd n2) /\
    length mem' = length mem.
Proof.
  destruct (AddDirectedEdge mem g e) as [mem'| |] eqn:Hrun.
  - right. destruct (AddDirectedEdge_inv mem g e mem' Hrun)
      as (a & b & nf & nt & p1 & p2 & Hrest).
    exists mem', a, b, nf, nt, p1, p2. split; [reflexivity | exact Hrest].
  - left. reflexivity.
  - destruct (AddDirectedEdge_no_fuel mem g e Hrun).
Qed.

(** *** Distances between nodes *)

Lemma Qsq_nonneg (a : Q) : (0 <= a * a)%Q.
Proof.
  destruct (Qlt_le_dec a 0) as [Hn|Hp].
  - assert (Hs : (a * a == (- a) * (- a))%Q) by ring. rewrite Hs.
    apply Qmult_le_0_compat; lra.
  - apply Qmult_le_0_compat; assumption.
Qed.

Lemma Qsq_zero (a : Q) : (a * a == 0)%Q -> (a == 0)%Q.
Proof.
  intros H. destruct (Qeq_dec a 0) as [E|E]; [exact E|].
  apply Qmult_integral in H. tauto.
Qed.

Lemma Qsq_sum_zero (a b : Q) : (a * a + b * b == 0)%Q -> (a == 0 /\ b == 0)%Q.
Proof.
  intros H. pose proof (Qsq_nonneg a). pose proof (Qsq_nonneg b).
  split; apply Qsq_zero; lra.
Qed.

(** X28: [SquaredDist(u, v)] is symmetric and never negative; it is zero
    when the two nodes have the same coordinates, and it is positive when
    they are at least [2^-500] apart along an axis.  (Nearer than that, the
    squares of the code may underflow to zero although the nodes
    differ.) *)
Theorem SquaredDist_metric mem u v un vn :
  mem !! u = Some un -> mem !! v = Some vn ->
  exists d d',
    SquaredDist mem (Some u) (Some v) = Done d /\
    SquaredDist mem (Some v) (Some u) = Done d' /\
    (d == d')%Q /\ (0 <= d)%Q /\
    ((X un == X vn)%Q /\ (Y un == Y vn)%Q -> (d == 0)%Q) /\
    ((tiny <= Qabs (X un - X vn))%Q \/ (tiny <= Qabs (Y un - Y vn))%Q ->
     (0 < d)%Q).
Proof.
  intros Hu Hv.
  set (ax := Qabs (X un - X vn)). set (ay := Qabs (Y un - Y vn)).
  unfold SquaredDist. simpl. rewrite Hu, Hv. simpl.
  eexists _, _. split; [reflexivity|]. split; [reflexivity|].
  split; [ring|].
  pose proof (Qsq_nonneg (Y un - Y vn)). pose proof (Qsq_nonneg (X un - X vn)).
  split; [lra|]. split.
  - intros [Hx Hy].
    assert (Ex : (X un - X vn == 0)%Q) by lra.
    assert (Ey : (Y un - Y vn == 0)%Q) by lra.
    rewrite Ex, Ey. ring.
  - pose proof tiny_pos as Ht.
    assert (Hsq : forall a : Q, (tiny <= Qabs a)%Q -> (0 < a * a)%Q).
    { intros a Ha. destruct (Qeq_dec a 0) as [E|E].
      - rewrite E in Ha. change (Qabs 0) with 0%Q in Ha. lra.
      - pose proof (Qsq_nonneg a).
        assert (~ (a * a == 0)%Q) by (intros E'; apply E, Qsq_zero, E'). lra. }
    unfold ax, ay. intros [Ho|Ho]; apply Hsq in Ho; lra.
Qed.

(** X29: [SquaredDistFromEdge(n, e)] is the squared distance from [n] to
    the nearest point of the segment from [e.From] to [e.To]: it is the
    squared distance to some point of the segment, and no point of the
    segment is nearer.  This holds also when the two ends coincide. *)
Theorem SquaredDistFromEdge_nearest mem n e f t nn nf nt :
  From e = Some f -> To e = Some t ->
  mem !! f = Some nf -> mem !! t = Some nt -> mem !! n = Some nn ->
  exists d,
    SquaredDistFromEdge mem (Some n) e = Done d /\
    (exists s0, (0 <= s0 <= 1)%Q /\
                (d == to_segment (X nn) (Y nn) (X nf) (Y nf) (X nt) (Y nt) s0)%Q) /\
    (forall s, (0 <= s <= 1)%Q ->
               (d <= to_segment (X nn) (Y nn) (X nf) (Y nf) (X nt) (Y nt) s)%Q).
Proof.
  intros Hf Ht Hnf Hnt Hnn.
  unfold SquaredDistFromEdge. rewrite Hf, Ht. simpl. rewrite Hnf, Hnt, Hnn. simpl.
  set (x := Y nf). set (y := X nf).
  set (dx := (Y nt - x)%Q). set (dy := (X nt - y)%Q).
  set (a := (Y nn - x)%Q). set (b := (X nn - y)%Q).
  set (den := (dx * dx + dy * dy)%Q).
  set (num := (a * dx + b * dy)%Q).
  assert (Hseg : forall s,
            (to_segment (X nn) (Y nn) y x (X nt) (Y nt) s
             == a * a + b * b - 2 * s * num + s * s * den)%Q).
  { intros s. unfold to_segment, num, den, a, b, dx, dy, x, y. ring. }
  pose proof (Qsq_nonneg dx) as Hdx2. pose proof (Qsq_nonneg dy) as Hdy2.
  destruct (negb (eqb dx 0) || negb (eqb dy 0)) eqn:Hnz.
  - assert (Hden : (0 < den)%Q).
    { assert (Hne : ~ (dx == 0)%Q \/ ~ (dy == 0)%Q).
      { apply orb_true_iff in Hnz as [Hz|Hz]; apply negb_true_iff in Hz; [left|right];
          intros E; apply eqb_eq in E; congruence. }
      unfold den. destruct Hne as [Hne|Hne].
      + assert (~ (dx * dx == 0)%Q) by (intros E; apply Hne, Qsq_zero, E). lra.
      + assert (~ (dy * dy == 0)%Q) by (intros E; apply Hne, Qsq_zero, E). lra. }
    set (t' := (num / den)%Q).
    assert (Ht' : (t' * den == num)%Q).
    { unfold t'. field. lra. }
    destruct (gtb t' 1) eqn:H1.
    + apply ltb_lt in H1. eexists. split; [reflexivity|]. split.
      * exists 1%Q. split; [lra|]. rewrite (Hseg 1%Q). unfold num, den, a, b, dx, dy, x, y. ring.
      * intros s Hs. rewrite (Hseg s).
        assert (E : (((Y nn - Y nt) * (Y nn - Y nt) + (X nn - X nt) * (X nn - X nt))
                     == a * a + b * b - 2 * num + den)%Q).
        { unfold num, den, a, b, dx, dy, x, y. ring. }
        rewrite E. rewrite <- Ht'.
        assert (Hp : (0 <= den * ((1 - s) * (2 * t' - 1 - s)))%Q).
        { apply Qmult_le_0_compat; [lra|]. apply Qmult_le_0_compat; lra. }
        lra.
    + apply ltb_ge in H1. destruct (gtb t' 0) eqn:H0.
      * apply ltb_lt in H0. eexists. split; [reflexivity|]. split.
        -- exists t'. split; [lra|]. rewrite (Hseg t').
           unfold num, den, a, b, dx, dy, x, y. ring.
        -- intros s Hs. rewrite (Hseg s).
           assert (E : (((Y nn - (x + dx * t')) * (Y nn - (x + dx * t'))
                         + (X nn - (y + dy * t')) * (X nn - (y + dy * t')))
                        == a * a + b * b - 2 * t' * num + t' * t' * den)%Q).
           { unfold num, den, a, b, dx, dy, x, y. ring. }
           rewrite E. rewrite <- Ht'.
           assert (Hp : (0 <= den * ((s - t') * (s - t')))%Q).
           { apply Qmult_le_0_compat; [lra|]. apply Qsq_nonneg. }
           lra.
      * apply ltb_ge in H0. eexists. split; [reflexivity|]. split.
        -- exists 0%Q. split; [lra|]. rewrite (Hseg 0%Q). unfold num, den, a, b, dx, dy, x, y. ring.
        -- intros s Hs. rewrite (Hseg s). fold a. fold b. rewrite <- Ht'.
           assert (Hp : (0 <= den * (s * (s - 2 * t')))%Q).
           { apply Qmult_le_0_compat; [lra|]. apply Qmult_le_0_compat; lra. }
           lra.
  - assert (Hz : (dx == 0 /\ dy == 0)%Q).
    { apply orb_false_iff in Hnz as [Hx Hy].
      apply negb_false_iff in Hx. apply negb_false_iff in Hy.
      split; apply eqb_eq; assumption. }
    destruct Hz as [Hzx Hzy].
    assert (Hden : (den == 0)%Q) by (unfold den; rewrite Hzx, Hzy; ring).
    assert (Hnum : (num == 0)%Q) by (unfold num; rewrite Hzx, Hzy; ring).
    eexists. split; [reflexivity|]. split.
    + exists 0%Q. split; [lra|]. rewrite (Hseg 0%Q). unfold num, den, a, b, dx, dy, x, y. ring.
    + intros s Hs. rewrite (Hseg s). fold a. fold b. rewrite Hden, Hnum. lra.
Qed.

(** *** The builders at work *)

(** One allocated node that is not in a graph yet. *)
Lemma AddNode_wf_witness :
  exists mem' g',
    AddNode [mkNode 7 1%Q 2%Q [] []] NewDirectedGraph (Some 0%nat) = Done (mem', g') /\
    wf_graph mem' g' /\
    Nodes g' = [Some 0%nat] /\
    mem' !! 0%nat = Some (mkNode 0 1%Q 2%Q [] []).
Proof.
  destruct (AddNode_wf [mkNode 7 1%Q 2%Q [] []] NewDirectedGraph 0 (mkNode 7 1%Q 2%Q [] []))
    as (_ & mem' & g' & Hrun & Hwf & Hn & Hm & _).
  - apply wf_empty.
  - reflexivity.
  - intros Hin. inversion Hin.
  - reflexivity.
  - exists mem', g'. auto.
Defined.

Lemma triangle_nodes a : (a < 4)%nat -> Some a ∈ Nodes triangle.
Proof.
  intros Ha. apply (list_elem_of_lookup_2 _ a).
  destruct a as [|[|[|[|a]]]]; try reflexivity. lia.
Qed.

Lemma AddDirectedEdge_wf_witness :
  exists mem',
    AddDirectedEdge triangle_mem triangle eBA = Done mem' /\
    wf_graph mem' triangle /\ edge mem' 1 0.
Proof.
  destruct (AddDirectedEdge_wf triangle_mem triangle eBA 1 0
              (mkNode 1 0%Q 0%Q [eAB] [eBC]) (mkNode 0 0%Q 0%Q [] [eAB; eAC]))
    as (mem' & Hrun & Hwf & _ & _ & _ & He).
  - exact triangle_wf.
  - reflexivity.
  - reflexivity.
  - apply triangle_nodes. lia.
  - apply triangle_nodes. lia.
  - lia.
  - reflexivity.
  - reflexivity.
  - exists mem'. auto.
Defined.

Lemma Weight_after_AddDirectedEdge_witness :
  exists mem',
    AddDirectedEdge triangle_mem triangle eBA = Done mem' /\
    DirectedGraph_Weight triangle_mem triangle (Some 1%nat) (Some 0%nat) = Done (0%Q, false) /\
    DirectedGraph_Weight mem' triangle (Some 1%nat) (Some 0%nat) = Done (7%Q, true).
Proof.
  destruct (Weight_after_AddDirectedEdge triangle_mem triangle eBA 1 0
              (mkNode 1 0%Q 0%Q [eAB] [eBC]) (mkNode 0 0%Q 0%Q [] [eAB; eAC]))
    as (mem' & Hrun & Hnew & _ & _).
  - exact triangle_wf.
  - reflexivity.
  - reflexivity.
  - apply triangle_nodes. lia.
  - apply triangle_nodes. lia.
  - lia.
  - reflexivity.
  - reflexivity.
  - exists mem'. split; [exact Hrun|]. apply Hnew.
    repeat constructor. discriminate.
Defined.

Lemma SquaredDist_metric_witness :
  exists d d',
    SquaredDist [mkNode 0 0%Q 0%Q [] []; mkNode 1 3%Q 4%Q [] []] (Some 0%nat) (Some 1%nat)
    = Done d /\
    SquaredDist [mkNode 0 0%Q 0%Q [] []; mkNode 1 3%Q 4%Q [] []] (Some 1%nat) (Some 0%nat)
    = Done d' /\
    (d == d')%Q /\ (0 < d)%Q.
Proof.
  destruct (SquaredDist_metric [mkNode 0 0%Q 0%Q [] []; mkNode 1 3%Q 4%Q [] []] 0 1
              (mkNode 0 0%Q 0%Q [] []) (mkNode 1 3%Q 4%Q [] []) eq_refl eq_refl)
    as (d & d' & H1 & H2 & H3 & _ & _ & H6).
  exists d, d'. split; [exact H1|]. split; [exact H2|]. split; [exact H3|].
  apply H6. left. discriminate.
Defined.

Lemma SquaredDistFromEdge_nearest_witness :
  exists d,
    SquaredDistFromEdge
      [mkNode 0 0%Q 0%Q [] []; mkNode 1 4%Q 0%Q [] []; mkNode 2 1%Q 3%Q [] []]
      (Some 2%nat) (mkEdge (0, 1) (Some 0%nat) (Some 1%nat) 4%Q)
    = Done d /\
    forall s, (0 <= s <= 1)%Q -> (d <= to_segment 1 3 0 0 4 0 s)%Q.
Proof.
  destruct (SquaredDistFromEdge_nearest
              [mkNode 0 0%Q 0%Q [] []; mkNode 1 4%Q 0%Q [] []; mkNode 2 1%Q 3%Q [] []]
              2 (mkEdge (0, 1) (Some 0%nat) (Some 1%nat) 4%Q) 0 1
              (mkNode 2 1%Q 3%Q [] []) (mkNode 0 0%Q 0%Q [] []) (mkNode 1 4%Q 0%Q [] [])
              eq_refl eq_refl eq_refl eq_refl eq_refl)
    as (d & Hrun & _ & Hmin).
  exists d. split; [exact Hrun | exact Hmin].
Defined.

(** *** Dijkstra on a reachable target *)

Lemma route_nonneg mem a p x w :
  nonneg_weights mem -> route mem a p x w -> (0 <= w)%Q.
Proof.
  intros Hw. induction 1 as [|p b c nb e w Hr IH Hb He Hc]; [apply Qle_refl|].
  pose proof (Hw b nb e Hb He). lra.
Qed.

Lemma reachable_route mem a b : reachable mem a b -> exists p w, route mem a p b w.
Proof.
  revert b. apply (rtc_ind_r (fun b => exists p w, route mem a p b w)).
  - exists [Some a], 0%Q. constructor.
  - intros b c _ (n & e & Hn & He & Hc) (p & w & Hr).
    exists (p ++ [Some c]), (w + Weight e)%Q. econstructor; eauto.
Qed.

Lemma back_insert mem ua nxt x l d b0 v :
  back mem ua nxt x l d -> b0 <> x -> b0 ∉ l ->
  back mem ua (<[Some b0 := v]> nxt) x l d.
Proof.
  induction 1 as [|x b l nb e db Hx Hn Hb He Hc Hback IH]; intros Hne Hnin.
  - constructor.
  - apply not_elem_of_cons in Hnin as [Hb0 Hnin].
    econstructor; eauto.
    rewrite lookup_insert_ne by congruence. exact Hn.
Qed.

Lemma back_route mem ua nxt x l d :
  back mem ua nxt x l d -> route mem ua (map Some (reverse l) ++ [Some x]) x d.
Proof.
  induction 1 as [|x b l nb e db Hx Hn Hb He Hc Hback IH].
  - constructor.
  - rewrite reverse_cons, map_app. simpl. econstructor; eauto.
Qed.

Lemma back_det mem ua nxt x l d :
  back mem ua nxt x l d -> forall l' d', back mem ua nxt x l' d' -> l = l'.
Proof.
  induction 1 as [|x b l nb e db Hx Hn Hb He Hc Hback IH]; intros l' d' H'.
  - inversion H'; [reflexivity | congruence].
  - inversion H' as [|x' b' l0 nb' e' db' Hx' Hn' Hb' He' Hc' Hback']; subst; [congruence|].
    rewrite Hn in Hn'. injection Hn' as <-. f_equal. eapply IH, Hback'.
Qed.

Lemma back_suffix mem ua nxt x l d :
  back mem ua nxt x l d ->
  forall b, b ∈ l -> exists l' d', back mem ua nxt b l' d' /\ (length l' < length l)%nat.
Proof.
  induction 1 as [|x b l nb e db Hx Hn Hb He Hc Hback IH]; intros b0 Hin.
  - inversion Hin.
  - apply elem_of_cons in Hin as [->|Hin].
    + exists l, db. split; [exact Hback | simpl; lia].
    + destruct (IH b0 Hin) as (l' & d' & Hb' & Hlen).
      exists l', d'. split; [exact Hb' | simpl; lia].
Qed.

Lemma back_NoDup mem ua nxt x l d : back mem ua nxt x l d -> NoDup l.
Proof.
  induction 1 as [|x b l nb e db Hx Hn Hb He Hc Hback IH]; [constructor|].
  constructor; [|exact IH]. intros Hin.
  destruct (back_suffix _ _ _ _ _ _ Hback b Hin) as (l' & d' & Hb' & Hlen).
  rewrite (back_det _ _ _ _ _ _ Hback _ _ Hb') in Hlen. lia.
Qed.

Lemma back_outdeg mem ua nxt x l d :
  back mem ua nxt x l d -> Forall (fun b => (1 <= outdeg mem b)%nat) l.
Proof.
  induction 1 as [|x b l nb e db Hx Hn Hb He Hc Hback IH]; constructor; [|exact IH].
  unfold outdeg. rewrite Hb. destruct (EdgeStart nb); [inversion He | simpl; lia].
Qed.

Lemma sum_outdeg_NoDup mem l :
  NoDup l -> Forall (fun b => (1 <= outdeg mem b)%nat) l ->
  (length l <= edge_count mem)%nat.
Proof.
  intros Hnd Hall.
  assert (Hsub : l ⊆+ seq 0 (length mem)).
  { apply NoDup_submseteq; [exact Hnd|]. intros b Hb.
    rewrite Forall_forall in Hall. specialize (Hall b Hb).
    unfold outdeg in Hall. destruct (mem !! b) eqn:E; [|lia].
    apply elem_of_seq. apply lookup_lt_Some in E. lia. }
  apply submseteq_Permutation in Hsub as [k Hk].
  rewrite <- outdeg_sum, Hk, sum_list_with_app.
  assert (Hlen : (length l <= sum_list_with (outdeg mem) l)%nat).
  { clear -Hall. induction Hall as [|b l Hb _ IH]; simpl; lia. }
  lia.
Qed.

Lemma walk_back_spec mem ua nxt x l d :
  back mem ua nxt x l d ->
  forall fuel path, (length l <= fuel)%nat ->
  walk_back fuel nxt (Some ua) (Some x) path = Done (path ++ map Some l).
Proof.
  induction 1 as [|x b l nb e db Hx Hn Hb He Hc Hback IH]; intros fuel path Hfuel.
  - destruct fuel; simpl; rewrite bool_decide_eq_true_2 by reflexivity;
      simpl; rewrite app_nil_r; reflexivity.
  - destruct fuel as [|fuel]; [simpl in Hfuel; lia|].
    simpl. rewrite bool_decide_eq_false_2 by congruence. simpl.
    rewrite Hn. simpl. rewrite IH by (simpl in Hfuel; lia).
    rewrite <- app_assoc. reflexivity.
Qed.

Section Shortest.
Context {H : heap.Impl Less}.
Context (mem : memory) (g : DirectedGraph) (ua : nat).
Context (Hwf : wf_graph mem g) (Hw : nonneg_weights mem).
Context (Hu : Some ua ∈ Nodes g).

Lemma edge_target a n e :
  Some a ∈ Nodes g -> mem !! a = Some n -> e ∈ EdgeStart n -> exists b, To e = Some b.
Proof.
  intros Ha Hn He.
  pose proof (wf_edges mem g Hwf a n e Ha Hn He) as Hin.
  apply list_elem_of_lookup in Hin as [i Hi].
  destruct (wf_nodes mem g Hwf i _ Hi) as (b & _ & Hb & _). eauto.
Qed.

(** Every route from [u] passes a node that has a distance not above the
    weight of the route so far and is its end or is not settled. *)
Lemma route_frontier U st p c w :
  Inv mem ua U st -> Inv2 mem ua st -> route mem ua p c w ->
  exists y dy, forwardDist st !! Some y = Some dy /\ (dy <= w)%Q /\ (y = c \/ y ∈ U).
Proof.
  intros HI HK. induction 1 as [|p b c nb e w Hr IH Hb He Hc].
  - exists ua, 0%Q. split; [apply (K_zero _ _ _ HK)|]. split; [apply Qle_refl | auto].
  - destruct IH as (y & dy & Hy & Hle & Hcase).
    pose proof (Hw b nb e Hb He) as Hwe.
    destruct (decide (y ∈ U)) as [HyU|HyU].
    { exists y, dy. split; [exact Hy|]. split; [lra | auto]. }
    destruct Hcase as [->|?]; [|contradiction].
    destruct (I_edge _ _ _ _ HI b nb e HyU Hb He) as (d0 & d' & Hd0 & Hd' & Hle').
    rewrite Hy in Hd0. injection Hd0 as <-. rewrite Hc in Hd'.
    exists c, d'. split; [exact Hd'|]. split; [lra | auto].
Qed.

(** The distance of the node that is popped is final. *)
Lemma pop_optimal U st x Q' a d :
  Inv mem ua U st -> Inv2 mem ua st ->
  queue st ≡ₚ x :: Q' -> Forall (fun y => Less y x = false) Q' ->
  node x = Some a -> forwardDist st !! Some a = Some d ->
  optimal mem ua a d.
Proof.
  intros HI HK Hperm Hmin Hx Hd p w Hr.
  assert (Hxin : x ∈ queue st) by (rewrite Hperm; left).
  destruct (I_le _ _ _ _ HI x Hxin) as (d' & Hd' & Hdle).
  rewrite Hx, Hd in Hd'. injection Hd' as <-.
  destruct (route_frontier U st p a w HI HK Hr) as (y & dy & Hy & Hle & [->|HyU]).
  - rewrite Hd in Hy. injection Hy as <-. exact Hle.
  - destruct (I_uns _ _ _ _ HI y dy HyU Hy) as (z & Hz & Hnz & Hdz).
    rewrite Hperm in Hz. apply elem_of_cons in Hz as [->|Hz].
    + rewrite Hdz in Hdle. lra.
    + rewrite Forall_forall in Hmin. specialize (Hmin z Hz).
      apply ltb_ge in Hmin. rewrite Hdz in Hmin. lra.
Qed.

(** Relaxing an edge of a node whose distance is final keeps [Inv2] and
    keeps the target queued. *)
Lemma relax_keeps vb a d mn e st :
  Some a ∈ Nodes g -> mem !! a = Some mn -> e ∈ EdgeStart mn ->
  forwardDist st !! Some a = Some d -> optimal mem ua a d ->
  heap.is_heap (queue st) -> Inv2 mem ua st -> target_queued vb st ->
  forwardDist (relax (Some a) st e) !! Some a = Some d /\
  heap.is_heap (queue (relax (Some a) st e)) /\
  Inv2 mem ua (relax (Some a) st e) /\
  target_queued vb (relax (Some a) st e).
Proof.
  intros Ha Hmn He Hd Hopt Hheap HK HT.
  destruct (edge_target a mn e Ha Hmn He) as [b Hb].
  pose proof (Hw a mn e Hmn He) as Hwe.
  destruct (K_back _ _ _ HK a d Hd) as (la & Hla & Hall).
  pose proof (back_route _ _ _ _ _ _ Hla) as Hra.
  set (acc := (d + Weight e)%Q).
  assert (Hrb : route mem ua ((map Some (reverse la) ++ [Some a]) ++ [Some b]) b acc).
  { econstructor; eauto. }
  pose proof (route_nonneg mem ua _ _ _ Hw Hrb) as Hacc0.
  set (it := mkDistanceNode (Some b) acc 0%Q false).
  unfold relax. rewrite Hd, Hb. simpl. fold acc. fold it.
  assert (Hupd : (forwardDist st !! Some b = None \/
                  exists d', forwardDist st !! Some b = Some d' /\ (acc < d')%Q) ->
    let st' := mkSearch (<[Some b := acc]> (forwardDist st))
                        (<[Some b := Some a]> (next st))
                        (heap.Push (queue st) it) in
    forwardDist st' !! Some a = Some d /\ heap.is_heap (queue st') /\
    Inv2 mem ua st' /\ target_queued vb st').
  { intros Hcase st'.
    assert (Hnopt : forall db, forwardDist st !! Some b = Some db ->
                               optimal mem ua b db -> False).
    { intros db Hdb Ho. specialize (Ho _ _ Hrb).
      destruct Hcase as [Hnone|(d' & Hd' & Hlt)]; [congruence|].
      rewrite Hdb in Hd'. injection Hd' as <-. lra. }
    assert (Hba : b <> a).
    { intros ->. eapply Hnopt; eauto. }
    assert (Hbu : b <> ua).
    { intros ->. destruct Hcase as [Hnone|(d' & Hd' & Hlt)].
      - rewrite (K_zero _ _ _ HK) in Hnone. discriminate.
      - rewrite (K_zero _ _ _ HK) in Hd'. injection Hd' as <-. lra. }
    assert (Hnotin : forall l, Forall (fun c => exists db, forwardDist st !! Some c = Some db /\
                                                  optimal mem ua c db) l -> b ∉ l).
    { intros l Hl Hin. rewrite Forall_forall in Hl.
      destruct (Hl b Hin) as (db & Hdb & Ho). eapply Hnopt; eauto. }
    assert (Hkeep : forall l, Forall (fun c => exists db, forwardDist st !! Some c = Some db /\
                                                  optimal mem ua c db) l ->
                    Forall (fun c => exists db, forwardDist st' !! Some c = Some db /\
                                                optimal mem ua c db) l).
    { intros l Hl. pose proof (Hnotin l Hl) as Hn.
      rewrite Forall_forall in Hl |- *. intros c Hc.
      destruct (Hl c Hc) as (db & Hdb & Ho). exists db. split; [|exact Ho].
      simpl. rewrite lookup_insert_ne; [exact Hdb|]. intros [= <-]. contradiction. }
    assert (Hin : forall z, z ∈ heap.Push (queue st) it <-> z = it \/ z ∈ queue st).
    { intros z. rewrite (heap.Push_perm _ it Hheap). apply elem_of_cons. }
    split; [|split; [|split]].
    - simpl. rewrite lookup_insert_ne by congruence. exact Hd.
    - simpl. apply heap.Push_heap, Hheap.
    - split.
      + simpl. rewrite lookup_insert_ne by congruence. apply (K_zero _ _ _ HK).
      + intros x dx Hdx. simpl in Hdx. destruct (decide (x = b)) as [->|Hne].
        * rewrite lookup_insert_eq in Hdx. injection Hdx as <-.
          exists (a :: la). split.
          -- unfold acc. econstructor; eauto.
             ++ simpl. apply lookup_insert_eq.
             ++ simpl. apply back_insert; [exact Hla | exact Hba | apply Hnotin, Hall].
          -- constructor; [|apply Hkeep, Hall].
             exists d. split; [|exact Hopt].
             simpl. rewrite lookup_insert_ne by congruence. exact Hd.
        * rewrite lookup_insert_ne in Hdx by congruence.
          destruct (K_back _ _ _ HK x dx Hdx) as (l & Hl & Hlall).
          exists l. split; [|apply Hkeep, Hlall].
          simpl. apply back_insert; [exact Hl | congruence | apply Hnotin, Hlall].
    - destruct (decide (vb = b)) as [->|Hne].
      + right. exists it. split; [apply Hin; left; reflexivity | reflexivity].
      + destruct HT as [Hnone|(z & Hz & Hnz)].
        * left. simpl. rewrite lookup_insert_ne by congruence. exact Hnone.
        * right. exists z. split; [apply Hin; right; exact Hz | exact Hnz]. }
  destruct (forwardDist st !! Some b) as [d'|] eqn:Hd'.
  - destruct (ltb acc d') eqn:Hlt.
    + apply ltb_lt in Hlt. apply Hupd. right. eauto.
    + auto.
  - apply Hupd. left. reflexivity.
Qed.

Lemma relax_fold_keeps vb a d mn :
  Some a ∈ Nodes g -> mem !! a = Some mn -> optimal mem ua a d ->
  forall es st,
  (forall e, e ∈ es -> e ∈ EdgeStart mn) ->
  forwardDist st !! Some a = Some d ->
  heap.is_heap (queue st) -> Inv2 mem ua st -> target_queued vb st ->
  Inv2 mem ua (fold_left (relax (Some a)) es st) /\
  target_queued vb (fold_left (relax (Some a)) es st).
Proof.
  intros Ha Hmn Hopt. induction es as [|e es IH]; intros st Hes Hd Hheap HK HT.
  - auto.
  - simpl.
    destruct (relax_keeps vb a d mn e st Ha Hmn (Hes e ltac:(left)) Hd Hopt Hheap HK HT)
      as (Hd' & Hheap' & HK' & HT').
    apply IH; auto. intros e' He'. apply Hes. right. exact He'.
Qed.

(** The loop of [Dijkstra] when the target can be reached: with fuel for
    the potential it is left at the first pop of the target, whose
    distance is final then. *)
Lemma Dijkstra_loop_reaches vb :
  Some vb ∈ Nodes g -> reachable mem ua vb ->
  forall fuel U st mid,
  Inv mem ua U st -> Inv2 mem ua st -> target_queued vb st ->
  (potential mem U st <= fuel)%nat ->
  exists st' m d,
    Dijkstra_loop fuel mem (Some vb) st mid = Done (st', Some m) /\
    node m = Some vb /\ Inv2 mem ua st' /\
    forwardDist st' !! Some vb = Some d /\ optimal mem ua vb d.
Proof.
  intros Hv Hreach. destruct (in_graph_valid mem g Hwf vb Hv) as [vn Hvn].
  destruct (reachable_route mem ua vb Hreach) as (p0 & w0 & Hr0).
  induction fuel as [|fuel IH]; intros U st mid HI HK HT Hfuel.
  all: cbn [Dijkstra_loop]; destruct (Z.of_nat (length (queue st)) >? 0) eqn:Hc.
  all: try (
    (* the queue is empty: impossible while the target is reachable *)
    exfalso;
    assert (Hq : queue st = [])
      by (destruct (queue st); [reflexivity | simpl in Hc; discriminate Hc]);
    destruct (route_frontier U st p0 vb w0 HI HK Hr0) as (y & dy & Hy & _ & [->|HyU]);
    [ destruct HT as [Hnone|(z & Hz & _)];
      [ congruence | rewrite Hq in Hz; inversion Hz ]
    | destruct (I_uns _ _ _ _ HI y dy HyU Hy) as (z & Hz & _);
      rewrite Hq in Hz; inversion Hz ]).
  - rewrite Z.gtb_ltb, Z.ltb_lt in Hc. unfold potential in Hfuel. lia.
  - assert (Hne : queue st <> []).
    { intros Hq. rewrite Hq in Hc. discriminate Hc. }
    destruct (heap.Pop_min (queue st) (I_heap _ _ _ _ HI) Hne)
      as (x & Q' & -> & HQ' & Hperm & Hmin).
    assert (Hxin : x ∈ queue st) by (rewrite Hperm; left).
    destruct (I_reach _ _ _ _ HI x Hxin) as (a & Ha & Hra).
    pose proof (reachable_in_graph mem g ua Hwf Hu a Hra) as Hag.
    destruct (in_graph_valid mem g Hwf a Hag) as [mn Hmn].
    destruct (I_le _ _ _ _ HI x Hxin) as (d & Hd & _). rewrite Ha in Hd.
    pose proof (pop_optimal U st x Q' a d HI HK Hperm Hmin Ha Hd) as Hopt.
    rewrite Ha. cbn [deref obind]. rewrite Hmn, Hvn. cbn [obind].
    set (st0 := mkSearch (forwardDist st) (next st) Q').
    assert (HK0 : Inv2 mem ua st0).
    { destruct HK as [Hz Hb]. split; [exact Hz | exact Hb]. }
    destruct (ID mn =? ID vn) eqn:Hid.
    + apply Z.eqb_eq in Hid.
      pose proof (ID_inj mem g Hwf a vb mn vn Hag Hv Hmn Hvn Hid) as ->.
      exists st0, x, d. auto.
    + assert (Hav : a <> vb).
      { intros ->. rewrite Hmn in Hvn. injection Hvn as ->.
        rewrite Z.eqb_refl in Hid. discriminate. }
      destruct (pop_step mem g ua Hwf Hw Hu U st x Q' a mn HI Hperm HQ' Hmin Ha Hmn)
        as (U' & HI' & Hpot).
      assert (HT0 : target_queued vb st0).
      { destruct HT as [Hnone|(z & Hz & Hnz)]; [left; exact Hnone|].
        right. exists z. split; [|exact Hnz]. simpl.
        rewrite Hperm in Hz. apply elem_of_cons in Hz as [->|Hz]; [|exact Hz].
        rewrite Ha in Hnz. congruence. }
      destruct (relax_fold_keeps vb a d mn Hag Hmn Hopt (EdgeStart mn) st0
                  (fun e He => He) Hd HQ' HK0 HT0) as [HK' HT'].
      apply (IH U'); [exact HI' | exact HK' | exact HT' | unfold st0 in *; lia].
Qed.

End Shortest.

(** The invariants hold when the loop of [Dijkstra] is entered. *)
Lemma Dijkstra_init `{H : heap.Impl _ Less} mem g ua vb :
  wf_graph mem g -> Some ua ∈ Nodes g ->
  let st0 := mkSearch (<[Some ua := 0%Q]> ∅) ∅
               (heap.Init [mkDistanceNode (Some ua) 0%Q 0%Q false]) in
  Inv mem ua (seq 0 (length mem)) st0 /\ Inv2 mem ua st0 /\ target_queued vb st0 /\
  (potential mem (seq 0 (length mem)) st0 <= edge_count mem + 1)%nat.
Proof.
  intros Hwf Hu.
  destruct (in_graph_valid mem g Hwf ua Hu) as [un Hun].
  set (it0 := mkDistanceNode (Some ua) 0%Q 0%Q false). intros st0.
  assert (Hin0 : forall x, x ∈ heap.Init [it0] <-> x = it0).
  { intros x. rewrite (heap.Init_perm [it0]). apply list_elem_of_singleton. }
  assert (Hseq : forall a n, mem !! a = Some n -> a ∈ seq 0 (length mem)).
  { intros a n Hn. apply elem_of_seq. apply lookup_lt_Some in Hn. lia. }
  split; [|split; [|split]].
  - constructor; simpl.
    + apply heap.Init_heap.
    + apply NoDup_seq.
    + intros x ->%Hin0. exists ua. split; [reflexivity | apply rtc_refl].
    + intros x ->%Hin0. simpl. rewrite lookup_insert_eq.
      exists 0%Q. split; [reflexivity | apply Qle_refl].
    + intros a n Ha Hn. destruct Ha. eapply Hseq, Hn.
    + intros a d x Ha Hd _. destruct (decide (a = ua)) as [->|Hne].
      * destruct Ha. eapply Hseq, Hun.
      * rewrite lookup_insert_ne, lookup_empty in Hd by congruence. discriminate.
    + intros a d _ Hd. destruct (decide (a = ua)) as [->|Hne].
      * rewrite lookup_insert_eq in Hd. injection Hd as <-.
        exists it0. split; [apply Hin0; reflexivity | split; reflexivity].
      * rewrite lookup_insert_ne, lookup_empty in Hd by congruence. discriminate.
    + intros a n e Ha Hn. destruct Ha. eapply Hseq, Hn.
  - split; simpl.
    + apply lookup_insert_eq.
    + intros x d Hd. destruct (decide (x = ua)) as [->|Hne].
      * rewrite lookup_insert_eq in Hd. injection Hd as <-.
        exists []. split; constructor.
      * rewrite lookup_insert_ne, lookup_empty in Hd by congruence. discriminate.
  - destruct (decide (vb = ua)) as [->|Hne].
    + right. exists it0. split; [apply Hin0; reflexivity | reflexivity].
    + left. simpl. rewrite lookup_insert_ne, lookup_empty by congruence. reflexivity.
  - unfold potential. simpl. rewrite (heap.Init_perm [it0]), outdeg_sum. simpl. lia.
Qed.

(** X30: in a graph built by [AddNode] and [AddDirectedEdge] whose edge
    weights are not negative, for nodes [u] and [v] of the graph such that
    [v] can be reached from [u], [Dijkstra(u, v)] returns a path and a
    finite distance: the path starts at [u], follows edges of the graph and
    ends at [v]; the distance is the sum of the weights of these edges; and
    no route from [u] to [v] weighs less.  It returns within one turn of
    its loop per edge of the allocated nodes, plus one, for every heap
    implementation. *)
Theorem Dijkstra_shortest `{H : heap.Impl _ Less}
    (mem : memory) (g : DirectedGraph) (ua vb : nat) (fuel : nat) :
  wf_graph mem g ->
  nonneg_weights mem ->
  Some ua ∈ Nodes g ->
  Some vb ∈ Nodes g ->
  reachable mem ua vb ->
  (edge_count mem + 1 <= fuel)%nat ->
  exists path d,
    Dijkstra fuel mem g (Some ua) (Some vb) = Done (path, Finite d) /\
    route mem ua path vb d /\
    forall p w, route mem ua p vb w -> (d <= w)%Q.
Proof.
  intros Hwf Hw Hu Hv Hreach Hfuel.
  destruct (in_graph_valid mem g Hwf vb Hv) as [vn Hvn].
  destruct (Dijkstra_init mem g ua vb Hwf Hu) as (HI & HK & HT & Hpot).
  destruct (Dijkstra_loop_reaches mem g ua Hwf Hw Hu vb Hv Hreach fuel _ _ None HI HK HT)
    as (st' & m & d & Hrun & Hm & HK' & Hd & Hopt); [lia|].
  destruct (K_back _ _ _ HK' vb d Hd) as (l & Hl & _).
  assert (Hlen : (length l <= fuel)%nat).
  { pose proof (sum_outdeg_NoDup mem l (back_NoDup _ _ _ _ _ _ Hl)
                  (back_outdeg _ _ _ _ _ _ Hl)). lia. }
  exists (map Some (reverse l) ++ [Some vb]), d.
  split; [|split; [apply (back_route _ _ _ _ _ _ Hl) | exact Hopt]].
  unfold Dijkstra. rewrite Hrun. cbn [obind]. rewrite Hm. cbn [deref obind].
  rewrite Hvn. cbn [obind]. rewrite Z.eqb_refl. cbn [negb].
  rewrite (walk_back_spec _ _ _ _ _ _ Hl fuel [Some vb] Hlen). cbn [obind].
  rewrite Hd. simpl. rewrite reverse_cons. f_equal. f_equal. f_equal.
  change (map Some l) with (Some <$> l). change (map Some (reverse l)) with (Some <$> reverse l).
  rewrite fmap_reverse. reflexivity.
Qed.

Lemma Dijkstra_shortest_witness :
  exists path d,
    Dijkstra (H := naiveQueue) 4 triangle_mem triangle (Some 0%nat) (Some 2%nat)
    = Done (path, Finite d) /\
    route triangle_mem 0 path 2 d /\
    forall p w, route triangle_mem 0 p 2 w -> (d <= w)%Q.
Proof.
  apply (Dijkstra_shortest (H := naiveQueue) triangle_mem triangle 0 2 4).
  - exact triangle_wf.
  - exact triangle_nonneg.
  - apply triangle_nodes. lia.
  - apply triangle_nodes. lia.
  - eapply rtc_l; [|apply rtc_refl].
    exists (mkNode 0 0%Q 0%Q [] [eAB; eAC]), eAC.
    split; [reflexivity|]. split; [right; left | reflexivity].
  - simpl. lia.
Defined.

End graph.
